(** * grapesjs-version-flow: version registry and upgrade engine

    A shallow embedding of [version-manager.js] (class [VersionManager]),
    [upgrade-engine.js] (class [UpgradeEngine]), the option merge and the
    load handler of the plugin factory in [index.js], the event names of
    [event-system.js] and the style injection of [style-manager.js] and
    [modal-ui.js], with the properties of the design document stated and
    proved over it.

    Conventions of the embedding.
    - A JavaScript string is a [string] that holds the bytes of its UTF-8
      encoding; a nullable version identifier ([null] / [undefined] / a
      string) is an [option string].
    - A JavaScript Number obtained from [parseInt] is the [Z] it is equal
      to: [parseInt] rounds the integer it reads to the nearest double, and
      [Infinity] is written [2 ^ 1024], above every double; NaN is [None].
    - The engine, the registry and the shared [options] object are one
      explicit state record that every operation threads.
    - What the engine does to its surroundings (lifecycle events, action
      invocations, console output) is appended to a trace. *)

From Stdlib Require Import Bool Ascii String ZArith List Lia Arith.
From Stdlib Require Import Permutation Sorted.
Import ListNotations.

Local Open Scope string_scope.
Local Open Scope Z_scope.

(* ================================================================== *)
(** ** JavaScript primitives used by the sources *)
(* ================================================================== *)

Module Js.

(** [s.split('.')]: the pieces between the dots; never empty, an empty
    string gives one empty piece. *)
Fixpoint split_dot (s : string) : list string :=
  match s with
  | EmptyString => [EmptyString]
  | String c r =>
      if Ascii.eqb c "."%char then EmptyString :: split_dot r
      else match split_dot r with
           | [] => [String c EmptyString]
           | p :: ps => String c p :: ps
           end
  end.

(** White space and line terminators, which [parseInt] skips before the
    number, by the bytes of their UTF-8 encoding.  One byte: TAB, LF, VT,
    FF, CR, SP. *)
Definition is_space (c : ascii) : bool :=
  let n := nat_of_ascii c in
  (Nat.eqb n 9 || Nat.eqb n 10 || Nat.eqb n 11 || Nat.eqb n 12
   || Nat.eqb n 13 || Nat.eqb n 32)%bool.

(** Two bytes: U+00A0. *)
Definition is_space2 (c1 c2 : ascii) : bool :=
  (Nat.eqb (nat_of_ascii c1) 194 && Nat.eqb (nat_of_ascii c2) 160)%bool.

(** Three bytes: U+1680, U+2000 to U+200A, U+2028, U+2029, U+202F, U+205F,
    U+3000, U+FEFF. *)
Definition is_space3 (c1 c2 c3 : ascii) : bool :=
  let n1 := nat_of_ascii c1 in
  let n2 := nat_of_ascii c2 in
  let n3 := nat_of_ascii c3 in
  ((Nat.eqb n1 225 && Nat.eqb n2 154 && Nat.eqb n3 128)
   || (Nat.eqb n1 226 && Nat.eqb n2 128
       && ((Nat.leb 128 n3 && Nat.leb n3 138) || Nat.eqb n3 168 || Nat.eqb n3 169
           || Nat.eqb n3 175))
   || (Nat.eqb n1 226 && Nat.eqb n2 129 && Nat.eqb n3 159)
   || (Nat.eqb n1 227 && Nat.eqb n2 128 && Nat.eqb n3 128)
   || (Nat.eqb n1 239 && Nat.eqb n2 187 && Nat.eqb n3 191))%bool.

Definition digit_of (c : ascii) : option Z :=
  let n := nat_of_ascii c in
  if (Nat.leb 48 n && Nat.leb n 57)%bool then Some (Z.of_nat (n - 48)) else None.

Fixpoint trim_start (s : string) : string :=
  match s with
  | String c1 r1 =>
      if is_space c1 then trim_start r1
      else
        match r1 with
        | String c2 r2 =>
            if is_space2 c1 c2 then trim_start r2
            else
              match r2 with
              | String c3 r3 => if is_space3 c1 c2 c3 then trim_start r3 else s
              | EmptyString => s
              end
        | EmptyString => s
        end
  | EmptyString => EmptyString
  end.

(** Reads the longest prefix of decimal digits, [acc] being the value of
    the digits already read and [seen] whether there was one. *)
Fixpoint read_digits (s : string) (seen : bool) (acc : Z) : option Z :=
  match s with
  | String c r =>
      match digit_of c with
      | Some d => read_digits r true (10 * acc + d)
      | None => if seen then Some acc else None
      end
  | EmptyString => if seen then Some acc else None
  end.

Definition infinity : Z := 2 ^ 1024.

(** The Number value of a mathematical integer [n >= 0]: [n] itself when
    it has at most 53 significant bits; otherwise the bits below the 53
    leading ones are rounded off, to nearest and on a tie to the even
    significand, and what reaches [2 ^ 1024] is [Infinity].  (The language
    lets an engine read the digits after the 20th as zeros; the engines
    round the integer as written, and so does the embedding.) *)
Definition toNumber (n : Z) : Z :=
  let e := Z.log2 n - 52 in
  if e <=? 0 then n
  else
    let q := Z.shiftr n e in
    let r := n - Z.shiftl q e in
    let half := Z.shiftl 1 (e - 1) in
    let q' := if ((half <? r) || ((r =? half) && Z.odd q))%bool then q + 1 else q in
    Z.min (Z.shiftl q' e) infinity.

(** [parseInt(s, 10)]; [None] is NaN. *)
Definition parseInt10 (s : string) : option Z :=
  match trim_start s with
  | String c r =>
      if Ascii.eqb c "-"%char
      then option_map (fun mathInt => - toNumber mathInt) (read_digits r false 0)
      else if Ascii.eqb c "+"%char
      then option_map toNumber (read_digits r false 0)
      else option_map toNumber (read_digits (String c r) false 0)
  | EmptyString => None
  end.

(** [x || d] on an optional string: [undefined] and the empty string are
    falsy. *)
Definition or_else (x : option string) (d : string) : string :=
  match x with
  | Some EmptyString | None => d
  | Some s => s
  end.

(** [!x] on a nullable string. *)
Definition falsy (x : option string) : bool :=
  match x with
  | Some EmptyString | None => true
  | Some _ => false
  end.

End Js.

(* ================================================================== *)
(** ** Version comparator ([version-manager.js]) *)
(* ================================================================== *)

(** [parseVersion]: split on dots, [parseInt] each part, NaN becomes 0. *)
Definition parsePart (part : string) : Z :=
  match Js.parseInt10 part with
  | Some num => num
  | None => 0
  end.

Definition parseVersion (version : string) : list Z :=
  map parsePart (Js.split_dot version).

(** [parts[i] || 0]: a missing index reads [undefined], which is falsy. *)
Definition partAt (parts : list Z) (i : nat) : Z := nth i parts 0.

(** The [for] loop of [defaultCompareVersions], from index [i], with
    [n] iterations left. *)
Fixpoint compareFrom (v1Parts v2Parts : list Z) (i n : nat) : Z :=
  match n with
  | O => 0
  | S n' =>
      let v1Part := partAt v1Parts i in
      let v2Part := partAt v2Parts i in
      if v1Part <? v2Part then -1
      else if v1Part >? v2Part then 1
      else compareFrom v1Parts v2Parts (S i) n'
  end.

Definition defaultCompareVersions (version1 version2 : string) : Z :=
  if String.eqb version1 version2 then 0
  else
    let v1Parts := parseVersion version1 in
    let v2Parts := parseVersion version2 in
    compareFrom v1Parts v2Parts 0 (Nat.max (length v1Parts) (length v2Parts)).

(* ================================================================== *)
(** ** Data model *)
(* ================================================================== *)

(** A log entry [{ level, message }]. *)
Record LogEntry := { level : string; message : string }.

(** The two values whose properties cannot be read. *)
Inductive Nullish := JsNull | JsUndefined.

(** What an action threw or rejected with: [null] / [undefined], or a
    value whose [.message] property reads [msg] ([None] when the value has
    no such property). *)
Inductive Thrown :=
| ThrownNullish (which : Nullish)
| ThrownValue (msg : option string).

(** How an awaited action settled: it returned (a log message, or
    nothing) or it threw / rejected. *)
Inductive Outcome :=
| Returned (value : option string)
| Threw (err : Thrown).

Section Model.

(** The host document and whatever else the actions read and write. *)
Context {W : Type}.

(** One invocation of an action with the execution context, once its
    promise settled: the entries it pushed through [context.addLog], the
    world it left, and its outcome. *)
Record Settled := { logged : list LogEntry; world_after : W; outcome : Outcome }.

(** A catalog entry [{ builderVersion, upgrade, whatsNew }]. *)
Record VersionStep := {
  builderVersion : string;
  upgrade : W -> Settled;
  whatsNew : option (W -> Settled)
}.

(** The [options] object, shared by the registry and the engine. *)
Record Options := {
  opt_builderVersion : string;
  opt_versions : list VersionStep;
  opt_compareFn : option (string -> string -> Z);
  opt_continueOnError : bool
}.

(* ================================================================== *)
(** ** Version registry ([version-manager.js]) *)
(* ================================================================== *)

Definition compareVersions (o : Options) (version1 version2 : string) : Z :=
  match opt_compareFn o with
  | Some compareFn => compareFn version1 version2
  | None => defaultCompareVersions version1 version2
  end.

(** [Array.prototype.sort(compare)], stable since ECMAScript 2019.  The
    language fixes the result only for a comparator that is consistent on
    the elements, and then every stable sorting algorithm computes it; the
    embedding uses insertion sort.  [compare x y] is asked with [x] the
    element that came first. *)
Fixpoint insertSorted {A} (compare : A -> A -> Z) (x : A) (l : list A) : list A :=
  match l with
  | [] => [x]
  | y :: r => if compare x y <=? 0 then x :: y :: r
              else y :: insertSorted compare x r
  end.

Fixpoint jsSort {A} (compare : A -> A -> Z) (l : list A) : list A :=
  match l with
  | [] => []
  | x :: r => insertSorted compare x (jsSort compare r)
  end.

Definition byVersion (o : Options) (a b : VersionStep) : Z :=
  compareVersions o (builderVersion a) (builderVersion b).

Definition getPendingUpgrades (o : Options) (savedVersion : option string)
    (currentVersion : string) : list VersionStep :=
  match savedVersion with
  | None | Some EmptyString =>             (* !savedVersion *)
      jsSort (byVersion o)
        (filter (fun step =>
                   compareVersions o (builderVersion step) currentVersion <=? 0)
                (opt_versions o))
  | Some saved =>
      jsSort (byVersion o)
        (filter (fun step =>
                   let stepVersion := builderVersion step in
                   (compareVersions o saved stepVersion <? 0)
                   && (compareVersions o stepVersion currentVersion <=? 0))%bool
                (opt_versions o))
  end.

Definition isFunction {A} (f : option A) : bool :=
  match f with Some _ => true | None => false end.

Definition hasWhatsNewSteps (o : Options) : bool :=
  existsb (fun step => isFunction (whatsNew step)) (opt_versions o).

Definition needsUpgrade (o : Options) (savedVersion : option string)
    (currentVersion : string) : bool :=
  match savedVersion with
  | None | Some EmptyString =>             (* !savedVersion *)
      (0 <? Z.of_nat (length (getPendingUpgrades o savedVersion currentVersion)))
      || hasWhatsNewSteps o
  | Some saved => compareVersions o saved currentVersion <? 0
  end%bool.

Definition getPendingWhatsNew (o : Options) (savedVersion : option string)
    (currentVersion : string) : list VersionStep :=
  let pendingUpgrades := getPendingUpgrades o savedVersion currentVersion in
  filter (fun step => isFunction (whatsNew step)) pendingUpgrades.

End Model.

Arguments Settled : clear implicits.
Arguments VersionStep : clear implicits.
Arguments Options : clear implicits.

(* ================================================================== *)
(** ** Upgrade engine ([upgrade-engine.js]) *)
(* ================================================================== *)

Section Engine.

Context {W : Type}.

(** What the engine does to its surroundings, in order of occurrence.
    [Call_upgrade] and [Call_whatsNew] record an awaited action together
    with the way it settled. *)
Inductive Effect :=
| Emit_upgrade_start (pending : list string)
| Emit_versionUpgrade_start (toVersion : string)
| Emit_versionUpgrade_end (toVersion : string) (log : list LogEntry)
| Emit_upgrade_error (toVersion : string) (errorMessage : string) (step : string)
| Emit_upgrade_end (upgradedTo : option string) (hasFailures : bool)
| Call_upgrade (step : VersionStep W) (settled : Outcome)
| Call_undoSkip
| Call_whatsNew (step : VersionStep W) (settled : Outcome)
| Console_warn (text : string) (detail : option Thrown)
| Console_error (text : string) (detail : option Thrown).

(** The registry, the engine and the shared [options] object, with the
    host world and the trace of effects. *)
Record System := {
  options : Options W;
  savedVersion : option string;          (* VersionManager.savedVersion *)
  isUpgrading : bool;                    (* UpgradeEngine fields *)
  currentStep : option (VersionStep W);
  allLogs : list LogEntry;
  failedSteps : list string;
  world : W;
  trace : list Effect
}.

(** The object a [runUpgrades] promise resolves to; [failedStepsOf] and
    [error] are absent from some of the results. *)
Record Result := {
  success : bool;
  logs : list LogEntry;
  upgradedTo : option string;
  failedStepsOf : option (list string);
  error : option string
}.

Definition withOptions (o : Options W) (st : System) : System :=
  {| options := o; savedVersion := savedVersion st; isUpgrading := isUpgrading st;
     currentStep := currentStep st; allLogs := allLogs st;
     failedSteps := failedSteps st; world := world st; trace := trace st |}.

Definition withIsUpgrading (b : bool) (st : System) : System :=
  {| options := options st; savedVersion := savedVersion st; isUpgrading := b;
     currentStep := currentStep st; allLogs := allLogs st;
     failedSteps := failedSteps st; world := world st; trace := trace st |}.

Definition withCurrentStep (c : option (VersionStep W)) (st : System) : System :=
  {| options := options st; savedVersion := savedVersion st;
     isUpgrading := isUpgrading st; currentStep := c; allLogs := allLogs st;
     failedSteps := failedSteps st; world := world st; trace := trace st |}.

Definition withAllLogs (l : list LogEntry) (st : System) : System :=
  {| options := options st; savedVersion := savedVersion st;
     isUpgrading := isUpgrading st; currentStep := currentStep st; allLogs := l;
     failedSteps := failedSteps st; world := world st; trace := trace st |}.

Definition withFailedSteps (f : list string) (st : System) : System :=
  {| options := options st; savedVersion := savedVersion st;
     isUpgrading := isUpgrading st; currentStep := currentStep st;
     allLogs := allLogs st; failedSteps := f; world := world st;
     trace := trace st |}.

Definition withWorld (w : W) (st : System) : System :=
  {| options := options st; savedVersion := savedVersion st;
     isUpgrading := isUpgrading st; currentStep := currentStep st;
     allLogs := allLogs st; failedSteps := failedSteps st; world := w;
     trace := trace st |}.

(** Appends one effect to the trace: an [eventSystem.emit], a call or a
    console line.  The lifecycle notifier delivers synchronously and the
    embedding takes its listeners not to throw. *)
Definition effect (e : Effect) (st : System) : System :=
  {| options := options st; savedVersion := savedVersion st;
     isUpgrading := isUpgrading st; currentStep := currentStep st;
     allLogs := allLogs st; failedSteps := failedSteps st; world := world st;
     trace := trace st ++ [e] |}.

Definition pushLog (l : LogEntry) (st : System) : System :=
  withAllLogs (allLogs st ++ [l]) st.

Definition getSavedVersion (st : System) : option string := savedVersion st.

(** [updateVersion]: writes [options.builderVersion], nothing else. *)
Definition updateVersion (version : string) (st : System) : System :=
  let o := options st in
  withOptions {| opt_builderVersion := version; opt_versions := opt_versions o;
                 opt_compareFn := opt_compareFn o;
                 opt_continueOnError := opt_continueOnError o |} st.

(** Awaiting an action called with [createUpgradeContext()]: the entries it
    pushes through [addLog] reach [allLogs] whether it then returns or
    throws. *)
Definition await (action : W -> Settled W) (st : System) : Outcome * System :=
  let r := action (world st) in
  (outcome r, withAllLogs (allLogs st ++ logged r) (withWorld (world_after r) st)).

(** [runSingleUpgrade(step)]: the step's log entries, or what was thrown.
    [UndoManager.skip] is handed a callback that does nothing and is taken
    to return. *)
Definition runSingleUpgrade (step : VersionStep W) (st : System)
    : (list LogEntry + Thrown) * System :=
  let '(settled, st) := await (upgrade step) st in
  let st := effect (Call_upgrade step settled) st in
  match settled with
  | Threw err => (inr err, st)
  | Returned logMessage =>
      let st := effect Call_undoSkip st in
      let log := {| level := "info";
                    message := Js.or_else logMessage
                                 ("Upgraded to " ++ builderVersion step) |} in
      (inl [log], pushLog log st)
  end.

(** The engine state together with the local [lastSuccessfulVersion]. *)
Record Frame := { sys : System; lastSuccessfulVersion : option string }.

(** How one iteration of the step loop ends: on to the next step, [break],
    or an error leaving the loop, of which [escaped] is the [.message]. *)
Inductive Control :=
| Continue
| Break
| Escape (escaped : option string).

(** Message of the TypeError raised by reading [.message] of [null] or
    [undefined] (V8's wording; the text is engine-defined). *)
Definition nullishReadMessage (which : Nullish) : string :=
  "Cannot read properties of "
  ++ match which with JsNull => "null" | JsUndefined => "undefined" end
  ++ " (reading 'message')".

(** The head of the loop body, up to the point where the step's action is
    invoked and awaited. *)
Definition beforeUpgrade (step : VersionStep W) (st : System) : System :=
  let st := withCurrentStep (Some step) st in
  effect (Emit_versionUpgrade_start (builderVersion step)) st.

(** The body of [for (const step of pendingSteps)]. *)
Definition runStep (step : VersionStep W) (fr : Frame) : Control * Frame :=
  let last := lastSuccessfulVersion fr in
  let st := beforeUpgrade step (sys fr) in
  match runSingleUpgrade step st with
  | (inl stepLogs, st) =>
      let st := updateVersion (builderVersion step) st in
      let st := effect (Emit_versionUpgrade_end (builderVersion step) stepLogs) st in
      (Continue, {| sys := st; lastSuccessfulVersion := Some (builderVersion step) |})
  | (inr upgradeError, st) =>
      let st := effect (Console_error "[grapesjs-version-flow] Upgrade error caught:"
                          (Some upgradeError)) st in
      match upgradeError with
      | ThrownNullish which =>              (* error.message throws *)
          (Escape (Some (nullishReadMessage which)),
           {| sys := st; lastSuccessfulVersion := last |})
      | ThrownValue msg =>
          let logMessage := Js.or_else msg "Unknown error occurred" in
          let errorLog :=
            {| level := "error";
               message := "Failed to upgrade to " ++ builderVersion step
                          ++ ": " ++ logMessage |} in
          let st := pushLog errorLog st in
          let st := withFailedSteps (failedSteps st ++ [builderVersion step]) st in
          let st := effect (Emit_upgrade_error (builderVersion step) logMessage
                              (builderVersion step)) st in
          let st := effect (Emit_versionUpgrade_end (builderVersion step) [errorLog]) st in
          (if negb (opt_continueOnError (options st)) then Break else Continue,
           {| sys := st; lastSuccessfulVersion := last |})
      end
  end.

Fixpoint forEachStep (pendingSteps : list (VersionStep W)) (fr : Frame)
    : Control * Frame :=
  match pendingSteps with
  | [] => (Continue, fr)
  | step :: rest =>
      match runStep step fr with
      | (Continue, fr) => forEachStep rest fr
      | stopped => stopped
      end
  end.

(** The first statement of the outer [try] block. *)
Definition announceStart (pendingSteps : list (VersionStep W)) (fr : Frame) : Frame :=
  {| sys := effect (Emit_upgrade_start (map (@builderVersion W) pendingSteps)) (sys fr);
     lastSuccessfulVersion := lastSuccessfulVersion fr |}.

(** The outer [try] block: the run's result, or the [.message] of the
    error that left it. *)
Definition tryBlock (pendingSteps : list (VersionStep W)) (fr : Frame)
    : (Result + option string) * Frame :=
  let fr := announceStart pendingSteps fr in
  match forEachStep pendingSteps fr with
  | (Escape catastrophicError, fr) => (inr catastrophicError, fr)
  | (_, fr) =>
      let hasFailures := (0 <? length (failedSteps (sys fr)))%nat in
      let st := effect (Emit_upgrade_end (lastSuccessfulVersion fr) hasFailures) (sys fr) in
      (inl {| success := true;
              logs := allLogs st;
              upgradedTo := lastSuccessfulVersion fr;
              failedStepsOf := Some (failedSteps st);
              error := None |},
       {| sys := st; lastSuccessfulVersion := lastSuccessfulVersion fr |})
  end.

(** The outer [catch (catastrophicError)] block. *)
Definition catchBlock (catastrophicError : option string) (fr : Frame)
    : Result * System :=
  let st := effect (Console_error
                      "[grapesjs-version-flow] Catastrophic error during upgrade process:"
                      (Some (ThrownValue catastrophicError))) (sys fr) in
  let errorLog :=
    {| level := "error";
       message := "Catastrophic upgrade error: "
                  ++ Js.or_else catastrophicError "Unknown error" |} in
  let st := pushLog errorLog st in
  ({| success := false;
      logs := allLogs st;
      upgradedTo := lastSuccessfulVersion fr;
      failedStepsOf := Some (failedSteps st);
      error := Some (Js.or_else catastrophicError "Catastrophic upgrade error") |},
   st).

(** The [finally] block. *)
Definition finallyBlock (st : System) : System :=
  withCurrentStep None (withIsUpgrading false st).

(** The rejection of a call made while a run is in flight. *)
Definition alreadyInProgress (st : System) : Result :=
  {| success := false; logs := [];
     upgradedTo := Some (opt_builderVersion (options st));
     failedStepsOf := None;
     error := Some "Upgrade already in progress" |}.

(** The state in which the [try] block is entered. *)
Definition enterRun (st : System) : Frame :=
  {| sys := withFailedSteps [] (withAllLogs [] (withIsUpgrading true st));
     lastSuccessfulVersion := getSavedVersion st |}.

Definition pendingOf (st : System) : list (VersionStep W) :=
  getPendingUpgrades (options st) (getSavedVersion st)
    (opt_builderVersion (options st)).

Definition runUpgrades (st : System) : Result * System :=
  if isUpgrading st then
    (alreadyInProgress st,
     effect (Console_warn "[grapesjs-version-flow] Upgrade already in progress" None) st)
  else
    let currentVersion := opt_builderVersion (options st) in
    let pendingSteps := pendingOf st in
    match pendingSteps with
    | [] => ({| success := true; logs := []; upgradedTo := Some currentVersion;
                failedStepsOf := None; error := None |}, st)
    | _ :: _ =>
        match tryBlock pendingSteps (enterRun st) with
        | (inl result, fr) => (result, finallyBlock (sys fr))
        | (inr catastrophicError, fr) =>
            let '(result, st) := catchBlock catastrophicError fr in
            (result, finallyBlock st)
        end
    end.

(** The body of the loop of [runWhatsNew]: a throwing announcement is
    caught and reported with [console.warn]. *)
Definition announce (step : VersionStep W) (st : System) : System :=
  match whatsNew step with
  | Some action =>
      let '(settled, st) := await action st in
      let st := effect (Call_whatsNew step settled) st in
      match settled with
      | Returned _ => st
      | Threw err =>
          effect (Console_warn ("[grapesjs-version-flow] Error in whatsNew for "
                                ++ builderVersion step ++ ":") (Some err)) st
      end
  | None => st
  end.

Definition runWhatsNew (st : System) : System :=
  let currentVersion := opt_builderVersion (options st) in
  let whatsNewSteps :=
    getPendingWhatsNew (options st) (getSavedVersion st) currentVersion in
  fold_left (fun st step => announce step st) whatsNewSteps st.

End Engine.

Arguments Effect : clear implicits.
Arguments System : clear implicits.
Arguments Frame : clear implicits.

(* ================================================================== *)
(** ** The plugin factory's option merge ([index.js]) *)
(* ================================================================== *)

Section Plugin.

Context {W : Type}.

(** The [opts] argument of the factory: each recognised key is either
    given or left out. *)
Record PluginOpts := {
  given_builderVersion : option string;
  given_versions : option (list (VersionStep W));
  given_compareFn : option (string -> string -> Z);
  given_continueOnError : option bool
}.

Definition given {A} (x : option A) (default : A) : A :=
  match x with Some v => v | None => default end.

(** [const options = { builderVersion: '', versions: [], compareFn: null,
    continueOnError: true, ...opts }]. *)
Definition mergeOptions (opts : PluginOpts) : Options W :=
  {| opt_builderVersion := given (given_builderVersion opts) "";
     opt_versions := given (given_versions opts) [];
     opt_compareFn := given_compareFn opts;
     opt_continueOnError := given (given_continueOnError opts) true |}.

(** The registry and the engine as the factory constructs them over the
    host [editor]; [None] when validation refuses the options (a missing
    [builderVersion], or a step without one). *)
Definition plugin (opts : PluginOpts) (editor : W) : option (System W) :=
  let options := mergeOptions opts in
  if String.eqb (opt_builderVersion options) "" then None
  else if existsb (fun version => String.eqb (builderVersion version) "")
                  (opt_versions options) then None
  else Some {| options := options; savedVersion := None; isUpgrading := false;
               currentStep := None; allLogs := []; failedSteps := [];
               world := editor; trace := [] |}.

(** The ['storage:load'] hook: a truthy version tag in the loaded data
    becomes the saved version. *)
Definition onStorageLoad (tag : option string) (st : System W) : System W :=
  if Js.falsy tag then st
  else {| options := options st; savedVersion := tag;
          isUpgrading := isUpgrading st; currentStep := currentStep st;
          allLogs := allLogs st; failedSteps := failedSteps st;
          world := world st; trace := trace st |}.

End Plugin.

Arguments PluginOpts : clear implicits.

(* ================================================================== *)
(** ** Specification-side definitions *)
(* ================================================================== *)

(** The comparator as the design document words it: equal strings give 0;
    otherwise both identifiers are split into integer parts, the shorter
    sequence is padded with zeros, and the first position where the parts
    differ gives the sign. *)
Definition padZeros (n : nat) (parts : list Z) : list Z :=
  parts ++ repeat 0 (n - length parts).

Fixpoint firstDifference (l1 l2 : list Z) : Z :=
  match l1, l2 with
  | x :: r1, y :: r2 => if x =? y then firstDifference r1 r2 else Z.sgn (x - y)
  | _, _ => 0
  end.

Definition compareByParts (integerPart : string -> Z) (a b : string) : Z :=
  if String.eqb a b then 0
  else
    let pa := map integerPart (Js.split_dot a) in
    let pb := map integerPart (Js.split_dot b) in
    let n := Nat.max (length pa) (length pb) in
    firstDifference (padZeros n pa) (padZeros n pb).

Definition isDecimalDigit (c : ascii) : bool :=
  (Nat.leb 48 (nat_of_ascii c) && Nat.leb (nat_of_ascii c) 57)%bool.

Definition digitValue (c : ascii) : Z := Z.of_nat (nat_of_ascii c) - 48.

Fixpoint digitsOnly (s : string) : bool :=
  match s with
  | EmptyString => true
  | String c r => isDecimalDigit c && digitsOnly r
  end.

(** The number that a run of decimal digits writes. *)
Definition decimalValue (digits : string) : Z :=
  fold_left (fun value c => 10 * value + digitValue c) (list_ascii_of_string digits) 0.

(** An integer part as the design document words it: a numeric part, that
    is a run of decimal digits, is the number it writes; a part that is not
    numeric is 0. *)
Definition integerPartAsWorded (part : string) : Z :=
  if digitsOnly part then decimalValue part else 0.

Definition compareAsSpecified : string -> string -> Z :=
  compareByParts integerPartAsWorded.

(** The string with the given bytes. *)
Definition bytes (codes : list nat) : string :=
  string_of_list_ascii (map ascii_of_nat codes).

(** White space, in UTF-8: TAB, LF, VT, FF, CR, SP, U+00A0, U+1680, U+2000
    to U+200A, U+2028, U+2029, U+202F, U+205F, U+3000, U+FEFF. *)
Definition whiteSpaceAsAmended : list string :=
  map bytes
    (([[9]; [10]; [11]; [12]; [13]; [32]; [194; 160]; [225; 154; 128]]
      ++ map (fun low => [226; 128; low]) (seq 128 11)
      ++ [[226; 128; 168]; [226; 128; 169]; [226; 128; 175]; [226; 129; 159];
          [227; 128; 128]; [239; 187; 191]])%list)%nat.

(** [s] without its prefix [p], if it starts with it. *)
Fixpoint stripPrefix (p s : string) : option string :=
  match p, s with
  | EmptyString, _ => Some s
  | String a p', String b s' => if Ascii.eqb a b then stripPrefix p' s' else None
  | String _ _, EmptyString => None
  end.

Fixpoint stripOne (prefixes : list string) (s : string) : option string :=
  match prefixes with
  | [] => None
  | p :: others =>
      match stripPrefix p s with
      | Some r => Some r
      | None => stripOne others s
      end
  end.

(** [s] without its leading white space; [fuel] bounds the number of
    white-space characters taken off. *)
Fixpoint skipWhiteSpace (fuel : nat) (s : string) : string :=
  match fuel with
  | O => s
  | S fuel' =>
      match stripOne whiteSpaceAsAmended s with
      | Some r => skipWhiteSpace fuel' r
      | None => s
      end
  end.

Fixpoint leadingDigits (s : string) : string :=
  match s with
  | String c r => if isDecimalDigit c then String c (leadingDigits r) else EmptyString
  | EmptyString => EmptyString
  end.

(** The double-precision number nearest to the integer [n]: [n] itself
    below 2^53; from there on the doubles are the multiples of
    [ulp = 2 ^ (log2 n - 52)], and [n] goes to the nearer of the two
    multiples around it, on a tie to the even one; what reaches [2 ^ 1024]
    is infinite. *)
Definition nearestDouble (n : Z) : Z :=
  if n <? 2 ^ 53 then n
  else
    let ulp := 2 ^ (Z.log2 n - 52) in
    let below := n / ulp * ulp in
    let above := below + ulp in
    let chosen :=
      if n - below <? above - n then below
      else if above - n <? n - below then above
      else if Z.even (below / ulp) then below else above in
    if 2 ^ 1024 <=? chosen then 2 ^ 1024 else chosen.

(** An integer part as the amended wording has it: the integer written at
    the start of the part -- white space first, then an optional sign, then
    decimal digits as far as they go, the text after them being ignored --
    as a double-precision number; a part that does not start in this way
    is 0. *)
Definition integerPartAsAmended (part : string) : Z :=
  let s := skipWhiteSpace (String.length part) part in
  let '(negative, unsigned) :=
    match stripPrefix "-" s, stripPrefix "+" s with
    | Some r, _ => (true, r)
    | None, Some r => (false, r)
    | None, None => (false, s)
    end in
  match leadingDigits unsigned with
  | EmptyString => 0
  | digits =>
      let number := nearestDouble (decimalValue digits) in
      if negative then - number else number
  end.

Definition compareAsAmended : string -> string -> Z :=
  compareByParts integerPartAsAmended.

(** Identifiers on which both wordings agree: every part a run of decimal
    digits that writes a number below 2^53. *)
Definition plainPart (part : string) : bool :=
  digitsOnly part && (decimalValue part <? 2 ^ 53).

Definition plainVersion (version : string) : bool :=
  forallb plainPart (Js.split_dot version).

(** The parts of an identifier as the loop reads them, zero beyond the end. *)
Definition partsOf (a : string) : nat -> Z := partAt (parseVersion a).

(** [lexBefore f g]: at the first index where the part sequences differ,
    [f] has the smaller part. *)
Definition lexBefore (f g : nat -> Z) : Prop :=
  exists k, (forall j, (j < k)%nat -> f j = g j) /\ f k < g k.

(** A comparator is consistent on the identifiers [vs] when, on them, the
    signs of [compare a b] and [compare b a] are opposite and "not after"
    is transitive: what [Array.prototype.sort] needs for its result to be
    determined. *)
Definition consistentOn (compare : string -> string -> Z) (vs : list string) : bool :=
  forallb (fun a =>
    forallb (fun b =>
      (Z.sgn (compare a b) =? - Z.sgn (compare b a))
      && forallb (fun c =>
           implb ((compare a b <=? 0) && (compare b c <=? 0)) (compare a c <=? 0))
         vs) vs) vs.

Section PendingSpec.

Context {W : Type}.

(** "Pending" as the registry decides it: a missing or empty saved version
    makes every step up to the current version pending. *)
Definition isPending (o : Options W) (saved : option string) (current : string)
    (step : VersionStep W) : bool :=
  match saved with
  | Some (String c r) =>
      (compareVersions o (String c r) (builderVersion step) <? 0)
      && (compareVersions o (builderVersion step) current <=? 0)
  | Some EmptyString | None =>
      compareVersions o (builderVersion step) current <=? 0
  end.

(** "Pending" as the design document words it: only an absent ([null] or
    [undefined]) saved version takes the bootstrap case. *)
Definition isPendingAsWorded (o : Options W) (saved : option string)
    (current : string) (step : VersionStep W) : bool :=
  match saved with
  | None => compareVersions o (builderVersion step) current <=? 0
  | Some s => (compareVersions o s (builderVersion step) <? 0)
              && (compareVersions o (builderVersion step) current <=? 0)
  end.

(** [needsUpgrade] as the design document words it. *)
Definition needsUpgradeAsWorded (o : Options W) (saved : option string)
    (current : string) : bool :=
  match saved with
  | None => negb (Nat.eqb (length (getPendingUpgrades o None current)) 0)
            || hasWhatsNewSteps o
  | Some s => compareVersions o s current <? 0
  end.

(** The steps of [l] whose version compares equal to that of [s0]. *)
Definition tiedWith (o : Options W) (s0 : VersionStep W) (l : list (VersionStep W))
    : list (VersionStep W) :=
  filter (fun s => byVersion o s0 s =? 0) l.

(** Ascending under the comparator: every step compares before or equal
    to every step that comes later in the list. *)
Definition ascending (o : Options W) (l : list (VersionStep W)) : Prop :=
  StronglySorted (fun a b => byVersion o a b <= 0) l.

End PendingSpec.

(* ================================================================== *)
(** ** Sample catalogs, used where a property is run on concrete input *)
(* ================================================================== *)

Module Sample.

(** The world of the samples: the journal of what the actions did. *)
Definition Journal := list string.

Definition settle (w : Journal) (note : string) (out : Outcome) : Settled Journal :=
  {| logged := []; world_after := (w ++ [note])%list; outcome := out |}.

(** A step whose upgrade returns [msg]. *)
Definition succeeding (v : string) (msg : option string) : VersionStep Journal :=
  {| builderVersion := v;
     upgrade := fun w => settle w ("upgrade " ++ v) (Returned msg);
     whatsNew := None |}.

(** A step whose upgrade throws [err], after logging through the context. *)
Definition failing (v : string) (err : Thrown) : VersionStep Journal :=
  {| builderVersion := v;
     upgrade := fun w =>
       {| logged := [{| level := "warn"; message := "about to fail" |}];
          world_after := (w ++ [("upgrade " ++ v)%string])%list; outcome := Threw err |};
     whatsNew := None |}.

(** A step with an announcement that settles as [out]. *)
Definition announcing (v : string) (out : Outcome) : VersionStep Journal :=
  {| builderVersion := v;
     upgrade := fun w => settle w ("upgrade " ++ v) (Returned None);
     whatsNew := Some (fun w => settle w ("whatsNew " ++ v) out) |}.

Definition optionsOf (current : string) (catalog : list (VersionStep Journal))
    (continueOnError : bool) : Options Journal :=
  {| opt_builderVersion := current; opt_versions := catalog;
     opt_compareFn := None; opt_continueOnError := continueOnError |}.

(** An idle engine over a document saved at [saved]. *)
Definition idle (o : Options Journal) (saved : option string) : System Journal :=
  {| options := o; savedVersion := saved; isUpgrading := false;
     currentStep := None; allLogs := []; failedSteps := []; world := [];
     trace := [] |}.

(** The catalog of the registry's tests, out of order. *)
Definition shuffled : list (VersionStep Journal) :=
  [succeeding "2.0.0" None; succeeding "1.2" (Some "first");
   succeeding "1.1.0" None; succeeding "1.2.0" (Some "second");
   succeeding "2.1.0" None].

(** A comparator that is not consistent: everything is before [pivot],
    and nothing is before anything else. *)
Definition beforeOnly (pivot : string) (a b : string) : Z :=
  if String.eqb b pivot then -1 else 1.

(** Another one: [late] is after [early], and every other pair compares
    equal, so that "equal" is not transitive. *)
Definition onlyAfter (late early : string) (a b : string) : Z :=
  if (String.eqb a late && String.eqb b early)%bool then 1
  else if (String.eqb a early && String.eqb b late)%bool then -1
  else 0.

End Sample.

Section TraceReading.

Context {W : Type}.

(** The steps whose upgrade action was invoked, in order. *)
Definition upgradeCalls (t : list (Effect W)) : list (VersionStep W) :=
  flat_map (fun e => match e with Call_upgrade step _ => [step] | _ => [] end) t.

(** The steps whose announcement was invoked, in order. *)
Definition whatsNewCalls (t : list (Effect W)) : list (VersionStep W) :=
  flat_map (fun e => match e with Call_whatsNew step _ => [step] | _ => [] end) t.

(** The lines written with [console.warn]. *)
Definition warnings (t : list (Effect W)) : list (string * option Thrown) :=
  flat_map (fun e => match e with Console_warn text d => [(text, d)] | _ => [] end) t.

End TraceReading.

Section RunReading.

Context {W : Type}.

(** The engine states in which the loop over [pendingSteps] is suspended
    on a step's action: one per step it reaches. *)
Fixpoint suspensions (pendingSteps : list (VersionStep W)) (fr : Frame W)
    : list (System W) :=
  match pendingSteps with
  | [] => []
  | step :: rest =>
      beforeUpgrade step (sys fr)
      :: match runStep step fr with
         | (Continue, fr) => suspensions rest fr
         | _ => []
         end
  end.

(** The states in which the run started by calling [runUpgrades] on [st]
    is in flight. *)
Definition inFlight (st : System W) : list (System W) :=
  if isUpgrading st then []
  else suspensions (pendingOf st) (announceStart (pendingOf st) (enterRun st)).

(** What was appended to the trace between [st] and [st']. *)
Definition since (st st' : System W) : list (Effect W) :=
  skipn (length (trace st)) (trace st').

(** The warning [runWhatsNew] writes for each announcement in [t] that
    threw. *)
Definition announcementWarnings (t : list (Effect W)) : list (string * option Thrown) :=
  flat_map (fun e => match e with
                     | Call_whatsNew step (Threw err) =>
                         [("[grapesjs-version-flow] Error in whatsNew for "
                           ++ builderVersion step ++ ":", Some err)]
                     | _ => []
                     end) t.

(** The text of the warning for an announcement that threw. *)
Definition whatsNewWarning (step : VersionStep W) : string :=
  "[grapesjs-version-flow] Error in whatsNew for " ++ builderVersion step ++ ":".

(** What the design document asks of a run of announcements over the
    document [w]: the announcement of each step is invoked in turn, on the
    document as the earlier ones left it and whatever they did, and one
    that throws is answered by a warning that names the step and carries
    what was thrown.  The effects in order, and the document at the end. *)
Fixpoint announcementsAsWorded (steps : list (VersionStep W)) (w : W)
    : list (Effect W) * W :=
  match steps with
  | [] => ([], w)
  | step :: rest =>
      match whatsNew step with
      | Some action =>
          let settled := action w in
          let '(effects, w') := announcementsAsWorded rest (world_after settled) in
          ((Call_whatsNew step (outcome settled)
            :: match outcome settled with
               | Threw err => [Console_warn (whatsNewWarning step) (Some err)]
               | Returned _ => []
               end ++ effects)%list, w')
      | None => announcementsAsWorded rest w
      end
  end.

End RunReading.

Section VersionReading.

Context {W : Type}.

(** The versions of the steps in [t] whose upgrade action returned. *)
Definition returnedVersions (t : list (Effect W)) : list string :=
  flat_map (fun e => match e with
                     | Call_upgrade step (Returned _) => [builderVersion step]
                     | _ => []
                     end) t.

End VersionReading.

(** Proof steps that recur: the cases of one loop iteration by the way the
    step's action settles, and a trace brought to the form [t ++ added]. *)
Ltac step_cases step fr :=
  unfold runStep, beforeUpgrade, runSingleUpgrade, await;
  cbn;
  destruct (outcome (upgrade step (world (sys fr)))) as [value | [which | msg]];
  cbn.

Ltac flatten_trace := rewrite <- ?app_assoc; cbn [app].

(** A byte by its eight bits. *)
Ltac bits c := destruct c as [[] [] [] [] [] [] [] []].

Module Scenario.

Import Sample.

(** Saved at 1.0.0 under 2.0.0, both steps return: the states in which the
    run is in flight, and the second of them. *)
Definition twoSteps : System Journal :=
  idle (optionsOf "2.0.0" [succeeding "1.1.0" None; succeeding "2.0.0" None] false)
       (Some "1.0.0").

Definition awaitingSecond : System Journal :=
  nth 1 (inFlight twoSteps) twoSteps.

(** Saved at 1.0.0 under 2.0.0: 1.1.0 returns, 1.2.0 logs and then rejects
    with [undefined], 2.0.0 would return. *)
Definition brokenMiddle : System Journal :=
  idle (optionsOf "2.0.0"
          [succeeding "1.1.0" (Some "ok"); failing "1.2.0" (ThrownNullish JsUndefined);
           succeeding "2.0.0" None] true)
       (Some "1.0.0").

(** The factory called without [continueOnError], over a catalog whose
    first step throws, and the document then loaded at 1.0.0. *)
Definition defaultOpts : PluginOpts Journal :=
  {| given_builderVersion := Some "2.0.0";
     given_versions := Some [failing "1.1.0" (ThrownValue (Some "boom"));
                             succeeding "2.0.0" None];
     given_compareFn := None;
     given_continueOnError := None |}.

Definition loadedWithDefaults : option (System Journal) :=
  option_map (onStorageLoad (Some "1.0.0")) (plugin defaultOpts []).

(** First run (nothing saved) under 2.0.0 with three announcements, the
    first of which throws. *)
Definition firstRun : System Journal :=
  idle (optionsOf "2.0.0"
          [announcing "2.0.0" (Returned None);
           announcing "1.1.0" (Threw (ThrownValue (Some "no banner")));
           succeeding "1.2.0" None;
           announcing "1.5.0" (Threw (ThrownNullish JsUndefined))] false)
       None.

End Scenario.

(* ================================================================== *)
(** ** Further operations of the sources *)
(* ================================================================== *)

(** *** Storage hooks ([version-manager.js], [setupStorageHooks]) *)

(** The project data handed to the storage events: an object read and
    written by key, here with string values, keys in insertion order. *)
Definition ProjectData := list (string * string).

(** [data[key]]; [None] is [undefined]. *)
Fixpoint getKey (key : string) (data : ProjectData) : option string :=
  match data with
  | [] => None
  | (k, v) :: rest => if String.eqb k key then Some v else getKey key rest
  end.

(** [data[key] = value]: overwrites the property where it stands, or adds
    it after the others. *)
Fixpoint setKey (key value : string) (data : ProjectData) : ProjectData :=
  match data with
  | [] => [(key, value)]
  | (k, v) :: rest =>
      if String.eqb k key then (k, value) :: rest
      else (k, v) :: setKey key value rest
  end.

Definition versionKey : string := "builderVersion".

Section StorageHooks.

Context {W : Type}.

(** The ['storage:start:store'] listener: the outgoing data receives the
    current version under [versionKey]. *)
Definition onStorageStartStore (st : System W) (data : ProjectData) : ProjectData :=
  setKey versionKey (opt_builderVersion (options st)) data.

(** The ['storage:load'] listener on the loaded [data] ([None] when the
    host passes [null]): [if (data && data[this.versionKey])]. *)
Definition onStorageLoadData (data : option ProjectData) (st : System W) : System W :=
  match data with
  | Some d => onStorageLoad (getKey versionKey d) st
  | None => st
  end.

(** What the ['storage:end:load'] listener of [index.js] does once its
    timer fires. *)
Inductive LoadAction :=
| CallOnFirstRun
| ShowUpgradeModal (savedVersion currentVersion : string)
| NoAction.

Definition onStorageEndLoad (hasOnFirstRun : bool) (st : System W) : LoadAction :=
  let savedVersion := getSavedVersion st in
  let currentVersion := opt_builderVersion (options st) in
  match savedVersion with
  | None | Some EmptyString =>             (* !savedVersion *)
      if hasOnFirstRun then CallOnFirstRun else NoAction
  | Some saved =>
      if needsUpgrade (options st) savedVersion currentVersion
      then ShowUpgradeModal saved currentVersion
      else NoAction
  end.

(** *** [retryFromFailedStep] ([upgrade-engine.js]) *)

Definition withVersions (versions : list (VersionStep W)) (st : System W) : System W :=
  let o := options st in
  withOptions {| opt_builderVersion := opt_builderVersion o; opt_versions := versions;
                 opt_compareFn := opt_compareFn o;
                 opt_continueOnError := opt_continueOnError o |} st.

(** [l.findIndex(p)]; [None] is -1. *)
Fixpoint findIndex {A} (p : A -> bool) (l : list A) : option nat :=
  match l with
  | [] => None
  | x :: rest => if p x then Some O else option_map S (findIndex p rest)
  end.

(** The narrowed catalog is in place while [runUpgrades] computes its
    pending list, which is all the run reads of it; the original catalog is
    back when the call returns. *)
Definition retryFromFailedStep (st : System W) : Result * System W :=
  match failedSteps st with
  | [] => runUpgrades st
  | _ :: _ =>
      let lastFailedStep := last (failedSteps st) "" in
      let savedVersion := getSavedVersion st in
      let currentVersion := opt_builderVersion (options st) in
      let allSteps := getPendingUpgrades (options st) savedVersion currentVersion in
      match findIndex (fun step => String.eqb (builderVersion step) lastFailedStep)
                      allSteps with
      | None => runUpgrades st
      | Some failedStepIndex =>
          let remainingSteps := skipn failedStepIndex allSteps in
          let originalSteps := opt_versions (options st) in
          let '(result, st') := runUpgrades (withVersions remainingSteps st) in
          (result, withVersions originalSteps st')
      end
  end.

(** The options over another catalog. *)
Definition withCatalog (versions : list (VersionStep W)) (o : Options W) : Options W :=
  {| opt_builderVersion := opt_builderVersion o; opt_versions := versions;
     opt_compareFn := opt_compareFn o;
     opt_continueOnError := opt_continueOnError o |}.

(** Strictly before, under the comparator. *)
Definition strictlyBefore (o : Options W) (a b : VersionStep W) : Prop :=
  byVersion o a b < 0.

(** *** Readings of a run *)

(** The versions of the steps in [t] whose upgrade action threw a value
    other than [null] / [undefined]. *)
Definition thrownVersions (t : list (Effect W)) : list string :=
  flat_map (fun e => match e with
                     | Call_upgrade step (Threw (ThrownValue _)) => [builderVersion step]
                     | _ => []
                     end) t.

(** The effects of [t] that a lifecycle listener sees. *)
Definition emitted (t : list (Effect W)) : list (Effect W) :=
  filter (fun e => match e with
                   | Emit_upgrade_start _ | Emit_versionUpgrade_start _
                   | Emit_versionUpgrade_end _ _ | Emit_upgrade_error _ _ _
                   | Emit_upgrade_end _ _ => true
                   | _ => false
                   end) t.

(** [st'] continues the trace of [st]. *)
Definition grows (st st' : System W) : Prop :=
  trace st' = (trace st ++ since st st')%list.

(** No upgrade action of [steps] ever rejects with [null] / [undefined]. *)
Definition neverNullish (steps : list (VersionStep W)) : Prop :=
  forall step w, In step steps ->
    forall which, outcome (upgrade step w) <> Threw (ThrownNullish which).

(** What the factory's validation establishes and every operation keeps:
    the current version and every catalog version are non-empty, and the
    saved version is never the empty string. *)
Definition validated (st : System W) : Prop :=
  opt_builderVersion (options st) <> ""
  /\ Forall (fun step => builderVersion step <> "") (opt_versions (options st))
  /\ savedVersion st <> Some "".

End StorageHooks.

(** No two of the identifiers [vs], taken at different positions, compare
    equal. *)
Fixpoint distinctUnder (compare : string -> string -> Z) (vs : list string) : bool :=
  match vs with
  | [] => true
  | x :: rest => forallb (fun y => negb (compare x y =? 0)) rest
                 && distinctUnder compare rest
  end.

Section EventReading.

Context {W : Type}.

(** The lifecycle events that go with one awaited upgrade action, by the
    way it settled. *)
Definition stepEvents (step : VersionStep W) (settled : Outcome) : list (Effect W) :=
  let v := builderVersion step in
  match settled with
  | Returned logMessage =>
      [Emit_versionUpgrade_start v;
       Emit_versionUpgrade_end v
         [{| level := "info";
             message := Js.or_else logMessage ("Upgraded to " ++ v) |}]]
  | Threw (ThrownValue msg) =>
      let logMessage := Js.or_else msg "Unknown error occurred" in
      [Emit_versionUpgrade_start v;
       Emit_upgrade_error v logMessage v;
       Emit_versionUpgrade_end v
         [{| level := "error";
             message := "Failed to upgrade to " ++ v ++ ": " ++ logMessage |}]]
  | Threw (ThrownNullish _) => [Emit_versionUpgrade_start v]
  end.

Definition callEvents (t : list (Effect W)) : list (Effect W) :=
  flat_map (fun e => match e with
                     | Call_upgrade step settled => stepEvents step settled
                     | _ => []
                     end) t.

End EventReading.

(** *** Event names ([event-system.js]) *)

Definition eventPrefix : string := "version:".

(** [eventName.startsWith(this.eventPrefix) ? eventName :
    `${this.eventPrefix}${eventName}`], the name under which [emit], [on],
    [off] and [once] reach the editor's bus. *)
Definition fullEventName (eventName : string) : string :=
  if String.prefix eventPrefix eventName then eventName
  else eventPrefix ++ eventName.

(** *** Style sheets ([style-manager.js], [modal-ui.js]) *)

(** A character of [[\w-]]. *)
Definition isClassChar (c : ascii) : bool :=
  let n := nat_of_ascii c in
  ((Nat.leb 48 n && Nat.leb n 57) || (Nat.leb 65 n && Nat.leb n 90)
   || (Nat.leb 97 n && Nat.leb n 122) || Nat.eqb n 95 || Nat.eqb n 45)%bool.

Definition startsWithClassChar (s : string) : bool :=
  match s with
  | String c _ => isClassChar c
  | EmptyString => false
  end.

(** The longest run of class characters at the head of [s], and what
    follows it. *)
Fixpoint takeRun (s : string) : string :=
  match s with
  | String c rest => if isClassChar c then String c (takeRun rest) else EmptyString
  | EmptyString => EmptyString
  end.

Fixpoint dropRun (s : string) : string :=
  match s with
  | String c rest => if isClassChar c then dropRun rest else s
  | EmptyString => EmptyString
  end.

(** The expansion of a replacement pattern for one match of a regular
    expression with one capture group and no named group: [$$] is a
    dollar, [$&] the match, [$`] and [$'] the text of the subject before
    and after the match, [$1] and [$01] the group; every other [$] stands
    for itself. *)
Fixpoint substitute (template matched group1 before after : string) : string :=
  match template with
  | EmptyString => EmptyString
  | String c rest =>
      if Ascii.eqb c "$"%char then
        match rest with
        | String d rest' =>
            if Ascii.eqb d "$"%char
            then String "$"%char (substitute rest' matched group1 before after)
            else if Ascii.eqb d "&"%char
            then matched ++ substitute rest' matched group1 before after
            else if Ascii.eqb d "`"%char
            then before ++ substitute rest' matched group1 before after
            else if Ascii.eqb d "'"%char
            then after ++ substitute rest' matched group1 before after
            else if Ascii.eqb d "1"%char
            then group1 ++ substitute rest' matched group1 before after
            else if Ascii.eqb d "0"%char then
              match rest' with
              | String e rest'' =>
                  if Ascii.eqb e "1"%char
                  then group1 ++ substitute rest'' matched group1 before after
                  else String c (substitute rest matched group1 before after)
              | EmptyString => String c (substitute rest matched group1 before after)
              end
            else String c (substitute rest matched group1 before after)
        | EmptyString => String c EmptyString
        end
      else String c (substitute rest matched group1 before after)
  end.

(** [css.replace(/\.([\w-]+)/g, template)], from a position of the subject
    with [before] behind it.  A match is a dot and the longest run of class
    characters after it; [inMatch] tells that the characters of such a run
    are being passed over, the replacement standing for them. *)
Fixpoint replaceClassSelectors (template before : string) (inMatch : bool)
    (css : string) : string :=
  match css with
  | EmptyString => EmptyString
  | String c rest =>
      let before' := before ++ String c EmptyString in
      if (inMatch && isClassChar c)%bool
      then replaceClassSelectors template before' true rest
      else if (Ascii.eqb c "."%char && startsWithClassChar rest)%bool
      then substitute template (String c (takeRun rest)) (takeRun rest)
                      before (dropRun rest)
           ++ replaceClassSelectors template before' true rest
      else String c (replaceClassSelectors template before' false rest)
  end.

(** [css.replace(/\.([\w-]+)/g, `.${this.classPrefix}-$1`)]. *)
Definition scopeCSS (classPrefix css : string) : string :=
  replaceClassSelectors ("." ++ classPrefix ++ "-$1") EmptyString false css.

(** What the replacement comes to for a prefix without [$]: the text
    [classPrefix-] put after every dot that a class character follows. *)
Fixpoint prefixClassSelectors (classPrefix css : string) : string :=
  match css with
  | EmptyString => EmptyString
  | String c rest =>
      if (Ascii.eqb c "."%char && startsWithClassChar rest)%bool
      then "." ++ classPrefix ++ "-" ++ prefixClassSelectors classPrefix rest
      else String c (prefixClassSelectors classPrefix rest)
  end.

(** Every character of [s] satisfies [f]. *)
Fixpoint allChars (f : ascii -> bool) (s : string) : bool :=
  match s with
  | EmptyString => true
  | String c rest => f c && allChars f rest
  end.

Definition notDot (c : ascii) : bool := negb (Ascii.eqb c "."%char).

Definition notDollar (c : ascii) : bool := negb (Ascii.eqb c "$"%char).

(** A CSS class name as the pattern reads one: a non-empty run of class
    characters. *)
Definition isClassName (s : string) : bool :=
  startsWithClassChar s && allChars isClassChar s.

(** [styles.classPrefix || 'gjs-version-flow']. *)
Definition classPrefixOf (given : option string) : string :=
  Js.or_else given "gjs-version-flow".

(** [getClassName] of both classes: [`${prefix}-${className}`]. *)
Definition getClassName (classPrefix className : string) : string :=
  classPrefix ++ "-" ++ className.

(** A [<style>] element of [document.head]: its text, and whether it
    carries the [data-gjs-version-flow] attribute. *)
Record StyleElement := { innerHTML : string; flowAttribute : bool }.

(** The style manager with the document head it writes to. *)
Record Styles := {
  injectCSSOption : option string;       (* styles.injectCSS *)
  classPrefixOption : option string;     (* styles.classPrefix *)
  injected : bool;
  head : list StyleElement
}.

(** [StyleManager.injectCSS(css)]. *)
Definition injectCSS (css : string) (s : Styles) : Styles :=
  let scopedCSS := scopeCSS (classPrefixOf (classPrefixOption s)) css in
  {| injectCSSOption := injectCSSOption s; classPrefixOption := classPrefixOption s;
     injected := injected s;
     head := head s ++ [{| innerHTML := scopedCSS; flowAttribute := true |}] |}.

(** [StyleManager.init()]. *)
Definition initStyles (s : Styles) : Styles :=
  match injectCSSOption s with
  | Some (String c r) =>
      if negb (injected s) then
        let s := injectCSS (String c r) s in
        {| injectCSSOption := injectCSSOption s;
           classPrefixOption := classPrefixOption s;
           injected := true; head := head s |}
      else s
  | Some EmptyString | None => s
  end.

(** [ModalUI.injectDefaultStyles()], [defaultCSS] being [getDefaultCSS]:
    nothing is added when the document already holds an element with the
    attribute. *)
Definition injectDefaultStyles (defaultCSS : string -> string) (s : Styles) : Styles :=
  if existsb flowAttribute (head s) then s
  else
    let prefix := classPrefixOf (classPrefixOption s) in
    {| injectCSSOption := injectCSSOption s; classPrefixOption := classPrefixOption s;
       injected := injected s;
       head := head s ++ [{| innerHTML := defaultCSS prefix; flowAttribute := true |}] |}.

(** *** Further scenarios *)

Module Further.

Import Sample.

Definition stepA : VersionStep Journal := succeeding "1.1.0" (Some "ok").
Definition stepB : VersionStep Journal := failing "1.2.0" (ThrownValue (Some "boom")).
Definition stepC : VersionStep Journal := succeeding "2.0.0" None.

(** Saved at 1.0.0 under 2.0.0; 1.1.0 returns, 1.2.0 throws, 2.0.0
    returns; continuation enabled. *)
Definition mixed : System Journal :=
  idle (optionsOf "2.0.0" [stepC; stepA; stepB] true) (Some "1.0.0").

(** The same with continuation disabled. *)
Definition mixedHalting : System Journal :=
  idle (optionsOf "2.0.0" [stepC; stepA; stepB] false) (Some "1.0.0").

(** The outgoing project data of the host. *)
Definition pageData : ProjectData := [("pages", "[...]"); ("styles", "[]")].

End Further.

(* ================================================================== *)
(** * Properties *)
(* ================================================================== *)

(** ** Comparator *)

Lemma partAt_padZeros n parts k : partAt (padZeros n parts) k = partAt parts k.
Proof.
  unfold partAt, padZeros.
  destruct (Nat.lt_ge_cases k (length parts)) as [Hlt | Hge].
  - now rewrite app_nth1.
  - rewrite app_nth2 by exact Hge.
    rewrite (nth_overflow parts) by exact Hge.
    apply nth_repeat.
Qed.

Lemma length_padZeros n parts : (length parts <= n)%nat -> length (padZeros n parts) = n.
Proof. intros H. unfold padZeros. rewrite length_app, repeat_length. lia. Qed.

Lemma compareFrom_firstDifference n :
  forall l1 l2 p1 p2 i,
    length l1 = n -> length l2 = n ->
    (forall k, (k < n)%nat -> partAt p1 (i + k) = partAt l1 k) ->
    (forall k, (k < n)%nat -> partAt p2 (i + k) = partAt l2 k) ->
    compareFrom p1 p2 i n = firstDifference l1 l2.
Proof.
  induction n as [| n IH]; intros l1 l2 p1 p2 i H1 H2 E1 E2.
  - destruct l1, l2; simpl in *; congruence.
  - destruct l1 as [| x r1]; [discriminate |].
    destruct l2 as [| y r2]; [discriminate |].
    simpl in H1, H2. cbn [compareFrom firstDifference].
    pose proof (E1 0%nat ltac:(lia)) as Ex.
    pose proof (E2 0%nat ltac:(lia)) as Ey.
    rewrite Nat.add_0_r in Ex, Ey. cbn in Ex, Ey. rewrite Ex, Ey.
    destruct (Z.ltb_spec x y) as [Hlt | Hge].
    + destruct (Z.eqb_spec x y); [lia |].
      rewrite (proj2 (Z.sgn_neg_iff (x - y))); [reflexivity | lia].
    + destruct (Z.gtb_spec x y) as [Hgt | Hle].
      * destruct (Z.eqb_spec x y); [lia |].
        rewrite (proj2 (Z.sgn_pos_iff (x - y))); [reflexivity | lia].
      * destruct (Z.eqb_spec x y); [| lia].
        apply IH; try lia.
        -- intros k Hk. specialize (E1 (S k) ltac:(lia)).
           now rewrite Nat.add_succ_r in E1.
        -- intros k Hk. specialize (E2 (S k) ltac:(lia)).
           now rewrite Nat.add_succ_r in E2.
Qed.

(** *** The parts as [parseInt] reads them *)

Lemma stripOne_whiteSpace s :
  stripOne whiteSpaceAsAmended s
  = match s with
    | String c1 r1 =>
        if Js.is_space c1 then Some r1
        else
          match r1 with
          | String c2 r2 =>
              if Js.is_space2 c1 c2 then Some r2
              else
                match r2 with
                | String c3 r3 => if Js.is_space3 c1 c2 c3 then Some r3 else None
                | EmptyString => None
                end
          | EmptyString => None
          end
    | EmptyString => None
    end.
Proof.
  destruct s as [| c1 r1]; [reflexivity |].
  bits c1; try (destruct r1 as [| c2 [| c3 r3]]; vm_compute; reflexivity).
  all: destruct r1 as [| c2 r2]; [reflexivity |];
    bits c2; try (destruct r2 as [| c3 r3]; vm_compute; reflexivity).
  all: destruct r2 as [| c3 r3]; [reflexivity |]; bits c3; vm_compute; reflexivity.
Qed.

Lemma skipWhiteSpace_trim_start fuel :
  forall s, (String.length s <= fuel)%nat -> skipWhiteSpace fuel s = Js.trim_start s.
Proof.
  induction fuel as [| fuel IH]; intros s Hs.
  - destruct s; [reflexivity | cbn in Hs; lia].
  - cbn [skipWhiteSpace]. rewrite stripOne_whiteSpace.
    destruct s as [| c1 r1]; [reflexivity |]. cbn [Js.trim_start].
    cbn [String.length] in Hs.
    destruct (Js.is_space c1); [apply IH; lia |].
    destruct r1 as [| c2 r2]; [reflexivity |]. cbn [String.length] in Hs.
    destruct (Js.is_space2 c1 c2); [apply IH; lia |].
    destruct r2 as [| c3 r3]; [reflexivity |]. cbn [String.length] in Hs.
    destruct (Js.is_space3 c1 c2 c3); [apply IH; lia | reflexivity].
Qed.

Lemma digit_of_isDecimalDigit c :
  Js.digit_of c = if isDecimalDigit c then Some (digitValue c) else None.
Proof.
  unfold Js.digit_of, isDecimalDigit, digitValue.
  destruct (Nat.leb_spec 48 (nat_of_ascii c)) as [H |]; [| reflexivity].
  cbn [andb]. destruct (Nat.leb (nat_of_ascii c) 57); [| reflexivity].
  f_equal. lia.
Qed.

Lemma read_digits_leadingDigits s :
  forall seen acc,
    Js.read_digits s seen acc
    = match leadingDigits s with
      | EmptyString => if seen then Some acc else None
      | digits =>
          Some (fold_left (fun value c => 10 * value + digitValue c)
                  (list_ascii_of_string digits) acc)
      end.
Proof.
  induction s as [| c r IH]; intros seen acc; [reflexivity |].
  cbn [Js.read_digits leadingDigits]. rewrite digit_of_isDecimalDigit.
  destruct (isDecimalDigit c); [| reflexivity].
  rewrite IH. cbn [list_ascii_of_string fold_left].
  destruct (leadingDigits r); reflexivity.
Qed.

Lemma toNumber_nearestDouble n : Js.toNumber n = nearestDouble n.
Proof.
  unfold Js.toNumber, nearestDouble, Js.infinity.
  destruct (Z.ltb_spec n (2 ^ 53)) as [Hsmall | Hbig].
  - assert (Z.log2 n <= 52) as Hlog.
    { destruct (Z.le_gt_cases n 0) as [Hle | Hpos].
      - rewrite Z.log2_nonpos by exact Hle. lia.
      - enough (Z.log2 n < 53) by lia. apply Z.log2_lt_pow2; lia. }
    destruct (Z.leb_spec (Z.log2 n - 52) 0); [reflexivity | lia].
  - assert (53 <= Z.log2 n) as Hlog by (apply Z.log2_le_pow2; lia).
    destruct (Z.leb_spec (Z.log2 n - 52) 0) as [| He]; [lia |].
    set (e := Z.log2 n - 52) in *.
    rewrite Z.shiftr_div_pow2, !Z.shiftl_mul_pow2 by lia.
    assert (He2 : 2 ^ e = 2 * 2 ^ (e - 1)).
    { rewrite <- Z.pow_succ_r by lia. f_equal. lia. }
    assert (Hhalf : 0 < 2 ^ (e - 1)) by (apply Z.pow_pos_nonneg; lia).
    set (half := 2 ^ (e - 1)) in *. set (ulp := 2 ^ e) in *.
    rewrite Z.mul_1_l.
    pose proof (Z.div_mod n ulp ltac:(lia)) as Hdm.
    pose proof (Z.mod_pos_bound n ulp ltac:(lia)) as Hmod.
    set (q := n / ulp) in *.
    rewrite (Z.div_mul q ulp) by lia.
    rewrite <- Z.negb_odd.
    assert (Hr : n - q * ulp = n mod ulp) by lia.
    rewrite Hr. set (r := n mod ulp) in *.
    replace (q * ulp + ulp - n) with (ulp - r) by lia.
    assert (Hq' : (q + 1) * ulp = q * ulp + ulp) by lia.
    destruct (Z.ltb_spec half r) as [Hup | Hnotup]; cbn [orb].
    + destruct (Z.ltb_spec r (ulp - r)); [lia |].
      destruct (Z.ltb_spec (ulp - r) r); [| lia].
      rewrite Hq'. unfold Z.min.
      destruct (Z.leb_spec (2 ^ 1024) (q * ulp + ulp));
        destruct (Z.compare_spec (q * ulp + ulp) (2 ^ 1024)); lia.
    + destruct (Z.eqb_spec r half) as [Htie | Hdown]; cbn [andb].
      * destruct (Z.ltb_spec r (ulp - r)); [lia |].
        destruct (Z.ltb_spec (ulp - r) r); [lia |].
        destruct (Z.odd q); cbn [negb]; rewrite ?Hq'; unfold Z.min.
        -- destruct (Z.leb_spec (2 ^ 1024) (q * ulp + ulp));
             destruct (Z.compare_spec (q * ulp + ulp) (2 ^ 1024)); lia.
        -- destruct (Z.leb_spec (2 ^ 1024) (q * ulp));
             destruct (Z.compare_spec (q * ulp) (2 ^ 1024)); lia.
      * destruct (Z.ltb_spec r (ulp - r)); [| lia].
        unfold Z.min.
        destruct (Z.leb_spec (2 ^ 1024) (q * ulp));
          destruct (Z.compare_spec (q * ulp) (2 ^ 1024)); lia.
Qed.

Lemma stripPrefix_char c p r :
  stripPrefix (String c EmptyString) (String p r)
  = if Ascii.eqb p c then Some r else None.
Proof. cbn. rewrite (Ascii.eqb_sym c p). now destruct (Ascii.eqb p c). Qed.

(** [parseInt(part, 10)], NaN read as 0, is the integer part of the amended
    wording. *)
Lemma parsePart_as_amended part : parsePart part = integerPartAsAmended part.
Proof.
  unfold parsePart, Js.parseInt10, integerPartAsAmended.
  rewrite skipWhiteSpace_trim_start by lia.
  destruct (Js.trim_start part) as [| c r]; [reflexivity |].
  change "-"%string with (String "-"%char EmptyString).
  change "+"%string with (String "+"%char EmptyString).
  rewrite !stripPrefix_char.
  destruct (Ascii.eqb c "-"%char) eqn:Eminus.
  - rewrite read_digits_leadingDigits. unfold decimalValue.
    destruct (leadingDigits r); cbn [option_map];
      [reflexivity | now rewrite toNumber_nearestDouble].
  - destruct (Ascii.eqb c "+"%char) eqn:Eplus;
      rewrite read_digits_leadingDigits; unfold decimalValue.
    + destruct (leadingDigits r); cbn [option_map];
        [reflexivity | now rewrite toNumber_nearestDouble].
    + destruct (leadingDigits (String c r)); cbn [option_map];
        [reflexivity | now rewrite toNumber_nearestDouble].
Qed.

Lemma trim_start_digit c r :
  isDecimalDigit c = true -> Js.trim_start (String c r) = String c r.
Proof.
  bits c; try discriminate; intros _; destruct r as [| c2 [| c3 r3]]; reflexivity.
Qed.

Lemma digit_not_sign c :
  isDecimalDigit c = true -> Ascii.eqb c "-"%char = false /\ Ascii.eqb c "+"%char = false.
Proof. bits c; try discriminate; intros _; split; reflexivity. Qed.

Lemma leadingDigits_digitsOnly s : digitsOnly s = true -> leadingDigits s = s.
Proof.
  induction s as [| c r IH]; [reflexivity |]. cbn. intros H.
  apply andb_true_iff in H. destruct H as [Hc Hr]. now rewrite Hc, IH.
Qed.

(** On a run of digits that writes a number below 2^53 the two wordings
    agree with each other, and so with [parseInt]. *)
Lemma parsePart_as_worded part :
  plainPart part = true -> parsePart part = integerPartAsWorded part.
Proof.
  unfold plainPart, integerPartAsWorded. intros H.
  apply andb_true_iff in H. destruct H as [Hd Hv]. rewrite Hd.
  destruct part as [| c r]; [reflexivity |].
  pose proof Hd as Hd'. cbn [digitsOnly] in Hd'. apply andb_true_iff in Hd'.
  destruct Hd' as [Hc _]. destruct (digit_not_sign c Hc) as [Hminus Hplus].
  unfold parsePart, Js.parseInt10. rewrite (trim_start_digit c r Hc), Hminus, Hplus.
  rewrite read_digits_leadingDigits, (leadingDigits_digitsOnly _ Hd).
  cbn [option_map]. fold (decimalValue (String c r)).
  rewrite toNumber_nearestDouble. unfold nearestDouble. now rewrite Hv.
Qed.

Lemma defaultCompareVersions_compareByParts integerPart a b :
  (forall part, In part (Js.split_dot a ++ Js.split_dot b) ->
                parsePart part = integerPart part) ->
  defaultCompareVersions a b = compareByParts integerPart a b.
Proof.
  intros Hparts. unfold defaultCompareVersions, compareByParts, parseVersion.
  destruct (String.eqb a b); [reflexivity |].
  rewrite <- (map_ext_in parsePart integerPart (Js.split_dot a))
    by (intros p Hp; apply Hparts, in_or_app; now left).
  rewrite <- (map_ext_in parsePart integerPart (Js.split_dot b))
    by (intros p Hp; apply Hparts, in_or_app; now right).
  apply compareFrom_firstDifference.
  - apply length_padZeros. lia.
  - apply length_padZeros. lia.
  - intros k _. now rewrite partAt_padZeros.
  - intros k _. now rewrite partAt_padZeros.
Qed.

(** C2 (as amended).  The default comparator is 0 on identical strings and
    otherwise the sign of the first differing position of the zero-padded
    integer parts, a part being the integer written at its start -- after
    white space, with an optional sign, the text after the digits ignored
    -- as a double-precision number, and 0 when the part does not start
    with an integer.  On identifiers whose parts are runs of digits below
    2^53 this is the comparator as the design document words it; "1.2"
    equals "1.2.0" and "1.10.0" is above "1.9.0". *)
Theorem defaultCompareVersions_as_amended :
  (forall a : string, defaultCompareVersions a a = 0)
  /\ (forall a b : string, defaultCompareVersions a b = compareAsAmended a b)
  /\ (forall a b : string,
        plainVersion a = true -> plainVersion b = true ->
        defaultCompareVersions a b = compareAsSpecified a b)
  /\ parseVersion "1.2.beta" = [1; 2; 0]
  /\ defaultCompareVersions "1.2" "1.2.0" = 0
  /\ defaultCompareVersions "1.10.0" "1.9.0" = 1.
Proof.
  split; [| split; [| split; [| repeat split; reflexivity]]].
  - intros a. unfold defaultCompareVersions. now rewrite String.eqb_refl.
  - intros a b. apply defaultCompareVersions_compareByParts.
    intros part _. apply parsePart_as_amended.
  - intros a b Ha Hb. apply defaultCompareVersions_compareByParts.
    intros part Hp. apply parsePart_as_worded.
    unfold plainVersion in Ha, Hb. rewrite forallb_forall in Ha, Hb.
    apply in_app_or in Hp. destruct Hp; auto.
Qed.

(** C2, the wording refuted.  A part that starts with digits counts as the
    number they write, whatever follows: "1.2.3-beta" compares equal to
    "1.2.3", where the worded rule takes the part "3-beta" for 0.  And a
    part is a double: 9007199254740993 is read as 9007199254740992, so the
    two compare equal although the integers differ; white space before the
    digits is skipped. *)
Lemma defaultCompareVersions_wording_refuted :
  defaultCompareVersions "1.2.3-beta" "1.2.3" = 0
  /\ compareAsSpecified "1.2.3-beta" "1.2.3" = -1
  /\ defaultCompareVersions "9007199254740993" "9007199254740992" = 0
  /\ compareAsSpecified "9007199254740993" "9007199254740992" = 1
  /\ defaultCompareVersions "1. 5" "1.4" = 1
  /\ compareAsSpecified "1. 5" "1.4" = -1.
Proof. repeat split; vm_compute; reflexivity. Qed.

(** *** The default comparator is consistent *)

Lemma compareFrom_cases n :
  forall p1 p2 i,
    (forall j, (i + n <= j)%nat -> partAt p1 j = partAt p2 j) ->
    (compareFrom p1 p2 i n = -1
     /\ exists k, (forall j, (i <= j < k)%nat -> partAt p1 j = partAt p2 j)
                  /\ (i <= k)%nat /\ partAt p1 k < partAt p2 k)
    \/ (compareFrom p1 p2 i n = 0
        /\ forall j, (i <= j)%nat -> partAt p1 j = partAt p2 j)
    \/ (compareFrom p1 p2 i n = 1
        /\ exists k, (forall j, (i <= j < k)%nat -> partAt p1 j = partAt p2 j)
                     /\ (i <= k)%nat /\ partAt p2 k < partAt p1 k).
Proof.
  induction n as [| n IH]; intros p1 p2 i Htail; cbn [compareFrom].
  - right; left. split; [reflexivity |]. intros j Hj. apply Htail. lia.
  - destruct (Z.ltb_spec (partAt p1 i) (partAt p2 i)) as [Hlt | Hge].
    + left. split; [reflexivity |]. exists i. repeat split; [intros; lia | lia | exact Hlt].
    + destruct (Z.gtb_spec (partAt p1 i) (partAt p2 i)) as [Hgt | Hle].
      * right; right. split; [reflexivity |]. exists i.
        repeat split; [intros; lia | lia | lia].
      * assert (Heq : partAt p1 i = partAt p2 i) by lia.
        assert (Hext : forall j k, (i <= j < k)%nat ->
                  (forall j', (S i <= j' < k)%nat -> partAt p1 j' = partAt p2 j') ->
                  partAt p1 j = partAt p2 j).
        { intros j k Hj Hin. destruct (Nat.eq_dec j i) as [-> | Hne];
            [exact Heq | apply Hin; lia]. }
        destruct (IH p1 p2 (S i) ltac:(intros j Hj; apply Htail; lia))
          as [[E [k (Hpre & Hk & Hlt)]] | [[E Hall] | [E [k (Hpre & Hk & Hlt)]]]].
        -- left. split; [exact E |]. exists k. repeat split; [| lia | exact Hlt].
           intros j Hj. now apply (Hext j k).
        -- right; left. split; [exact E |]. intros j Hj.
           destruct (Nat.eq_dec j i) as [-> | Hne]; [exact Heq | apply Hall; lia].
        -- right; right. split; [exact E |]. exists k. repeat split; [| lia | exact Hlt].
           intros j Hj. now apply (Hext j k).
Qed.

Lemma defaultCompareVersions_cases a b :
  (defaultCompareVersions a b = -1 /\ lexBefore (partsOf a) (partsOf b))
  \/ (defaultCompareVersions a b = 0 /\ forall j, partsOf a j = partsOf b j)
  \/ (defaultCompareVersions a b = 1 /\ lexBefore (partsOf b) (partsOf a)).
Proof.
  unfold defaultCompareVersions.
  destruct (String.eqb_spec a b) as [-> | Hne].
  - right; left. split; [reflexivity | reflexivity].
  - destruct (compareFrom_cases
                (Nat.max (length (parseVersion a)) (length (parseVersion b)))
                (parseVersion a) (parseVersion b) 0)
      as [[E [k (Hpre & _ & Hlt)]] | [[E Hall] | [E [k (Hpre & _ & Hlt)]]]].
    + intros j Hj. unfold partAt. rewrite !nth_overflow by lia. reflexivity.
    + left. split; [exact E |]. exists k. split; [| exact Hlt].
      intros j Hj. apply Hpre. lia.
    + right; left. split; [exact E |]. intros j. apply Hall. lia.
    + right; right. split; [exact E |]. exists k. split; [| exact Hlt].
      intros j Hj. symmetry. apply Hpre. lia.
Qed.

Lemma lexBefore_not_equal f g : lexBefore f g -> (forall j, f j = g j) -> False.
Proof. intros [k [_ Hlt]] Heq. specialize (Heq k). lia. Qed.

Lemma lexBefore_asym f g : lexBefore f g -> lexBefore g f -> False.
Proof.
  intros [k [Hk Hlt]] [k' [Hk' Hlt']].
  destruct (Nat.lt_trichotomy k k') as [H | [H | H]].
  - specialize (Hk' k H). lia.
  - subst. lia.
  - specialize (Hk k' H). lia.
Qed.

Lemma lexBefore_trans f g h : lexBefore f g -> lexBefore g h -> lexBefore f h.
Proof.
  intros [k [Hk Hlt]] [k' [Hk' Hlt']].
  destruct (Nat.lt_trichotomy k k') as [H | [H | H]].
  - exists k. split.
    + intros j Hj. rewrite (Hk j Hj). apply Hk'. lia.
    + rewrite <- (Hk' k H). exact Hlt.
  - subst k'. exists k. split.
    + intros j Hj. rewrite (Hk j Hj). now apply Hk'.
    + lia.
  - exists k'. split.
    + intros j Hj. rewrite (Hk j) by lia. now apply Hk'.
    + rewrite (Hk k' H). exact Hlt'.
Qed.

Lemma lexBefore_eq_l f g h : (forall j, f j = g j) -> lexBefore g h -> lexBefore f h.
Proof.
  intros Heq [k [Hk Hlt]]. exists k. split.
  - intros j Hj. rewrite Heq. now apply Hk.
  - now rewrite Heq.
Qed.

Lemma lexBefore_eq_r f g h : lexBefore f g -> (forall j, g j = h j) -> lexBefore f h.
Proof.
  intros [k [Hk Hlt]] Heq. exists k. split.
  - intros j Hj. rewrite <- Heq. now apply Hk.
  - now rewrite <- Heq.
Qed.

(** Antisymmetry of the default algorithm. *)
Lemma defaultCompareVersions_antisym a b :
  defaultCompareVersions a b = - defaultCompareVersions b a.
Proof.
  destruct (defaultCompareVersions_cases a b) as [[E H] | [[E H] | [E H]]];
    destruct (defaultCompareVersions_cases b a) as [[E' H'] | [[E' H'] | [E' H']]];
    rewrite E, E'; try reflexivity; exfalso;
    first [ exact (lexBefore_asym _ _ H H')
          | exact (lexBefore_asym _ _ H' H)
          | exact (lexBefore_not_equal _ _ H H')
          | exact (lexBefore_not_equal _ _ H' H)
          | exact (lexBefore_not_equal _ _ H (fun j => eq_sym (H' j)))
          | exact (lexBefore_not_equal _ _ H' (fun j => eq_sym (H j))) ].
Qed.

Lemma defaultCompareVersions_trans a b c :
  defaultCompareVersions a b <= 0 -> defaultCompareVersions b c <= 0 ->
  defaultCompareVersions a c <= 0.
Proof.
  intros Hab Hbc.
  destruct (defaultCompareVersions_cases a b) as [[E H] | [[E H] | [E H]]]; [| | lia];
    (destruct (defaultCompareVersions_cases b c) as [[E' H'] | [[E' H'] | [E' H']]]; [| | lia]);
    (destruct (defaultCompareVersions_cases a c) as [[E2 H2] | [[E2 H2] | [E2 H2]]]; [lia | lia |]);
    exfalso.
  - exact (lexBefore_asym _ _ (lexBefore_trans _ _ _ H H') H2).
  - exact (lexBefore_asym _ _ (lexBefore_eq_r _ _ _ H H') H2).
  - exact (lexBefore_asym _ _ (lexBefore_eq_l _ _ _ H H') H2).
  - apply (lexBefore_not_equal _ _ H2). intros j. now rewrite <- H', <- H.
Qed.

Lemma consistentOn_iff compare vs :
  consistentOn compare vs = true <->
  (forall a b, In a vs -> In b vs -> Z.sgn (compare a b) = - Z.sgn (compare b a))
  /\ (forall a b c, In a vs -> In b vs -> In c vs ->
        compare a b <= 0 -> compare b c <= 0 -> compare a c <= 0).
Proof.
  unfold consistentOn. split.
  - intros H. rewrite forallb_forall in H. split.
    + intros a b Ha Hb. specialize (H a Ha). rewrite forallb_forall in H.
      specialize (H b Hb). apply andb_true_iff in H. now apply Z.eqb_eq.
    + intros a b c Ha Hb Hc Hab Hbc. specialize (H a Ha).
      rewrite forallb_forall in H. specialize (H b Hb).
      apply andb_true_iff in H. destruct H as [_ H].
      rewrite forallb_forall in H. specialize (H c Hc).
      rewrite (proj2 (Z.leb_le _ _) Hab), (proj2 (Z.leb_le _ _) Hbc) in H.
      now apply Z.leb_le.
  - intros [Hs Ht]. apply forallb_forall. intros a Ha.
    apply forallb_forall. intros b Hb. apply andb_true_iff. split.
    + apply Z.eqb_eq. now apply Hs.
    + apply forallb_forall. intros c Hc.
      destruct (Z.leb_spec (compare a b) 0); [| reflexivity].
      destruct (Z.leb_spec (compare b c) 0); [| reflexivity].
      cbn. apply Z.leb_le. now apply (Ht a b c).
Qed.

Lemma defaultCompareVersions_consistent vs :
  consistentOn defaultCompareVersions vs = true.
Proof.
  apply consistentOn_iff. split.
  - intros a b _ _. rewrite (defaultCompareVersions_antisym a b).
    now rewrite Z.sgn_opp.
  - intros a b c _ _ _. apply defaultCompareVersions_trans.
Qed.

(** ** The stable sort *)

Section SortFacts.

Context {A : Type} (compare : A -> A -> Z) (D : A -> Prop).

Hypothesis compare_sgn :
  forall x y, D x -> D y -> Z.sgn (compare x y) = - Z.sgn (compare y x).
Hypothesis compare_trans :
  forall x y z, D x -> D y -> D z ->
    compare x y <= 0 -> compare y z <= 0 -> compare x z <= 0.

Let notAfter (x y : A) : Prop := compare x y <= 0.

Lemma insertSorted_perm x l : Permutation (insertSorted compare x l) (x :: l).
Proof.
  induction l as [| y r IH]; cbn [insertSorted]; [reflexivity |].
  destruct (compare x y <=? 0); [reflexivity |].
  rewrite IH. apply perm_swap.
Qed.

Lemma jsSort_perm l : Permutation (jsSort compare l) l.
Proof.
  induction l as [| x r IH]; cbn [jsSort]; [reflexivity |].
  rewrite insertSorted_perm. now constructor.
Qed.

Lemma compare_flip x y : D x -> D y -> 0 < compare x y -> compare y x <= 0.
Proof.
  intros Hx Hy Hpos. pose proof (compare_sgn x y Hx Hy) as Hs.
  rewrite (proj2 (Z.sgn_pos_iff _) Hpos) in Hs.
  destruct (Z.sgn_spec (compare y x)) as [[? ?] | [[? ?] | [? ?]]]; lia.
Qed.

Lemma compare_zero_sym x y : D x -> D y -> compare x y = 0 -> compare y x = 0.
Proof.
  intros Hx Hy Hz. pose proof (compare_sgn y x Hy Hx) as Hs.
  rewrite Hz in Hs. cbn in Hs. now apply Z.sgn_null_iff.
Qed.

Lemma insertSorted_sorted x l :
  D x -> Forall D l -> StronglySorted notAfter l ->
  StronglySorted notAfter (insertSorted compare x l).
Proof.
  intros Hx. induction l as [| y r IH]; intros HD Hs; cbn [insertSorted].
  - repeat constructor.
  - inversion HD as [| ? ? Hy HDr]; subst.
    apply StronglySorted_inv in Hs. destruct Hs as [Hr Hyr].
    destruct (Z.leb_spec (compare x y) 0) as [Hle | Hgt].
    + constructor; [now constructor |].
      constructor; [exact Hle |].
      rewrite Forall_forall in *. intros z Hz.
      apply (compare_trans x y z); auto. now apply Hyr.
    + constructor; [now apply IH |].
      apply (Permutation_Forall (Permutation_sym (insertSorted_perm x r))).
      constructor; [| exact Hyr]. now apply compare_flip.
Qed.

Lemma jsSort_sorted l : Forall D l -> StronglySorted notAfter (jsSort compare l).
Proof.
  induction l as [| x r IH]; intros HD; cbn [jsSort]; [constructor |].
  inversion HD; subst. apply insertSorted_sorted; auto.
  apply (Permutation_Forall (Permutation_sym (jsSort_perm r))). assumption.
Qed.

Lemma insertSorted_ties v x l :
  D v -> D x -> Forall D l ->
  filter (fun s => compare v s =? 0) (insertSorted compare x l)
  = filter (fun s => compare v s =? 0) (x :: l).
Proof.
  intros Hv Hx. induction l as [| y r IH]; intros HD; cbn [insertSorted];
    [reflexivity |].
  inversion HD as [| ? ? Hy HDr]; subst.
  destruct (Z.leb_spec (compare x y) 0) as [Hle | Hgt]; [reflexivity |].
  cbn [filter]. rewrite (IH HDr). cbn [filter].
  destruct (Z.eqb_spec (compare v x) 0) as [Ex | Nx];
    destruct (Z.eqb_spec (compare v y) 0) as [Ey | Ny]; try reflexivity.
  exfalso.
  assert (compare x v <= 0) by (rewrite (compare_zero_sym v x); auto; lia).
  assert (compare x y <= 0) by (apply (compare_trans x v y); auto; lia).
  lia.
Qed.

Lemma jsSort_ties v l :
  D v -> Forall D l ->
  filter (fun s => compare v s =? 0) (jsSort compare l)
  = filter (fun s => compare v s =? 0) l.
Proof.
  intros Hv. induction l as [| x r IH]; intros HD; cbn [jsSort]; [reflexivity |].
  inversion HD; subst.
  rewrite insertSorted_ties; auto.
  - cbn [filter]. now rewrite IH.
  - apply (Permutation_Forall (Permutation_sym (jsSort_perm r))). assumption.
Qed.

End SortFacts.

(** ** Pending upgrades *)

Section PendingFacts.

Context {W : Type}.
Implicit Types (o : Options W) (step : VersionStep W).

Lemma getPendingUpgrades_unfold o saved current :
  getPendingUpgrades o saved current
  = jsSort (byVersion o) (filter (isPending o saved current) (opt_versions o)).
Proof.
  unfold getPendingUpgrades, isPending.
  destruct saved as [[| c r] |]; reflexivity.
Qed.

Lemma compareVersions_consistent o :
  opt_compareFn o = None
  \/ consistentOn (compareVersions o) (map (@builderVersion W) (opt_versions o)) = true ->
  consistentOn (compareVersions o) (map (@builderVersion W) (opt_versions o)) = true.
Proof.
  intros [Hnone | H]; [| exact H].
  assert (E : forall vs, consistentOn (compareVersions o) vs
                         = consistentOn defaultCompareVersions vs).
  { intros vs. unfold consistentOn, compareVersions. now rewrite Hnone. }
  rewrite E. apply defaultCompareVersions_consistent.
Qed.

(** C1 (as amended).  Whatever the comparator, the result holds exactly
    the pending steps -- a missing or empty saved version takes the
    bootstrap case -- each as often as the catalog does.  With the default
    comparator, or a custom one that is consistent on the catalog's
    versions, it is ascending under the comparator, and steps that compare
    equal keep their catalog order. *)
Theorem getPendingUpgrades_sorted_stable o saved current :
  let result := getPendingUpgrades o saved current in
  let pending := filter (isPending o saved current) (opt_versions o) in
  (forall step, In step result <->
                In step (opt_versions o) /\ isPending o saved current step = true)
  /\ Permutation result pending
  /\ (opt_compareFn o = None
      \/ consistentOn (compareVersions o) (map (@builderVersion W) (opt_versions o))
         = true ->
      ascending o result
      /\ (forall s0, In s0 (opt_versions o) ->
            tiedWith o s0 result = tiedWith o s0 pending)).
Proof.
  intros result pending.
  assert (Hperm : Permutation result pending).
  { unfold result. rewrite getPendingUpgrades_unfold. apply jsSort_perm. }
  split; [| split; [exact Hperm |]].
  { intros step. rewrite <- filter_In. fold pending. split; intros H.
    - now apply (Permutation_in _ Hperm).
    - now apply (Permutation_in _ (Permutation_sym Hperm)). }
  intros Hc. apply compareVersions_consistent in Hc.
  apply consistentOn_iff in Hc. destruct Hc as [Hsgn Htrans].
  set (D := fun step => In (builderVersion step) (map (@builderVersion W) (opt_versions o))).
  assert (HD : forall l, incl l (opt_versions o) -> Forall D l).
  { intros l Hl. apply Forall_forall. intros x Hx. apply in_map. now apply Hl. }
  assert (Hin : incl pending (opt_versions o)).
  { intros x Hx. apply filter_In in Hx. tauto. }
  split.
  - unfold ascending, result. rewrite getPendingUpgrades_unfold.
    apply (jsSort_sorted (byVersion o) D).
    + intros x y Hx Hy. now apply Hsgn.
    + intros x y z Hx Hy Hz. now apply Htrans.
    + now apply HD.
  - intros s0 Hs0. unfold tiedWith, result. rewrite getPendingUpgrades_unfold.
    apply (jsSort_ties (byVersion o) D).
    + intros x y Hx Hy. now apply Hsgn.
    + intros x y z Hx Hy Hz. now apply Htrans.
    + now apply in_map.
    + now apply HD.
Qed.

End PendingFacts.

(** The registry's own test catalog, out of order and with two steps that
    compare equal ("1.2" and "1.2.0"): between 1.1.0 and 2.0.0 the result
    is 1.2, 1.2.0, 2.0.0, the tie in catalog order. *)
Lemma getPendingUpgrades_sorted_stable_witness :
  let o := Sample.optionsOf "2.0.0" Sample.shuffled false in
  map (@builderVersion _) (getPendingUpgrades o (Some "1.1.0") "2.0.0")
  = ["1.2"; "1.2.0"; "2.0.0"]
  /\ ascending o (getPendingUpgrades o (Some "1.1.0") "2.0.0")
  /\ tiedWith o (Sample.succeeding "1.2.0" None)
       (getPendingUpgrades o (Some "1.1.0") "2.0.0")
     = [Sample.succeeding "1.2" (Some "first"); Sample.succeeding "1.2.0" (Some "second")].
Proof.
  intros o.
  destruct (getPendingUpgrades_sorted_stable o (Some "1.1.0") "2.0.0")
    as (_ & _ & Hsorted).
  destruct (Hsorted (or_introl eq_refl)) as (Hasc & _).
  split; [reflexivity | split; [exact Hasc | reflexivity]].
Defined.

(** C1, the wording refuted.  First, an empty saved version is present,
    yet the registry treats it as absent: step "0.0" does not compare above
    the saved "" (both parse to zeros), so the worded rule selects nothing,
    while the registry returns the step.  Second, a custom comparator need
    not order anything: under [Sample.beforeOnly "2.0.0"] both steps are
    pending and neither is before the other, so no arrangement of them is
    ascending.  Third, nor need it keep ties in place: under
    [Sample.onlyAfter "1.5" "1.0"] the three steps all compare equal to
    "2.0.0", and they come out with "1.0" before "1.5", not in catalog
    order. *)
Lemma getPendingUpgrades_wording_refuted :
  (let o := Sample.optionsOf "1.0" [Sample.succeeding "0.0" None] false in
   map (@builderVersion _) (getPendingUpgrades o (Some "") "1.0") = ["0.0"]
   /\ filter (isPendingAsWorded o (Some "") "1.0") (opt_versions o) = [])
  /\ (let o := {| opt_builderVersion := "2.0.0";
                  opt_versions := [Sample.succeeding "1.0" None;
                                   Sample.succeeding "1.5" None];
                  opt_compareFn := Some (Sample.beforeOnly "2.0.0");
                  opt_continueOnError := false |} in
      length (getPendingUpgrades o None "2.0.0") = 2%nat
      /\ forall a b, In a (opt_versions o) -> In b (opt_versions o) ->
                     ~ ascending o [a; b])
  /\ (let o := {| opt_builderVersion := "2.0.0";
                  opt_versions := [Sample.succeeding "1.5" None;
                                   Sample.succeeding "1.0" None;
                                   Sample.succeeding "2.0.0" None];
                  opt_compareFn := Some (Sample.onlyAfter "1.5" "1.0");
                  opt_continueOnError := false |} in
      map (@builderVersion _) (getPendingUpgrades o None "2.0.0")
      = ["1.0"; "1.5"; "2.0.0"]
      /\ map (@builderVersion _)
           (tiedWith o (Sample.succeeding "2.0.0" None)
              (getPendingUpgrades o None "2.0.0"))
         = ["1.0"; "1.5"; "2.0.0"]
      /\ map (@builderVersion _)
           (tiedWith o (Sample.succeeding "2.0.0" None)
              (filter (isPending o None "2.0.0") (opt_versions o)))
         = ["1.5"; "1.0"; "2.0.0"]).
Proof.
  split; [split; reflexivity |].
  split; [| repeat split].
  split; [reflexivity |].
  intros a b Ha Hb Hasc. inversion Hasc as [| ? ? _ Hall]; subst.
  inversion Hall as [| ? ? Hab _]; subst.
  cbn in Ha, Hb.
  destruct Ha as [<- | [<- | []]]; destruct Hb as [<- | [<- | []]];
    cbv in Hab; now apply Hab.
Qed.

(** ** needsUpgrade *)

Section NeedsUpgradeFacts.

Context {W : Type}.
Implicit Types (o : Options W) (step : VersionStep W).

Lemma isFunction_true {A} (f : option A) : isFunction f = true <-> f <> None.
Proof. destruct f; cbn; split; congruence. Qed.

Lemma hasWhatsNewSteps_iff o :
  hasWhatsNewSteps o = true <->
  exists step, In step (opt_versions o) /\ whatsNew step <> None.
Proof.
  unfold hasWhatsNewSteps. rewrite existsb_exists.
  split; intros [step [Hin H]]; exists step; split; auto;
    now apply isFunction_true.
Qed.

Lemma nonempty_iff {A} (l : list A) : (0 <? Z.of_nat (length l)) = true <-> l <> [].
Proof.
  destruct l; cbn.
  - split; [discriminate | congruence].
  - split; [discriminate | reflexivity].
Qed.

(** C7 (as amended).  With a missing or empty saved version, [needsUpgrade]
    holds exactly when the pending list for [(null, current)] is non-empty
    or some catalog step defines [whatsNew]; with any other saved version,
    exactly when it compares below the current version. *)
Theorem needsUpgrade_decides o saved current :
  needsUpgrade o saved current = true <->
  match saved with
  | Some (String c r) => compareVersions o (String c r) current < 0
  | Some EmptyString | None =>
      getPendingUpgrades o None current <> []
      \/ exists step, In step (opt_versions o) /\ whatsNew step <> None
  end.
Proof.
  destruct saved as [[| c r] |]; cbn [needsUpgrade].
  - change (getPendingUpgrades o (Some "") current)
      with (getPendingUpgrades o None current).
    rewrite orb_true_iff, nonempty_iff, hasWhatsNewSteps_iff. reflexivity.
  - apply Z.ltb_lt.
  - rewrite orb_true_iff, nonempty_iff, hasWhatsNewSteps_iff. reflexivity.
Qed.

End NeedsUpgradeFacts.

(** C7, the wording refuted: over an empty catalog an empty saved version
    compares below "1.0", so the worded rule answers true, while the
    registry takes the first-run case and answers false. *)
Lemma needsUpgrade_empty_saved_version :
  let o := Sample.optionsOf "1.0" [] false in
  needsUpgrade o (Some "") "1.0" = false
  /\ needsUpgradeAsWorded o (Some "") "1.0" = true.
Proof. split; reflexivity. Qed.

(** ** The upgrade run *)

Section RunFacts.

Context {W : Type}.
Implicit Types (st : System W) (fr : Frame W) (step : VersionStep W).

(** C3, the defect.  With continuation disabled and a pending list
    [A; B; C] whose first action rejects with [null] or [undefined], the
    read of [error.message] in the step's handler throws: A is not
    recorded as failed -- the failed-step list is empty where the design
    document has A's version -- and the call ends in the catastrophic
    handler, with [success] false and the TypeError's text as [error].
    [upgradedTo] is the saved version and A's is the only action invoked,
    as the design document has it.  When A fails with any other value the
    result is the one of the design document: the failed-step list is
    exactly A's version. *)
Theorem runUpgrades_stops_at_first_failure st A B C :
  isUpgrading st = false ->
  opt_continueOnError (options st) = false ->
  pendingOf st = [A; B; C] ->
  (forall which,
      outcome (upgrade A (world st)) = Threw (ThrownNullish which) ->
      failedStepsOf (fst (runUpgrades st)) = Some []
      /\ failedSteps (snd (runUpgrades st)) = []
      /\ success (fst (runUpgrades st)) = false
      /\ error (fst (runUpgrades st)) = Some (nullishReadMessage which)
      /\ upgradedTo (fst (runUpgrades st)) = savedVersion st
      /\ upgradeCalls (trace (snd (runUpgrades st)))
         = (upgradeCalls (trace st) ++ [A])%list
      /\ world (snd (runUpgrades st)) = world_after (upgrade A (world st)))
  /\ (forall msg,
        outcome (upgrade A (world st)) = Threw (ThrownValue msg) ->
        failedStepsOf (fst (runUpgrades st)) = Some [builderVersion A]
        /\ failedSteps (snd (runUpgrades st)) = [builderVersion A]
        /\ success (fst (runUpgrades st)) = true
        /\ error (fst (runUpgrades st)) = None
        /\ upgradedTo (fst (runUpgrades st)) = savedVersion st
        /\ upgradeCalls (trace (snd (runUpgrades st)))
           = (upgradeCalls (trace st) ++ [A])%list
        /\ world (snd (runUpgrades st)) = world_after (upgrade A (world st))).
Proof.
  intros Hidle Hstop Hpending.
  split; intros x Hfail; unfold runUpgrades; rewrite Hidle, Hpending;
    unfold tryBlock, announceStart; cbn [forEachStep];
    unfold runStep, beforeUpgrade, runSingleUpgrade, await;
    cbn; rewrite Hfail; cbn; rewrite ?Hstop; cbn;
    repeat split; unfold upgradeCalls; rewrite !flat_map_app; cbn;
    now rewrite !app_nil_r.
Qed.

(** *** Invariants of the step loop *)

Lemma runStep_isUpgrading step fr :
  isUpgrading (sys (snd (runStep step fr))) = isUpgrading (sys fr).
Proof.
  step_cases step fr; reflexivity.
Qed.

Lemma suspensions_isUpgrading pendingSteps :
  forall fr, isUpgrading (sys fr) = true ->
  Forall (fun st => isUpgrading st = true) (suspensions pendingSteps fr).
Proof.
  induction pendingSteps as [| step rest IH]; intros fr Hrun; cbn [suspensions];
    constructor.
  - exact Hrun.
  - pose proof (runStep_isUpgrading step fr) as Hstep.
    destruct (runStep step fr) as [[| | escaped] fr']; try constructor.
    apply IH. cbn in Hstep. congruence.
Qed.

(** Every state in which a run is in flight has the engine's running flag
    set. *)
Lemma inFlight_isUpgrading st :
  Forall (fun st' => isUpgrading st' = true) (inFlight st).
Proof.
  unfold inFlight. destruct (isUpgrading st); [constructor |].
  now apply suspensions_isUpgrading.
Qed.

(** C5.  While a run is in flight the engine's running flag is set (see
    [inFlight_isUpgrading]), and in every such state a call of
    [runUpgrades] returns the failure-to-start result and leaves the run
    state as it was: the logs, the failed-step list, the flag, the current
    step, the options, the saved version and the document are unaltered,
    and all the call does is write one console warning: no event is
    emitted and no action is invoked. *)
Theorem runUpgrades_rejected_while_running st :
  isUpgrading st = true ->
  fst (runUpgrades st) = alreadyInProgress st
  /\ success (fst (runUpgrades st)) = false
  /\ error (fst (runUpgrades st)) = Some "Upgrade already in progress"
  /\ allLogs (snd (runUpgrades st)) = allLogs st
  /\ failedSteps (snd (runUpgrades st)) = failedSteps st
  /\ isUpgrading (snd (runUpgrades st)) = true
  /\ currentStep (snd (runUpgrades st)) = currentStep st
  /\ options (snd (runUpgrades st)) = options st
  /\ savedVersion (snd (runUpgrades st)) = savedVersion st
  /\ world (snd (runUpgrades st)) = world st
  /\ since st (snd (runUpgrades st))
     = [Console_warn "[grapesjs-version-flow] Upgrade already in progress" None].
Proof.
  intros Hrun. unfold runUpgrades. rewrite Hrun. cbn.
  repeat split; try assumption.
  unfold since. cbn. rewrite skipn_app, skipn_all, Nat.sub_diag. reflexivity.
Qed.

(** C6.  A call that is not rejected leaves the running flag cleared, and
    the current step null whenever there was something to run (or it was
    null before); and when an error leaves the [try] block, the call
    resolves to the failure result that carries the logs, the failed
    steps and the last successful version accumulated up to that point,
    after appending the catastrophic error entry. *)
Theorem runUpgrades_finalizes st :
  isUpgrading st = false ->
  isUpgrading (snd (runUpgrades st)) = false
  /\ (pendingOf st <> [] \/ currentStep st = None ->
      currentStep (snd (runUpgrades st)) = None)
  /\ (forall escaped fr,
        pendingOf st <> [] ->
        tryBlock (pendingOf st) (enterRun st) = (inr escaped, fr) ->
        let errorLog :=
          {| level := "error";
             message := "Catastrophic upgrade error: "
                        ++ Js.or_else escaped "Unknown error" |} in
        fst (runUpgrades st)
        = {| success := false;
             logs := allLogs (sys fr) ++ [errorLog];
             upgradedTo := lastSuccessfulVersion fr;
             failedStepsOf := Some (failedSteps (sys fr));
             error := Some (Js.or_else escaped "Catastrophic upgrade error") |}
        /\ allLogs (snd (runUpgrades st)) = (allLogs (sys fr) ++ [errorLog])%list
        /\ isUpgrading (snd (runUpgrades st)) = false
        /\ currentStep (snd (runUpgrades st)) = None).
Proof.
  intros Hidle. unfold runUpgrades. rewrite Hidle.
  destruct (pendingOf st) as [| step rest] eqn:Hpending.
  - cbn. repeat split; try assumption; try congruence.
    intros [H | H]; [congruence | exact H].
  - destruct (tryBlock (step :: rest) (enterRun st)) as [[result | escaped] fr];
      cbn; repeat split; intros; try discriminate; try reflexivity.
    all: match goal with H : (_, _) = (_, _) |- _ => injection H as <- <- end;
      reflexivity.
Qed.

Lemma tryBlock_result pendingSteps fr result fr' :
  tryBlock pendingSteps fr = (inl result, fr') ->
  success result = true
  /\ logs result = allLogs (sys fr')
  /\ failedStepsOf result = Some (failedSteps (sys fr')).
Proof.
  unfold tryBlock.
  destruct (forEachStep pendingSteps (announceStart pendingSteps fr))
    as [[| | escaped] fr1]; intros H; try discriminate;
    injection H as <- <-; cbn; repeat split.
Qed.

(** *** What a run appends to the trace *)

Lemma since_app st st' added :
  trace st' = (trace st ++ added)%list -> since st st' = added.
Proof.
  intros H. unfold since. rewrite H, skipn_app, skipn_all, Nat.sub_diag.
  reflexivity.
Qed.

Lemma last_app {A} (l l' : list A) d : last (l ++ l') d = last l' (last l d).
Proof.
  revert l. induction l' as [| x r IH] using rev_ind; intros l.
  - now rewrite app_nil_r.
  - now rewrite app_assoc, !last_last.
Qed.

Lemma runStep_effects step fr :
  exists added,
    trace (sys (snd (runStep step fr))) = (trace (sys fr) ++ added)%list
    /\ upgradeCalls added = [step]
    /\ returnedVersions added
       = match outcome (upgrade step (world (sys fr))) with
         | Returned _ => [builderVersion step]
         | Threw _ => []
         end.
Proof.
  step_cases step fr; eexists; (split; [flatten_trace; reflexivity |]);
    split; reflexivity.
Qed.

Lemma runStep_version step fr :
  opt_builderVersion (options (sys (snd (runStep step fr))))
  = match outcome (upgrade step (world (sys fr))) with
    | Returned _ => builderVersion step
    | Threw _ => opt_builderVersion (options (sys fr))
    end
  /\ savedVersion (sys (snd (runStep step fr))) = savedVersion (sys fr)
  /\ world (sys (snd (runStep step fr))) = world_after (upgrade step (world (sys fr))).
Proof. step_cases step fr; repeat split. Qed.

Lemma forEachStep_version pendingSteps :
  forall fr, exists added,
    trace (sys (snd (forEachStep pendingSteps fr))) = (trace (sys fr) ++ added)%list
    /\ opt_builderVersion (options (sys (snd (forEachStep pendingSteps fr))))
       = last (returnedVersions added) (opt_builderVersion (options (sys fr))).
Proof.
  induction pendingSteps as [| step rest IH]; intros fr; cbn [forEachStep].
  - exists []. now rewrite app_nil_r.
  - destruct (runStep_effects step fr) as (a1 & Ht1 & _ & Hr1).
    destruct (runStep_version step fr) as (Hv1 & _ & _).
    assert (Hone : opt_builderVersion (options (sys (snd (runStep step fr))))
                   = last (returnedVersions a1) (opt_builderVersion (options (sys fr)))).
    { rewrite Hv1, Hr1.
      destruct (outcome (upgrade step (world (sys fr)))); reflexivity. }
    destruct (runStep step fr) as [[| | escaped] fr1]; cbn [snd] in *.
    + destruct (IH fr1) as (a2 & Ht2 & Hv2).
      exists (a1 ++ a2)%list. split.
      * now rewrite Ht2, Ht1, app_assoc.
      * unfold returnedVersions in *. now rewrite Hv2, flat_map_app, last_app, Hone.
    + exists a1. auto.
    + exists a1. auto.
Qed.

Lemma runUpgrades_effects st :
  exists added,
    trace (snd (runUpgrades st)) = (trace st ++ added)%list
    /\ opt_builderVersion (options (snd (runUpgrades st)))
       = last (returnedVersions added) (opt_builderVersion (options st)).
Proof.
  unfold runUpgrades. destruct (isUpgrading st).
  - eexists. cbn. split; reflexivity.
  - destruct (pendingOf st) as [| step rest].
    + exists []. cbn. now rewrite app_nil_r.
    + unfold tryBlock.
      destruct (forEachStep_version (step :: rest) (announceStart (step :: rest) (enterRun st)))
        as (added & Ht & Hv).
      destruct (forEachStep (step :: rest) (announceStart (step :: rest) (enterRun st)))
        as [[| | escaped] fr]; cbn in Ht, Hv |- *; rewrite Ht; flatten_trace;
        eexists; (split; [reflexivity |]); rewrite Hv;
        unfold returnedVersions; cbn [flat_map app];
        rewrite flat_map_app, last_app; cbn; now rewrite ?app_nil_r.
Qed.

(** C8.  In the body of the step loop the registry's current version
    becomes the step's target when the step's upgrade action returns and
    is left as it was when the action throws; the saved version is never
    written and the document is touched by the action alone.  Over a whole
    call of [runUpgrades], the current version ends as the target of the
    last step whose action returned, or unchanged when none did. *)
Theorem updateVersion_follows_success :
  (forall step fr,
      opt_builderVersion (options (sys (snd (runStep step fr))))
      = match outcome (upgrade step (world (sys fr))) with
        | Returned _ => builderVersion step
        | Threw _ => opt_builderVersion (options (sys fr))
        end
      /\ savedVersion (sys (snd (runStep step fr))) = savedVersion (sys fr)
      /\ world (sys (snd (runStep step fr))) = world_after (upgrade step (world (sys fr))))
  /\ (forall st,
        opt_builderVersion (options (snd (runUpgrades st)))
        = last (returnedVersions (since st (snd (runUpgrades st))))
               (opt_builderVersion (options st))).
Proof.
  split.
  - apply runStep_version.
  - intros st. destruct (runUpgrades_effects st) as (added & Ht & Hv).
    now rewrite (since_app _ _ _ Ht).
Qed.

(** *** Announcements *)

Lemma announce_effects step st :
  exists added,
    trace (announce step st) = (trace st ++ added)%list
    /\ whatsNewCalls added = (if isFunction (whatsNew step) then [step] else [])
    /\ warnings added = announcementWarnings added.
Proof.
  unfold announce. destruct (whatsNew step) as [action |]; cbn.
  - unfold await. cbn.
    destruct (outcome (action (world st))) as [value | err]; cbn;
      eexists; (split; [flatten_trace; reflexivity |]); split; reflexivity.
  - exists []. now rewrite app_nil_r.
Qed.

Lemma announce_all steps :
  forall st, exists added,
    trace (fold_left (fun st step => announce step st) steps st)
    = (trace st ++ added)%list
    /\ whatsNewCalls added = filter (fun step => isFunction (whatsNew step)) steps
    /\ warnings added = announcementWarnings added.
Proof.
  induction steps as [| step rest IH]; intros st; cbn [fold_left filter].
  - exists []. now rewrite app_nil_r.
  - destruct (announce_effects step st) as (a1 & Ht1 & Hc1 & Hw1).
    destruct (IH (announce step st)) as (a2 & Ht2 & Hc2 & Hw2).
    exists (a1 ++ a2)%list. split; [| split].
    + now rewrite Ht2, Ht1, app_assoc.
    + unfold whatsNewCalls in *. rewrite flat_map_app, Hc1, Hc2.
      destruct (isFunction (whatsNew step)); reflexivity.
    + unfold warnings, announcementWarnings in *.
      now rewrite !flat_map_app, Hw1, Hw2.
Qed.

Lemma filter_twice {A} (f : A -> bool) (l : list A) :
  filter f (filter f l) = filter f l.
Proof.
  induction l as [| x r IH]; cbn; [reflexivity |].
  destruct (f x) eqn:E; cbn; rewrite ?E, IH; reflexivity.
Qed.

Lemma announce_all_as_worded steps :
  forall st,
    trace (fold_left (fun st step => announce step st) steps st)
    = (trace st ++ fst (announcementsAsWorded steps (world st)))%list
    /\ world (fold_left (fun st step => announce step st) steps st)
       = snd (announcementsAsWorded steps (world st)).
Proof.
  induction steps as [| step rest IH]; intros st; cbn [fold_left announcementsAsWorded].
  - cbn. now rewrite app_nil_r.
  - unfold announce at 2 4. destruct (whatsNew step) as [action |]; [| apply IH].
    unfold await. cbn zeta.
    destruct (outcome (action (world st))) as [value | err] eqn:Eout;
      match goal with |- context [fold_left _ rest ?s] =>
        destruct (IH s) as [Ht Hw] end;
      cbn [world trace effect withAllLogs withWorld] in Ht, Hw;
      destruct (announcementsAsWorded rest (world_after (action (world st))))
        as [effects w'];
      cbn [fst snd] in *; rewrite Ht, Hw; split; try reflexivity;
      now rewrite <- !app_assoc.
Qed.

Lemma announcementsAsWorded_app (before after : list (VersionStep W)) :
  forall w,
    fst (announcementsAsWorded (before ++ after) w)
    = (fst (announcementsAsWorded before w)
       ++ fst (announcementsAsWorded after (snd (announcementsAsWorded before w))))%list.
Proof.
  induction before as [| step rest IH]; intros w; [reflexivity |].
  cbn [app announcementsAsWorded]. destruct (whatsNew step) as [action |]; [| apply IH].
  cbn zeta. specialize (IH (world_after (action w))).
  destruct (announcementsAsWorded (rest ++ after) (world_after (action w))) as [e1 w1].
  destruct (announcementsAsWorded rest (world_after (action w))) as [e2 w2].
  cbn [fst snd] in *. rewrite IH. cbn [app]. now rewrite <- app_assoc.
Qed.

(** C9.  [runWhatsNew] invokes the announcement of every pending
    announcement step, once each and in order, each on the document as the
    earlier ones left it; an announcement that throws is caught and
    answered by one [console.warn] that names the step and carries what
    was thrown, and every later announcement is still invoked. *)
Theorem runWhatsNew_runs_every_announcement st :
  let steps := getPendingWhatsNew (options st) (getSavedVersion st)
                 (opt_builderVersion (options st)) in
  let t := since st (runWhatsNew st) in
  t = fst (announcementsAsWorded steps (world st))
  /\ world (runWhatsNew st) = snd (announcementsAsWorded steps (world st))
  /\ whatsNewCalls t = steps
  /\ warnings t = announcementWarnings t
  /\ (forall before step after action,
        steps = (before ++ step :: after)%list ->
        whatsNew step = Some action ->
        let w := snd (announcementsAsWorded before (world st)) in
        In (Call_whatsNew step (outcome (action w))) t
        /\ (forall err, outcome (action w) = Threw err ->
            In (Console_warn (whatsNewWarning step) (Some err)) t)
        /\ incl after (whatsNewCalls t)).
Proof.
  intros steps t.
  destruct (announce_all_as_worded steps st) as [Ht Hw].
  destruct (announce_all steps st) as (added & Ht' & Hc & Hwarn).
  assert (Et : t = fst (announcementsAsWorded steps (world st))).
  { unfold t, runWhatsNew. fold steps. now apply since_app. }
  assert (Ea : t = added).
  { unfold t, runWhatsNew. fold steps. now apply since_app. }
  assert (Ec : whatsNewCalls t = steps).
  { rewrite Ea, Hc. unfold steps, getPendingWhatsNew. apply filter_twice. }
  split; [exact Et |]. split; [exact Hw |]. split; [exact Ec |].
  split; [now rewrite Ea |].
  intros before step after action Hsplit Haction w.
  assert (Hhere : exists tail,
             t = (fst (announcementsAsWorded before (world st))
                  ++ Call_whatsNew step (outcome (action w))
                     :: match outcome (action w) with
                        | Threw err => [Console_warn (whatsNewWarning step) (Some err)]
                        | Returned _ => []
                        end ++ tail)%list).
  { rewrite Et, Hsplit, announcementsAsWorded_app. fold w.
    cbn [announcementsAsWorded]. rewrite Haction. cbn zeta.
    destruct (announcementsAsWorded after (world_after (action w))) as [effects w'].
    now exists effects. }
  destruct Hhere as [tail Hhere]. split; [| split].
  - rewrite Hhere. apply in_or_app. right. now left.
  - intros err Herr. rewrite Hhere, Herr. apply in_or_app. right. right. now left.
  - rewrite Ec, Hsplit. intros x Hx. apply in_or_app. right. now right.
Qed.

End RunFacts.

(** The failure-isolation scenario of the design document, saved at 1.0.0,
    with A = 1.1.0 rejecting with [undefined] while B and C would return:
    the failed-step list is empty and the call reports a catastrophic
    failure. *)
Lemma runUpgrades_stops_at_first_failure_witness :
  let A := Sample.failing "1.1.0" (ThrownNullish JsUndefined) in
  let B := Sample.succeeding "1.2.0" None in
  let C := Sample.succeeding "2.0.0" None in
  let st := Sample.idle (Sample.optionsOf "2.0.0" [A; B; C] false) (Some "1.0.0") in
  pendingOf st = [A; B; C]
  /\ outcome (upgrade A (world st)) = Threw (ThrownNullish JsUndefined)
  /\ failedStepsOf (fst (runUpgrades st)) = Some []
  /\ failedSteps (snd (runUpgrades st)) = []
  /\ success (fst (runUpgrades st)) = false
  /\ error (fst (runUpgrades st))
     = Some "Cannot read properties of undefined (reading 'message')"
  /\ upgradedTo (fst (runUpgrades st)) = Some "1.0.0"
  /\ upgradeCalls (trace (snd (runUpgrades st))) = [A]
  /\ world (snd (runUpgrades st)) = ["upgrade 1.1.0"].
Proof.
  intros A B C st.
  exact (conj eq_refl
           (conj eq_refl
              (proj1 (runUpgrades_stops_at_first_failure st A B C
                        eq_refl eq_refl eq_refl)
                 JsUndefined eq_refl))).
Defined.

(** The same scenario with A throwing an error that has a message: the
    run is the one of the design document. *)
Example runUpgrades_failure_with_message :
  let A := Sample.failing "1.1.0" (ThrownValue (Some "boom")) in
  let B := Sample.succeeding "1.2.0" None in
  let C := Sample.succeeding "2.0.0" None in
  let st := Sample.idle (Sample.optionsOf "2.0.0" [A; B; C] false) (Some "1.0.0") in
  fst (runUpgrades st)
  = {| success := true;
       logs := [{| level := "warn"; message := "about to fail" |};
                {| level := "error"; message := "Failed to upgrade to 1.1.0: boom" |}];
       upgradedTo := Some "1.0.0";
       failedStepsOf := Some ["1.1.0"];
       error := None |}
  /\ upgradeCalls (trace (snd (runUpgrades st))) = [A]
  /\ world (snd (runUpgrades st)) = ["upgrade 1.1.0"].
Proof. repeat split. Qed.

(** A call made while the run over [Scenario.twoSteps] awaits its second
    step: rejected, and the first step's log entry stays where it is. *)
Lemma runUpgrades_rejected_while_running_witness :
  isUpgrading Scenario.awaitingSecond = true
  /\ allLogs Scenario.awaitingSecond
     = [{| level := "info"; message := "Upgraded to 1.1.0" |}]
  /\ fst (runUpgrades Scenario.awaitingSecond)
     = {| success := false; logs := []; upgradedTo := Some "1.1.0";
          failedStepsOf := None; error := Some "Upgrade already in progress" |}
  /\ allLogs (snd (runUpgrades Scenario.awaitingSecond))
     = allLogs Scenario.awaitingSecond
  /\ failedSteps (snd (runUpgrades Scenario.awaitingSecond)) = []
  /\ isUpgrading (snd (runUpgrades Scenario.awaitingSecond)) = true.
Proof.
  destruct (runUpgrades_rejected_while_running Scenario.awaitingSecond eq_refl)
    as (Hres & _ & _ & Hlogs & Hfailed & Hflag & _).
  exact (conj eq_refl (conj eq_refl (conj Hres (conj Hlogs (conj Hfailed Hflag))))).
Defined.

(** The run over [Scenario.brokenMiddle]: the second step's rejection with
    [undefined] leaves the loop; the call still clears the run state and
    resolves to the failure result with the two entries logged so far, the
    catastrophic entry, and 1.1.0 as the progress made. *)
Lemma runUpgrades_finalizes_witness :
  isUpgrading (snd (runUpgrades Scenario.brokenMiddle)) = false
  /\ currentStep (snd (runUpgrades Scenario.brokenMiddle)) = None
  /\ fst (runUpgrades Scenario.brokenMiddle)
     = {| success := false;
          logs := [{| level := "info"; message := "ok" |};
                   {| level := "warn"; message := "about to fail" |};
                   {| level := "error";
                      message := "Catastrophic upgrade error: "
                                 ++ nullishReadMessage JsUndefined |}];
          upgradedTo := Some "1.1.0";
          failedStepsOf := Some [];
          error := Some (nullishReadMessage JsUndefined) |}.
Proof.
  destruct (runUpgrades_finalizes Scenario.brokenMiddle eq_refl)
    as (Hflag & Hstep & Hcat).
  split; [exact Hflag | split].
  - apply Hstep. left. discriminate.
  - refine (proj1 (Hcat (Some (nullishReadMessage JsUndefined))
                     (snd (tryBlock (pendingOf Scenario.brokenMiddle)
                             (enterRun Scenario.brokenMiddle))) _ eq_refl)).
    discriminate.
Defined.

(** Runs with a failed step and [success] true, under either policy. *)
Example success_despite_failure_halting :
  let st := Sample.idle
              (Sample.optionsOf "2.0.0"
                 [Sample.failing "1.1.0" (ThrownValue None); Sample.succeeding "2.0.0" None]
                 false) (Some "1.0.0") in
  success (fst (runUpgrades st)) = true
  /\ failedStepsOf (fst (runUpgrades st)) = Some ["1.1.0"]
  /\ upgradedTo (fst (runUpgrades st)) = Some "1.0.0"
  /\ upgradeCalls (trace (snd (runUpgrades st)))
     = [Sample.failing "1.1.0" (ThrownValue None)].
Proof. repeat split. Qed.

Example success_despite_failure_continuing :
  let st := Sample.idle
              (Sample.optionsOf "2.0.0"
                 [Sample.failing "1.1.0" (ThrownValue None); Sample.succeeding "2.0.0" None]
                 true) (Some "1.0.0") in
  success (fst (runUpgrades st)) = true
  /\ failedStepsOf (fst (runUpgrades st)) = Some ["1.1.0"]
  /\ upgradedTo (fst (runUpgrades st)) = Some "2.0.0"
  /\ opt_builderVersion (options (snd (runUpgrades st))) = "2.0.0"
  /\ logs (fst (runUpgrades st))
     = [{| level := "warn"; message := "about to fail" |};
        {| level := "error";
           message := "Failed to upgrade to 1.1.0: Unknown error occurred" |};
        {| level := "info"; message := "Upgraded to 2.0.0" |}].
Proof. repeat split. Qed.

(** Whatever else the integrator passes, leaving [continueOnError] out
    gives options that continue after a failure. *)
Lemma mergeOptions_continueOnError_default {W} (opts : PluginOpts W) :
  given_continueOnError opts = None ->
  opt_continueOnError (mergeOptions opts) = true.
Proof. intros H. unfold mergeOptions. now rewrite H. Qed.

(** C4, the code at the input that shows the defect.  The factory called
    without [continueOnError] yields options whose continuation flag is
    set, and the run over [failing 1.1.0; succeeding 2.0.0] goes on past
    the failure: both actions are invoked and the run reaches 2.0.0. *)
Theorem plugin_continues_by_default :
  option_map (fun st => opt_continueOnError (options st)) Scenario.loadedWithDefaults
  = Some true
  /\ option_map (fun st => map (@builderVersion _)
                             (upgradeCalls (trace (snd (runUpgrades st)))))
       Scenario.loadedWithDefaults
     = Some ["1.1.0"; "2.0.0"]
  /\ option_map (fun st => fst (runUpgrades st)) Scenario.loadedWithDefaults
     = Some {| success := true;
               logs := [{| level := "warn"; message := "about to fail" |};
                        {| level := "error";
                           message := "Failed to upgrade to 1.1.0: boom" |};
                        {| level := "info"; message := "Upgraded to 2.0.0" |}];
               upgradedTo := Some "2.0.0";
               failedStepsOf := Some ["1.1.0"];
               error := None |}.
Proof. repeat split. Qed.

(** The first run of [Scenario.firstRun]: the announcements of 1.1.0, 1.5.0
    and 2.0.0 are invoked in ascending order although the first and the
    second throw, each of which is answered by one warning. *)
Example runWhatsNew_first_run :
  map (@builderVersion _)
      (whatsNewCalls (trace (runWhatsNew Scenario.firstRun)))
  = ["1.1.0"; "1.5.0"; "2.0.0"]
  /\ warnings (trace (runWhatsNew Scenario.firstRun))
     = [("[grapesjs-version-flow] Error in whatsNew for 1.1.0:",
         Some (ThrownValue (Some "no banner")));
        ("[grapesjs-version-flow] Error in whatsNew for 1.5.0:",
         Some (ThrownNullish JsUndefined))]
  /\ world (runWhatsNew Scenario.firstRun)
     = ["whatsNew 1.1.0"; "whatsNew 1.5.0"; "whatsNew 2.0.0"].
Proof. repeat split. Qed.

(** ** The registry's unit tests, run on the embedding *)

Example test_compareVersions :
  defaultCompareVersions "1.2.3" "1.2.3" = 0
  /\ defaultCompareVersions "1.2.3" "1.2.4" = -1
  /\ defaultCompareVersions "1.3.0" "1.2.9" = 1
  /\ defaultCompareVersions "1.2" "1.2.1" = -1
  /\ defaultCompareVersions "1.3" "1.2.9" = 1.
Proof. repeat split. Qed.

Example test_parseVersion :
  parseVersion "1.2.3" = [1; 2; 3]
  /\ parseVersion "5" = [5]
  /\ parseVersion "" = [0]
  /\ parseVersion "1..2" = [1; 0; 2]
  /\ parseVersion " 7.-3.4rc1" = [7; -3; 4].
Proof. repeat split. Qed.

Example test_getPendingUpgrades :
  let o := Sample.optionsOf "2.0.0"
             [Sample.succeeding "2.0.0" None; Sample.succeeding "1.1.0" None;
              Sample.succeeding "1.2.0" None; Sample.succeeding "2.1.0" None] false in
  map (@builderVersion _) (getPendingUpgrades o None "2.0.0") = ["1.1.0"; "1.2.0"; "2.0.0"]
  /\ map (@builderVersion _) (getPendingUpgrades o (Some "1.1.0") "2.0.0") = ["1.2.0"; "2.0.0"]
  /\ map (@builderVersion _) (getPendingUpgrades o (Some "1.0.0") "2.0.0")
     = ["1.1.0"; "1.2.0"; "2.0.0"]
  /\ getPendingUpgrades o (Some "2.0.0") "2.0.0" = [].
Proof. repeat split. Qed.

Example test_needsUpgrade :
  let o := Sample.optionsOf "2.0.0" Sample.shuffled false in
  needsUpgrade o (Some "2.0.0") "2.0.0" = false
  /\ needsUpgrade o (Some "1.5.0") "2.0.0" = true
  /\ needsUpgrade o (Some "2.1.0") "2.0.0" = false
  /\ needsUpgrade (Sample.optionsOf "2.0.0" [] false) None "2.0.0" = false
  /\ needsUpgrade (Sample.optionsOf "1.0.0"
                     [Sample.announcing "1.5.0" (Returned None)] false) None "1.0.0"
     = true.
Proof. repeat split. Qed.

Example test_getPendingWhatsNew :
  let o := Sample.optionsOf "2.0.0"
             [Sample.announcing "1.1.0" (Returned None); Sample.succeeding "1.2.0" None;
              Sample.announcing "2.0.0" (Returned None)] false in
  map (@builderVersion _) (getPendingWhatsNew o (Some "1.0.0") "2.0.0") = ["1.1.0"; "2.0.0"]
  /\ getPendingWhatsNew o (Some "1.1.0") "1.2.0" = [].
Proof. repeat split. Qed.

(** A run in which every step returns, and the call that follows it once
    the host has stored and reloaded the document at the new version: the
    second call finds nothing pending. *)
Example test_full_run_then_nothing_pending :
  let st := snd (runUpgrades Scenario.twoSteps) in
  fst (runUpgrades Scenario.twoSteps)
  = {| success := true;
       logs := [{| level := "info"; message := "Upgraded to 1.1.0" |};
                {| level := "info"; message := "Upgraded to 2.0.0" |}];
       upgradedTo := Some "2.0.0"; failedStepsOf := Some []; error := None |}
  /\ isUpgrading st = false
  /\ currentStep st = None
  /\ world st = ["upgrade 1.1.0"; "upgrade 2.0.0"]
  /\ fst (runUpgrades (onStorageLoad (Some "2.0.0") st))
     = {| success := true; logs := []; upgradedTo := Some "2.0.0";
          failedStepsOf := None; error := None |}.
Proof. repeat split. Qed.

(* ================================================================== *)
(** * Further properties of the sources *)
(* ================================================================== *)

(** ** The default comparator as an order *)

Lemma defaultCompareVersions_range a b :
  defaultCompareVersions a b = -1 \/ defaultCompareVersions a b = 0
  \/ defaultCompareVersions a b = 1.
Proof.
  destruct (defaultCompareVersions_cases a b) as [[E _] | [[E _] | [E _]]]; auto.
Qed.

Lemma defaultCompareVersions_lt_le a b c :
  defaultCompareVersions a b < 0 -> defaultCompareVersions b c <= 0 ->
  defaultCompareVersions a c < 0.
Proof.
  intros Hab Hbc.
  destruct (Z.lt_ge_cases (defaultCompareVersions a c) 0) as [H | H]; [exact H |].
  exfalso.
  assert (Hca : defaultCompareVersions c a <= 0)
    by (rewrite (defaultCompareVersions_antisym c a); lia).
  pose proof (defaultCompareVersions_trans b c a Hbc Hca) as Hba.
  rewrite (defaultCompareVersions_antisym b a) in Hba. lia.
Qed.

Lemma defaultCompareVersions_le_lt a b c :
  defaultCompareVersions a b <= 0 -> defaultCompareVersions b c < 0 ->
  defaultCompareVersions a c < 0.
Proof.
  intros Hab Hbc.
  destruct (Z.lt_ge_cases (defaultCompareVersions a c) 0) as [H | H]; [exact H |].
  exfalso.
  assert (Hca : defaultCompareVersions c a <= 0)
    by (rewrite (defaultCompareVersions_antisym c a); lia).
  pose proof (defaultCompareVersions_trans c a b Hca Hab) as Hcb.
  rewrite (defaultCompareVersions_antisym c b) in Hcb. lia.
Qed.

(** X1.  The default comparator answers -1, 0 or 1; it is reflexive,
    swapping the arguments negates the answer, and "not after" is
    transitive: it is a total preorder on all strings, well-formed or
    not. *)
Theorem defaultCompareVersions_total_preorder :
  forall a b c : string,
    (defaultCompareVersions a b = -1 \/ defaultCompareVersions a b = 0
     \/ defaultCompareVersions a b = 1)
    /\ defaultCompareVersions a a = 0
    /\ defaultCompareVersions a b = - defaultCompareVersions b a
    /\ (defaultCompareVersions a b <= 0 -> defaultCompareVersions b c <= 0 ->
        defaultCompareVersions a c <= 0)
    /\ (defaultCompareVersions a b < 0 -> defaultCompareVersions b c <= 0 ->
        defaultCompareVersions a c < 0).
Proof.
  intros a b c. split; [apply defaultCompareVersions_range |].
  split.
  - unfold defaultCompareVersions. now rewrite String.eqb_refl.
  - split; [apply defaultCompareVersions_antisym |]. split.
    + apply defaultCompareVersions_trans.
    + apply defaultCompareVersions_lt_le.
Qed.

(** *** Trailing zero parts *)

Lemma split_dot_nonempty s : Js.split_dot s <> [].
Proof.
  destruct s as [| c r]; cbn; [discriminate |].
  destruct (Ascii.eqb c "."%char); [discriminate |].
  destruct (Js.split_dot r); discriminate.
Qed.

Lemma split_dot_app a b :
  Js.split_dot (a ++ "." ++ b) = (Js.split_dot a ++ Js.split_dot b)%list.
Proof.
  induction a as [| c r IH]; [reflexivity |].
  cbn [String.append Js.split_dot]. cbn [String.append] in IH.
  destruct (Ascii.eqb c "."%char).
  - now rewrite IH.
  - rewrite IH. pose proof (split_dot_nonempty r) as Hne.
    destruct (Js.split_dot r) as [| p ps]; [congruence | reflexivity].
Qed.

Lemma partsOf_trailing_zero a j : partsOf (a ++ ".0") j = partsOf a j.
Proof.
  unfold partsOf, parseVersion.
  change (a ++ ".0")%string with (a ++ "." ++ "0")%string.
  rewrite split_dot_app, map_app. cbn [Js.split_dot map].
  change (parsePart "0") with 0. unfold partAt.
  destruct (Nat.lt_ge_cases j (length (map parsePart (Js.split_dot a)))) as [Hlt | Hge].
  - now rewrite app_nth1.
  - rewrite app_nth2 by exact Hge. rewrite (nth_overflow _ _ Hge).
    destruct (j - length (map parsePart (Js.split_dot a)))%nat as [| [| n]];
      reflexivity.
Qed.

(** The answer depends on the first argument only through its parts. *)
Lemma defaultCompareVersions_parts a a' b :
  (forall j, partsOf a j = partsOf a' j) ->
  defaultCompareVersions a b = defaultCompareVersions a' b.
Proof.
  intros Heq.
  assert (Hsym : forall j, partsOf a' j = partsOf a j) by (intros; symmetry; apply Heq).
  destruct (defaultCompareVersions_cases a b) as [[E H] | [[E H] | [E H]]];
    destruct (defaultCompareVersions_cases a' b) as [[E' H'] | [[E' H'] | [E' H']]];
    rewrite E, E'; try reflexivity; exfalso.
  - apply (lexBefore_not_equal _ _ H). intros j. now rewrite Heq.
  - exact (lexBefore_asym _ _ H (lexBefore_eq_r _ _ _ H' Hsym)).
  - apply (lexBefore_not_equal _ _ H'). intros j. now rewrite Hsym.
  - apply (lexBefore_not_equal _ _ H'). intros j. now rewrite <- Heq.
  - exact (lexBefore_asym _ _ (lexBefore_eq_r _ _ _ H Heq) H').
  - apply (lexBefore_not_equal _ _ H). intros j. now rewrite <- Hsym.
Qed.

(** X2.  A trailing [".0"] is invisible to the default comparator: on
    either side, against any identifier, the answer is the one without
    it. *)
Theorem defaultCompareVersions_trailing_zero :
  forall a b : string,
    defaultCompareVersions (a ++ ".0") b = defaultCompareVersions a b
    /\ defaultCompareVersions b (a ++ ".0") = defaultCompareVersions b a
    /\ defaultCompareVersions (a ++ ".0") a = 0.
Proof.
  intros a b.
  assert (H : forall x, defaultCompareVersions (a ++ ".0") x = defaultCompareVersions a x).
  { intros x. apply defaultCompareVersions_parts. apply partsOf_trailing_zero. }
  split; [apply H | split].
  - rewrite (defaultCompareVersions_antisym b (a ++ ".0")), H.
    symmetry. apply defaultCompareVersions_antisym.
  - rewrite H. unfold defaultCompareVersions. now rewrite String.eqb_refl.
Qed.

(** ** Pending upgrades: bounds, growth, insertion order *)

Section PendingMore.

Context {W : Type}.
Implicit Types (o : Options W) (step : VersionStep W).

Lemma getPendingUpgrades_In o saved current step :
  In step (getPendingUpgrades o saved current) <->
  In step (opt_versions o) /\ isPending o saved current step = true.
Proof.
  rewrite getPendingUpgrades_unfold, <- filter_In.
  split; apply Permutation_in; [| apply Permutation_sym]; apply jsSort_perm.
Qed.

Lemma compareVersions_default o a b :
  opt_compareFn o = None -> compareVersions o a b = defaultCompareVersions a b.
Proof. intros H. unfold compareVersions. now rewrite H. Qed.

(** Under the default comparator a pending step lies strictly above the
    saved version, which therefore lies strictly below the current one. *)
Lemma pending_implies_below o c r current step :
  opt_compareFn o = None ->
  In step (getPendingUpgrades o (Some (String c r)) current) ->
  compareVersions o (String c r) current < 0.
Proof.
  intros Hdef Hin. apply getPendingUpgrades_In in Hin. destruct Hin as [_ Hp].
  cbn [isPending] in Hp. apply andb_true_iff in Hp. destruct Hp as [H1 H2].
  apply Z.ltb_lt in H1. apply Z.leb_le in H2.
  rewrite compareVersions_default in * by exact Hdef.
  now apply (defaultCompareVersions_lt_le _ (builderVersion step)).
Qed.

(** X3.  Under the default comparator, when [needsUpgrade] answers false
    for a saved version, nothing is pending from it: a document saved at or
    above the current version is never upgraded. *)
Theorem nothing_pending_unless_needsUpgrade o c r current :
  opt_compareFn o = None ->
  needsUpgrade o (Some (String c r)) current = false ->
  getPendingUpgrades o (Some (String c r)) current = [].
Proof.
  intros Hdef Hno.
  destruct (getPendingUpgrades o (Some (String c r)) current) as [| step rest] eqn:E;
    [reflexivity | exfalso].
  assert (Hin : In step (getPendingUpgrades o (Some (String c r)) current))
    by (rewrite E; now left).
  apply (pending_implies_below o c r current step Hdef) in Hin.
  cbn [needsUpgrade] in Hno. apply Z.ltb_ge in Hno. lia.
Qed.

(** X4.  Under the default comparator the pending set only shrinks as the
    saved version advances and only grows with the current version: what is
    pending from a later saved version up to an earlier current version is
    pending from the earlier saved version up to the later current one. *)
Theorem getPendingUpgrades_monotone o c r c' r' current current' :
  opt_compareFn o = None ->
  compareVersions o (String c r) (String c' r') <= 0 ->
  compareVersions o current current' <= 0 ->
  incl (getPendingUpgrades o (Some (String c' r')) current)
       (getPendingUpgrades o (Some (String c r)) current').
Proof.
  intros Hdef Hs Hc step Hin.
  apply getPendingUpgrades_In in Hin. apply getPendingUpgrades_In.
  destruct Hin as [Hcat Hp]. split; [exact Hcat |].
  cbn [isPending] in *. apply andb_true_iff in Hp. destruct Hp as [H1 H2].
  apply Z.ltb_lt in H1. apply Z.leb_le in H2.
  rewrite compareVersions_default in Hs, Hc, H1, H2 by exact Hdef.
  rewrite !compareVersions_default by exact Hdef.
  apply andb_true_iff. split.
  - apply Z.ltb_lt. now apply (defaultCompareVersions_le_lt _ (String c' r')).
  - apply Z.leb_le. now apply (defaultCompareVersions_trans _ current).
Qed.

End PendingMore.

Lemma nothing_pending_unless_needsUpgrade_witness :
  let o := Sample.optionsOf "2.0.0" Sample.shuffled false in
  needsUpgrade o (Some "2.1.0") "2.0.0" = false
  /\ getPendingUpgrades o (Some "2.1.0") "2.0.0" = [].
Proof.
  intros o. split; [reflexivity |].
  exact (nothing_pending_unless_needsUpgrade o "2"%char ".1.0" "2.0.0" eq_refl eq_refl).
Defined.

(** After the step to 1.2.0 the pending list for 2.0.0 is within the one
    there was at 1.1.0 for 2.1.0. *)
Lemma getPendingUpgrades_monotone_witness :
  let o := Sample.optionsOf "2.0.0" Sample.shuffled false in
  incl (getPendingUpgrades o (Some "1.2.0") "2.0.0")
       (getPendingUpgrades o (Some "1.1.0") "2.1.0").
Proof.
  intros o.
  apply (getPendingUpgrades_monotone o "1"%char ".1.0" "1"%char ".2.0" "2.0.0" "2.1.0");
    [reflexivity | cbv; discriminate | cbv; discriminate].
Defined.

(** *** Sorting determines the list when nothing ties *)

Lemma Permutation_filter {A} (f : A -> bool) (l l' : list A) :
  Permutation l l' -> Permutation (filter f l) (filter f l').
Proof.
  induction 1 as [| x l l' _ IH | x y l | l l' l'' _ IH1 _ IH2]; cbn.
  - constructor.
  - destruct (f x); [now constructor | exact IH].
  - destruct (f x), (f y); try reflexivity. apply perm_swap.
  - now transitivity (filter f l').
Qed.

Section SortUnique.

Context {A : Type} (before : A -> A -> Prop).

Lemma strictly_sorted_unique (l1 : list A) :
  forall l2,
    (forall a b, In a l1 -> In b l1 -> before a b -> before b a -> False) ->
    StronglySorted before l1 -> StronglySorted before l2 ->
    Permutation l1 l2 -> l1 = l2.
Proof.
  induction l1 as [| x r1 IH]; intros l2 Hasym S1 S2 HP.
  - apply Permutation_nil in HP. now subst.
  - destruct l2 as [| y r2].
    + apply Permutation_sym, Permutation_nil in HP. discriminate.
    + apply StronglySorted_inv in S1. destruct S1 as [S1 F1].
      apply StronglySorted_inv in S2. destruct S2 as [S2 F2].
      rewrite Forall_forall in F1, F2.
      assert (Hxy : x = y).
      { assert (Hx : In x (y :: r2)) by (apply (Permutation_in _ HP); now left).
        assert (Hy : In y (x :: r1))
          by (apply (Permutation_in _ (Permutation_sym HP)); now left).
        destruct Hx as [Hx | Hx]; [now symmetry |].
        destruct Hy as [Hy | Hy]; [exact Hy |].
        exfalso. apply (Hasym x y); [now left | now right | now apply F1 | now apply F2]. }
      subst y. f_equal. apply IH; auto.
      * intros a b Ha Hb. apply Hasym; now right.
      * now apply Permutation_cons_inv with x.
Qed.

End SortUnique.

Section InsertionOrder.

Context {W : Type}.
Implicit Types (o : Options W) (step : VersionStep W).

Lemma distinctUnder_spec compare vs :
  (forall a b, In a vs -> In b vs -> Z.sgn (compare a b) = - Z.sgn (compare b a)) ->
  distinctUnder compare vs = true ->
  NoDup vs /\ (forall a b, In a vs -> In b vs -> compare a b = 0 -> a = b).
Proof.
  intros Hsgn. induction vs as [| x rest IH]; intros Hd.
  - split; [constructor | intros a b []].
  - cbn [distinctUnder] in Hd. apply andb_true_iff in Hd. destruct Hd as [Hx Hrest].
    rewrite forallb_forall in Hx.
    assert (Hne : forall y, In y rest -> compare x y <> 0).
    { intros y Hy E. specialize (Hx y Hy). rewrite E in Hx. discriminate. }
    assert (Hrefl : compare x x = 0).
    { specialize (Hsgn x x (or_introl eq_refl) (or_introl eq_refl)).
      apply Z.sgn_null_iff. lia. }
    destruct IH as [Hnd Htie]; [| exact Hrest |].
    { intros a b Ha Hb. apply Hsgn; now right. }
    split.
    + constructor; [| exact Hnd]. intros Hin. now apply (Hne x Hin).
    + intros a b [<- | Ha] [<- | Hb] E; auto.
      * exfalso. now apply (Hne b Hb).
      * exfalso. apply (Hne a Ha).
        specialize (Hsgn x a (or_introl eq_refl) (or_intror Ha)).
        rewrite E in Hsgn. cbn in Hsgn. now apply Z.sgn_null_iff.
Qed.

Lemma getPendingUpgrades_withCatalog o versions saved current :
  getPendingUpgrades (withCatalog versions o) saved current
  = jsSort (byVersion o) (filter (isPending o saved current) versions).
Proof. rewrite getPendingUpgrades_unfold. reflexivity. Qed.

(** X5.  The order in which the integrator lists the catalog does not
    matter: under the default comparator, or a consistent custom one, and a
    catalog in which no two entries compare equal, every reordering of the
    catalog gives the same pending list. *)
Theorem getPendingUpgrades_insertion_order o versions' saved current :
  opt_compareFn o = None
  \/ consistentOn (compareVersions o) (map (@builderVersion W) (opt_versions o)) = true ->
  distinctUnder (compareVersions o) (map (@builderVersion W) (opt_versions o)) = true ->
  Permutation (opt_versions o) versions' ->
  getPendingUpgrades (withCatalog versions' o) saved current
  = getPendingUpgrades o saved current.
Proof.
  intros Hc Hd HP. apply compareVersions_consistent in Hc.
  apply consistentOn_iff in Hc. destruct Hc as [Hsgn Htrans].
  destruct (distinctUnder_spec _ _ Hsgn Hd) as [Hnd Htie].
  set (D := fun step => In (builderVersion step) (map (@builderVersion W) (opt_versions o))).
  set (pending := filter (isPending o saved current) (opt_versions o)).
  set (pending' := filter (isPending o saved current) versions').
  assert (Hpp : Permutation pending pending') by now apply Permutation_filter.
  assert (HD : Forall D pending).
  { apply Forall_forall. intros x Hx. apply filter_In in Hx. now apply in_map. }
  assert (HD' : Forall D pending')
    by exact (Permutation_Forall Hpp HD).
  assert (Hnd1 : NoDup (map (@builderVersion W) pending)).
  { unfold pending. clear - Hnd. induction (opt_versions o) as [| x l IH]; cbn.
    - constructor.
    - inversion Hnd as [| ? ? Hx Hl]; subst.
      destruct (isPending o saved current x); cbn; [| now apply IH].
      constructor; [| now apply IH]. intros Hin. apply Hx.
      apply in_map_iff in Hin. destruct Hin as [y [Ey Hy]].
      apply filter_In in Hy. rewrite <- Ey. now apply in_map. }
  assert (Hstrict : forall l, Permutation pending l ->
            StronglySorted (fun a b => byVersion o a b <= 0) l ->
            StronglySorted (strictlyBefore o) l).
  { intros l Hl. assert (Hndl : NoDup (map (@builderVersion W) l))
      by exact (Permutation_NoDup (Permutation_map _ Hl) Hnd1).
    assert (HDl : Forall D l) by exact (Permutation_Forall Hl HD).
    clear Hl. induction l as [| x r IHl]; intros Hs; [constructor |].
    apply StronglySorted_inv in Hs. destruct Hs as [Hs Hx].
    inversion Hndl as [| ? ? Hnx Hndr]; subst.
    inversion HDl as [| ? ? Dx Dr]; subst.
    constructor; [now apply IHl |].
    rewrite Forall_forall in *. intros y Hy. specialize (Hx y Hy).
    unfold strictlyBefore.
    destruct (Z.eq_dec (byVersion o x y) 0) as [E | NE]; [| lia].
    exfalso. apply Hnx. rewrite (Htie _ _ Dx (Dr y Hy) E). now apply in_map. }
  rewrite getPendingUpgrades_withCatalog, getPendingUpgrades_unfold.
  fold pending pending'. symmetry.
  apply (strictly_sorted_unique (strictlyBefore o)).
  - intros a b Ha Hb Hab Hba. unfold strictlyBefore, byVersion in *.
    assert (Da : D a).
    { rewrite Forall_forall in HD. apply HD.
      apply (Permutation_in _ (jsSort_perm (byVersion o) pending)). exact Ha. }
    assert (Db : D b).
    { rewrite Forall_forall in HD. apply HD.
      apply (Permutation_in _ (jsSort_perm (byVersion o) pending)). exact Hb. }
    pose proof (Hsgn _ _ Da Db) as Hs.
    rewrite (proj2 (Z.sgn_neg_iff _) Hab), (proj2 (Z.sgn_neg_iff _) Hba) in Hs.
    discriminate.
  - apply Hstrict; [apply Permutation_sym, jsSort_perm |].
    apply (jsSort_sorted (byVersion o) D); auto.
    + intros x y Hx Hy. now apply Hsgn.
    + intros x y z Hx Hy Hz. now apply Htrans.
  - apply Hstrict.
    + transitivity pending'; [exact Hpp | apply Permutation_sym, jsSort_perm].
    + apply (jsSort_sorted (byVersion o) D); auto.
      * intros x y Hx Hy. now apply Hsgn.
      * intros x y z Hx Hy Hz. now apply Htrans.
  - transitivity pending; [apply jsSort_perm |].
    transitivity pending'; [exact Hpp | apply Permutation_sym, jsSort_perm].
Qed.

End InsertionOrder.

(** The catalog of the registry's tests in two orders. *)
Lemma getPendingUpgrades_insertion_order_witness :
  let a := Sample.succeeding "1.1.0" None in
  let b := Sample.succeeding "1.2.0" None in
  let c := Sample.succeeding "2.0.0" None in
  let o := Sample.optionsOf "2.0.0" [a; b; c] false in
  getPendingUpgrades (withCatalog [c; a; b] o) (Some "1.0.0") "2.0.0"
  = getPendingUpgrades o (Some "1.0.0") "2.0.0".
Proof.
  intros a b c o.
  apply (getPendingUpgrades_insertion_order o [c; a; b] (Some "1.0.0") "2.0.0");
    [left; reflexivity | reflexivity |].
  apply Permutation_sym. apply perm_trans with [a; c; b];
    [apply perm_swap | apply perm_skip, perm_swap].
Defined.

(** ** The run as a whole *)

Section RunMore.

Context {W : Type}.
Implicit Types (st : System W) (fr : Frame W) (step : VersionStep W).

Lemma grows_intro st st' added :
  trace st' = (trace st ++ added)%list -> grows st st' /\ since st st' = added.
Proof.
  intros H. pose proof (since_app _ _ _ H) as E. unfold grows. now rewrite E.
Qed.

Lemma grows_trans st1 st2 st3 :
  grows st1 st2 -> grows st2 st3 ->
  grows st1 st3 /\ since st1 st3 = (since st1 st2 ++ since st2 st3)%list.
Proof.
  unfold grows. intros H12 H23. apply grows_intro.
  now rewrite H23, H12, app_assoc.
Qed.

Lemma returnedVersions_calls (t : list (Effect W)) :
  incl (returnedVersions t) (map (@builderVersion W) (upgradeCalls t)).
Proof.
  induction t as [| e t IH]; [intros x [] |].
  destruct e as [| | | | | step [v | err] | | | |]; cbn; try exact IH.
  - intros x [<- | Hx]; [now left | right; now apply IH].
  - intros x Hx. right. now apply IH.
Qed.

(** One iteration: what it appends to the trace. *)
Lemma runStep_since step fr :
  grows (sys fr) (sys (snd (runStep step fr)))
  /\ upgradeCalls (since (sys fr) (sys (snd (runStep step fr)))) = [step]
  /\ returnedVersions (since (sys fr) (sys (snd (runStep step fr))))
     = match outcome (upgrade step (world (sys fr))) with
       | Returned _ => [builderVersion step]
       | Threw _ => []
       end
  /\ thrownVersions (since (sys fr) (sys (snd (runStep step fr))))
     = match outcome (upgrade step (world (sys fr))) with
       | Threw (ThrownValue _) => [builderVersion step]
       | _ => []
       end.
Proof.
  assert (H : exists added,
    trace (sys (snd (runStep step fr))) = (trace (sys fr) ++ added)%list
    /\ upgradeCalls added = [step]
    /\ returnedVersions added
       = match outcome (upgrade step (world (sys fr))) with
         | Returned _ => [builderVersion step]
         | Threw _ => []
         end
    /\ thrownVersions added
       = match outcome (upgrade step (world (sys fr))) with
         | Threw (ThrownValue _) => [builderVersion step]
         | _ => []
         end).
  { step_cases step fr; eexists; (split; [flatten_trace; reflexivity |]);
      repeat split. }
  destruct H as (added & Ht & Hc & Hr & Hf).
  destruct (grows_intro _ _ _ Ht) as [Hg ->]. auto.
Qed.

(** One iteration: what it records and how it ends. *)
Lemma runStep_records step fr :
  failedSteps (sys (snd (runStep step fr)))
  = (failedSteps (sys fr)
     ++ match outcome (upgrade step (world (sys fr))) with
        | Threw (ThrownValue _) => [builderVersion step]
        | _ => []
        end)%list
  /\ lastSuccessfulVersion (snd (runStep step fr))
     = match outcome (upgrade step (world (sys fr))) with
       | Returned _ => Some (builderVersion step)
       | Threw _ => lastSuccessfulVersion fr
       end
  /\ fst (runStep step fr)
     = match outcome (upgrade step (world (sys fr))) with
       | Returned _ => Continue
       | Threw (ThrownNullish which) => Escape (Some (nullishReadMessage which))
       | Threw (ThrownValue _) =>
           if opt_continueOnError (options (sys fr)) then Continue else Break
       end.
Proof.
  step_cases step fr; rewrite ?app_nil_r; repeat split.
  destruct (opt_continueOnError (options (sys fr))); reflexivity.
Qed.

Lemma runStep_frame step fr :
  isUpgrading (sys (snd (runStep step fr))) = isUpgrading (sys fr)
  /\ savedVersion (sys (snd (runStep step fr))) = savedVersion (sys fr)
  /\ opt_versions (options (sys (snd (runStep step fr)))) = opt_versions (options (sys fr))
  /\ opt_compareFn (options (sys (snd (runStep step fr)))) = opt_compareFn (options (sys fr))
  /\ opt_continueOnError (options (sys (snd (runStep step fr))))
     = opt_continueOnError (options (sys fr)).
Proof. step_cases step fr; repeat split. Qed.

Lemma forEachStep_grows pendingSteps :
  forall fr, grows (sys fr) (sys (snd (forEachStep pendingSteps fr))).
Proof.
  induction pendingSteps as [| step rest IH]; intros fr; cbn [forEachStep fst snd].
  - apply (grows_intro _ _ []). now rewrite app_nil_r.
  - destruct (runStep_since step fr) as (Hg & _).
    destruct (runStep step fr) as [[| | escaped] fr1]; cbn [snd] in *; auto.
    now apply (grows_trans _ (sys fr1)).
Qed.

Lemma forEachStep_calls pendingSteps :
  forall fr,
    (exists rest, pendingSteps
       = (upgradeCalls (since (sys fr) (sys (snd (forEachStep pendingSteps fr)))) ++ rest)%list)
    /\ (fst (forEachStep pendingSteps fr) = Continue ->
        upgradeCalls (since (sys fr) (sys (snd (forEachStep pendingSteps fr))))
        = pendingSteps).
Proof.
  induction pendingSteps as [| step rest IH]; intros fr; cbn [forEachStep fst snd].
  - destruct (grows_intro (sys fr) (sys fr) []) as [_ ->]; [now rewrite app_nil_r |].
    split; [now exists [] | reflexivity].
  - destruct (runStep_since step fr) as (Hg & Hc & _).
    pose proof (forEachStep_grows rest (snd (runStep step fr))) as Hg2.
    destruct (runStep step fr) as [[| | escaped] fr1]; cbn [fst snd] in *.
    + destruct (grows_trans _ _ _ Hg Hg2) as [_ ->].
      unfold upgradeCalls in *. rewrite flat_map_app, Hc.
      destruct (IH fr1) as [[rest2 Hr] Hall]. split.
      * exists rest2. cbn. now rewrite <- Hr.
      * intros Hk. cbn. now rewrite (Hall Hk).
    + rewrite Hc. split; [now exists rest | discriminate].
    + rewrite Hc. split; [now exists rest | discriminate].
Qed.

Lemma forEachStep_records pendingSteps :
  forall fr,
    failedSteps (sys (snd (forEachStep pendingSteps fr)))
    = (failedSteps (sys fr)
       ++ thrownVersions (since (sys fr) (sys (snd (forEachStep pendingSteps fr)))))%list
    /\ lastSuccessfulVersion (snd (forEachStep pendingSteps fr))
       = last (map Some (returnedVersions
                           (since (sys fr) (sys (snd (forEachStep pendingSteps fr))))))
              (lastSuccessfulVersion fr).
Proof.
  induction pendingSteps as [| step rest IH]; intros fr; cbn [forEachStep fst snd].
  - destruct (grows_intro (sys fr) (sys fr) []) as [_ ->]; [now rewrite app_nil_r |].
    cbn. now rewrite app_nil_r.
  - destruct (runStep_since step fr) as (Hg & _ & Hr & Ht).
    destruct (runStep_records step fr) as (Hf & Hl & _).
    pose proof (forEachStep_grows rest (snd (runStep step fr))) as Hg2.
    assert (Hone :
      failedSteps (sys (snd (runStep step fr)))
      = (failedSteps (sys fr)
         ++ thrownVersions (since (sys fr) (sys (snd (runStep step fr)))))%list
      /\ lastSuccessfulVersion (snd (runStep step fr))
         = last (map Some (returnedVersions (since (sys fr) (sys (snd (runStep step fr))))))
                (lastSuccessfulVersion fr)).
    { rewrite Hf, Hl, Hr, Ht.
      destruct (outcome (upgrade step (world (sys fr)))) as [v | [| msg]]; split;
        reflexivity. }
    destruct Hone as [Hf1 Hl1].
    destruct (runStep step fr) as [[| | escaped] fr1]; cbn [fst snd] in *; auto.
    destruct (grows_trans _ _ _ Hg Hg2) as [_ ->].
    destruct (IH fr1) as [Hf2 Hl2].
    unfold thrownVersions, returnedVersions in *.
    rewrite !flat_map_app, map_app, last_app. split.
    + now rewrite Hf2, Hf1, app_assoc.
    + now rewrite Hl2, Hl1.
Qed.

Lemma forEachStep_frame pendingSteps :
  forall fr,
    isUpgrading (sys (snd (forEachStep pendingSteps fr))) = isUpgrading (sys fr)
    /\ savedVersion (sys (snd (forEachStep pendingSteps fr))) = savedVersion (sys fr)
    /\ opt_versions (options (sys (snd (forEachStep pendingSteps fr))))
       = opt_versions (options (sys fr))
    /\ opt_compareFn (options (sys (snd (forEachStep pendingSteps fr))))
       = opt_compareFn (options (sys fr))
    /\ opt_continueOnError (options (sys (snd (forEachStep pendingSteps fr))))
       = opt_continueOnError (options (sys fr)).
Proof.
  induction pendingSteps as [| step rest IH]; intros fr; cbn [forEachStep fst snd].
  - repeat split.
  - destruct (runStep_frame step fr) as (H1 & H2 & H3 & H4 & H5).
    destruct (runStep step fr) as [[| | escaped] fr1]; cbn [snd] in *;
      try (repeat split; assumption).
    destruct (IH fr1) as (I1 & I2 & I3 & I4 & I5).
    repeat split; congruence.
Qed.

Lemma forEachStep_continues pendingSteps :
  forall fr,
    opt_continueOnError (options (sys fr)) = true ->
    neverNullish pendingSteps ->
    fst (forEachStep pendingSteps fr) = Continue.
Proof.
  induction pendingSteps as [| step rest IH]; intros fr Hon Hnn; cbn [forEachStep];
    [reflexivity |].
  destruct (runStep_records step fr) as (_ & _ & Hk).
  destruct (runStep_frame step fr) as (_ & _ & _ & _ & Hcont).
  pose proof (Hnn step (world (sys fr)) (or_introl eq_refl)) as Hn.
  destruct (runStep step fr) as [ctl fr1]; cbn [fst snd] in *.
  assert (ctl = Continue) as ->.
  { rewrite Hk. destruct (outcome (upgrade step (world (sys fr)))) as [v | [which | msg]];
      [reflexivity | now destruct (Hn which) | now rewrite Hon]. }
  apply IH; [congruence |]. intros s w Hs. apply Hnn. now right.
Qed.

Lemma forEachStep_halting pendingSteps :
  forall fr,
    opt_continueOnError (options (sys fr)) = false ->
    let t := since (sys fr) (sys (snd (forEachStep pendingSteps fr))) in
    (returnedVersions t = map (@builderVersion W) (upgradeCalls t)
     /\ thrownVersions t = [])
    \/ exists done failed,
         upgradeCalls t = (done ++ [failed])%list
         /\ returnedVersions t = map (@builderVersion W) done
         /\ (thrownVersions t = [] \/ thrownVersions t = [builderVersion failed]).
Proof.
  induction pendingSteps as [| step rest IH]; intros fr Hoff; cbn [forEachStep fst snd].
  - cbn zeta. destruct (grows_intro (sys fr) (sys fr) []) as [_ ->];
      [now rewrite app_nil_r |]. left. split; reflexivity.
  - destruct (runStep_since step fr) as (Hg & Hc & Hr & Ht).
    destruct (runStep_records step fr) as (_ & _ & Hk).
    destruct (runStep_frame step fr) as (_ & _ & _ & _ & Hcont).
    pose proof (forEachStep_grows rest (snd (runStep step fr))) as Hg2.
    destruct (runStep step fr) as [ctl fr1]; cbn [fst snd] in *.
    destruct (outcome (upgrade step (world (sys fr)))) as [v | [| msg]]; subst ctl.
    + destruct (grows_trans _ _ _ Hg Hg2) as [_ E]. cbn zeta. rewrite E.
      unfold upgradeCalls, returnedVersions, thrownVersions in *.
      rewrite !flat_map_app, Hc, Hr, Ht. cbn [app].
      destruct (IH fr1 ltac:(congruence)) as [[Hall Hnone] | (done & failed & Hd & Hrd & Hth)].
      * left. split; [cbn; now rewrite Hall | exact Hnone].
      * right. exists (step :: done), failed. split; [cbn; now rewrite Hd |].
        split; [cbn; now rewrite Hrd | exact Hth].
    + right. exists [], step. cbn. rewrite Hc, Hr, Ht. auto.
    + rewrite Hoff. right. exists [], step. cbn. rewrite Hc, Hr, Ht. auto.
Qed.

(** A call that starts a run: its trace is the start event, what the loop
    appended, and one closing effect; its result reads the loop's records. *)
Lemma runUpgrades_started st step rest :
  isUpgrading st = false ->
  pendingOf st = step :: rest ->
  exists closing,
    since st (snd (runUpgrades st))
    = (Emit_upgrade_start (map (@builderVersion W) (pendingOf st))
       :: since (sys (announceStart (pendingOf st) (enterRun st)))
                (sys (snd (forEachStep (pendingOf st)
                             (announceStart (pendingOf st) (enterRun st)))))
       ++ [closing])%list
    /\ upgradeCalls [closing] = []
    /\ returnedVersions [closing] = []
    /\ thrownVersions [closing] = []
    /\ failedSteps (snd (runUpgrades st))
       = failedSteps (sys (snd (forEachStep (pendingOf st)
                                 (announceStart (pendingOf st) (enterRun st)))))
    /\ failedStepsOf (fst (runUpgrades st)) = Some (failedSteps (snd (runUpgrades st)))
    /\ upgradedTo (fst (runUpgrades st))
       = lastSuccessfulVersion (snd (forEachStep (pendingOf st)
                                       (announceStart (pendingOf st) (enterRun st))))
    /\ logs (fst (runUpgrades st)) = allLogs (snd (runUpgrades st))
    /\ success (fst (runUpgrades st))
       = match fst (forEachStep (pendingOf st)
                      (announceStart (pendingOf st) (enterRun st))) with
         | Escape _ => false
         | _ => true
         end.
Proof.
  intros Hidle Hpending.
  pose proof (forEachStep_grows (pendingOf st) (announceStart (pendingOf st) (enterRun st)))
    as Hg.
  unfold grows in Hg. unfold runUpgrades, tryBlock.
  rewrite Hidle. rewrite Hpending in *.
  remember (since (sys (announceStart (step :: rest) (enterRun st)))
              (sys (snd (forEachStep (step :: rest)
                           (announceStart (step :: rest) (enterRun st)))))) as loop.
  clear Heqloop.
  destruct (forEachStep (step :: rest) (announceStart (step :: rest) (enterRun st)))
    as [[| | escaped] fr]; cbn [fst snd] in *; cbn -[since] in Hg |- *;
    eexists; (split; [apply since_app; cbn -[since]; rewrite Hg; flatten_trace;
                      reflexivity |]);
    repeat split.
Qed.

(** The states in which the loop awaits a step, against what the loop
    then does: a step that throws a value is recorded as failed, and the
    loop is left by an error exactly when a step rejects with [null] or
    [undefined]. *)
Lemma suspensions_outcome pendingSteps :
  forall fr s step,
    In s (suspensions pendingSteps fr) -> currentStep s = Some step ->
    (forall msg, outcome (upgrade step (world s)) = Threw (ThrownValue msg) ->
       In (builderVersion step) (failedSteps (sys (snd (forEachStep pendingSteps fr)))))
    /\ (forall which, outcome (upgrade step (world s)) = Threw (ThrownNullish which) ->
        fst (forEachStep pendingSteps fr) = Escape (Some (nullishReadMessage which))).
Proof.
  induction pendingSteps as [| step0 rest IH]; intros fr s step Hs Hcur; [destruct Hs |].
  cbn [suspensions forEachStep] in *.
  destruct (runStep_records step0 fr) as (Hf & _ & Hk).
  destruct (forEachStep_records rest (snd (runStep step0 fr))) as [Hf2 _].
  destruct Hs as [<- | Hs].
  - cbn in Hcur. injection Hcur as <-.
    change (world (beforeUpgrade step0 (sys fr))) with (world (sys fr)).
    destruct (runStep step0 fr) as [ctl fr1]; cbn [fst snd] in *.
    split.
    + intros msg Hmsg. rewrite Hmsg in Hf, Hk.
      assert (Hin : In (builderVersion step0) (failedSteps (sys fr1)))
        by (rewrite Hf; apply in_or_app; right; now left).
      destruct ctl; cbn [snd]; [| exact Hin | exact Hin].
      rewrite Hf2. apply in_or_app. now left.
    + intros which Hwhich. rewrite Hwhich in Hk. now subst ctl.
  - destruct (runStep step0 fr) as [[| | escaped] fr1]; cbn [fst snd] in *;
      [| destruct Hs | destruct Hs].
    now apply IH.
Qed.

Lemma forEachStep_escape pendingSteps :
  forall fr escaped,
    fst (forEachStep pendingSteps fr) = Escape escaped ->
    exists s step which,
      In s (suspensions pendingSteps fr) /\ currentStep s = Some step
      /\ In step pendingSteps
      /\ outcome (upgrade step (world s)) = Threw (ThrownNullish which)
      /\ escaped = Some (nullishReadMessage which).
Proof.
  induction pendingSteps as [| step0 rest IH]; intros fr escaped Hesc;
    [discriminate |].
  cbn [suspensions forEachStep] in *.
  destruct (runStep_records step0 fr) as (_ & _ & Hk).
  destruct (runStep step0 fr) as [[| | escaped'] fr1]; cbn [fst snd] in *.
  - destruct (IH fr1 escaped Hesc) as (s & step & which & Hs & Hcur & Hin & Hout & He).
    exists s, step, which. repeat split; auto; now right.
  - discriminate.
  - exists (beforeUpgrade step0 (sys fr)), step0.
    change (world (beforeUpgrade step0 (sys fr))) with (world (sys fr)).
    destruct (outcome (upgrade step0 (world (sys fr)))) as [v | [which | msg]];
      try discriminate.
    + exists which. repeat split; auto; [now left | now left | congruence].
    + destruct (opt_continueOnError (options (sys fr))); discriminate.
Qed.

Lemma runUpgrades_error st step rest :
  isUpgrading st = false ->
  pendingOf st = step :: rest ->
  error (fst (runUpgrades st))
  = match fst (forEachStep (pendingOf st)
                 (announceStart (pendingOf st) (enterRun st))) with
    | Escape escaped => Some (Js.or_else escaped "Catastrophic upgrade error")
    | _ => None
    end.
Proof.
  intros Hidle Hpending. unfold runUpgrades, tryBlock. rewrite Hidle, Hpending.
  destruct (forEachStep (step :: rest) (announceStart (step :: rest) (enterRun st)))
    as [[| | escaped] fr]; reflexivity.
Qed.

(** C10.  The [success] field does not reflect per-step failures.  A call
    made while a run is in flight is refused with [success] false.  A call
    on an idle engine whose actions never reject with [null] or
    [undefined] -- the one way an error leaves the step loop -- resolves
    with [success] true under either continuation policy; and whenever a
    step it reaches throws, that step's version is in the failed-step list
    of the very result whose [success] is true.  [success] is false only
    for the refused call and when a reached step rejects with [null] or
    [undefined], which ends the call in the catastrophic handler. *)
Theorem runUpgrades_success_flag st :
  (isUpgrading st = true -> success (fst (runUpgrades st)) = false)
  /\ (isUpgrading st = false -> neverNullish (pendingOf st) ->
      success (fst (runUpgrades st)) = true)
  /\ (forall s step msg,
        In s (inFlight st) -> currentStep s = Some step ->
        outcome (upgrade step (world s)) = Threw (ThrownValue msg) ->
        (exists failed, failedStepsOf (fst (runUpgrades st)) = Some failed
                        /\ In (builderVersion step) failed)
        /\ (neverNullish (pendingOf st) -> success (fst (runUpgrades st)) = true))
  /\ (forall s step which,
        In s (inFlight st) -> currentStep s = Some step ->
        outcome (upgrade step (world s)) = Threw (ThrownNullish which) ->
        success (fst (runUpgrades st)) = false
        /\ error (fst (runUpgrades st)) = Some (nullishReadMessage which))
  /\ (success (fst (runUpgrades st)) = false ->
      isUpgrading st = true
      \/ exists s step which,
           In s (inFlight st) /\ currentStep s = Some step
           /\ outcome (upgrade step (world s)) = Threw (ThrownNullish which)).
Proof.
  assert (Hsuccess : isUpgrading st = false -> neverNullish (pendingOf st) ->
                     success (fst (runUpgrades st)) = true).
  { intros Hidle Hnn. destruct (pendingOf st) as [| step rest] eqn:Hpending.
    - unfold runUpgrades. now rewrite Hidle, Hpending.
    - destruct (runUpgrades_started st step rest Hidle Hpending)
        as (_ & _ & _ & _ & _ & _ & _ & _ & _ & Hs).
      rewrite Hs.
      destruct (fst (forEachStep (pendingOf st)
                       (announceStart (pendingOf st) (enterRun st)))) as [| | escaped] eqn:Hk;
        try reflexivity.
      destruct (forEachStep_escape _ _ _ Hk) as (s & x & which & _ & _ & Hin & Hout & _).
      rewrite Hpending in Hin. now destruct (Hnn x (world s) Hin which). }
  split; [| split; [exact Hsuccess | split; [| split]]].
  - intros Hrun. unfold runUpgrades. now rewrite Hrun.
  - intros s step msg Hs Hcur Hout.
    unfold inFlight in Hs. destruct (isUpgrading st) eqn:Hidle; [destruct Hs |].
    split; [| now apply Hsuccess].
    destruct (pendingOf st) as [| step0 rest] eqn:Hpending; [destruct Hs |].
    destruct (runUpgrades_started st step0 rest Hidle Hpending)
      as (_ & _ & _ & _ & _ & Hf & Hfo & _).
    rewrite Hpending in Hf.
    exists (failedSteps (snd (runUpgrades st))). split; [exact Hfo |].
    rewrite Hf. exact (proj1 (suspensions_outcome _ _ s step Hs Hcur) msg Hout).
  - intros s step which Hs Hcur Hout.
    unfold inFlight in Hs. destruct (isUpgrading st) eqn:Hidle; [destruct Hs |].
    destruct (pendingOf st) as [| step0 rest] eqn:Hpending; [destruct Hs |].
    pose proof (proj2 (suspensions_outcome _ _ s step Hs Hcur) which Hout) as Hk.
    destruct (runUpgrades_started st step0 rest Hidle Hpending)
      as (_ & _ & _ & _ & _ & _ & _ & _ & _ & Hsucc).
    rewrite (runUpgrades_error st step0 rest Hidle Hpending), Hsucc.
    rewrite Hpending, Hk. split; [reflexivity | now destruct which].
  - intros Hfalse. destruct (isUpgrading st) eqn:Hidle; [now left | right].
    destruct (pendingOf st) as [| step0 rest] eqn:Hpending.
    + unfold runUpgrades in Hfalse. rewrite Hidle, Hpending in Hfalse. discriminate.
    + destruct (runUpgrades_started st step0 rest Hidle Hpending)
        as (_ & _ & _ & _ & _ & _ & _ & _ & _ & Hsucc).
      rewrite Hsucc in Hfalse.
      destruct (fst (forEachStep (pendingOf st)
                       (announceStart (pendingOf st) (enterRun st)))) as [| | escaped] eqn:Hk;
        try discriminate.
      destruct (forEachStep_escape _ _ _ Hk) as (s & x & which & Hs & Hcur & _ & Hout & _).
      exists s, x, which. unfold inFlight. rewrite Hidle. auto.
Qed.

Lemma upgradeCalls_segment st :
  exists rest,
    pendingOf st = (upgradeCalls (since st (snd (runUpgrades st))) ++ rest)%list.
Proof.
  destruct (isUpgrading st) eqn:Hrun.
  - exists (pendingOf st). unfold runUpgrades. rewrite Hrun. cbn.
    rewrite (since_app st _ [Console_warn "[grapesjs-version-flow] Upgrade already in progress" None]);
      reflexivity.
  - destruct (pendingOf st) as [| step rest] eqn:Hpending.
    + exists []. unfold runUpgrades. rewrite Hrun, Hpending. cbn.
      rewrite (since_app st st []); [reflexivity | now rewrite app_nil_r].
    + destruct (runUpgrades_started st step rest Hrun Hpending)
        as (closing & Hs & Hc & _).
      destruct (forEachStep_calls (pendingOf st) (announceStart (pendingOf st) (enterRun st)))
        as [[rest' Hr] _].
      exists rest'. rewrite Hs. unfold upgradeCalls in *. cbn [flat_map app].
      rewrite flat_map_app, Hc, app_nil_r. rewrite <- Hpending. exact Hr.
Qed.

(** X6.  Whatever the outcome, the upgrade actions that a call of
    [runUpgrades] invokes are an initial segment of the pending list: taken
    in order, none skipped, none invoked twice, and none from outside the
    pending list. *)
Theorem runUpgrades_invokes_initial_segment st :
  (exists rest,
      pendingOf st = (upgradeCalls (since st (snd (runUpgrades st))) ++ rest)%list)
  /\ incl (upgradeCalls (since st (snd (runUpgrades st)))) (pendingOf st)
  /\ (length (upgradeCalls (since st (snd (runUpgrades st)))) <= length (pendingOf st))%nat.
Proof.
  destruct (upgradeCalls_segment st) as [rest Hr]. split; [now exists rest |].
  split.
  - intros x Hx. rewrite Hr. apply in_or_app. now left.
  - apply (f_equal (@length _)) in Hr. rewrite length_app in Hr. lia.
Qed.

(** X7.  For every call that starts a run, the result accounts for what
    was invoked: [failedSteps] lists, in order, the versions of the invoked
    steps whose action threw a value other than [null] / [undefined];
    [upgradedTo] is the version of the last invoked step whose action
    returned, or the saved version when none did; and [logs] is the
    engine's log as [getAllLogs] shows it after the call. *)
Theorem runUpgrades_result_accounts st :
  isUpgrading st = false ->
  pendingOf st <> [] ->
  failedStepsOf (fst (runUpgrades st))
  = Some (thrownVersions (since st (snd (runUpgrades st))))
  /\ failedSteps (snd (runUpgrades st)) = thrownVersions (since st (snd (runUpgrades st)))
  /\ upgradedTo (fst (runUpgrades st))
     = last (map Some (returnedVersions (since st (snd (runUpgrades st)))))
            (savedVersion st)
  /\ logs (fst (runUpgrades st)) = allLogs (snd (runUpgrades st)).
Proof.
  intros Hidle Hne.
  destruct (pendingOf st) as [| step rest] eqn:Hpending; [congruence |].
  destruct (runUpgrades_started st step rest Hidle Hpending)
    as (closing & Hs & _ & Hcr & Hct & Hf & Hfr & Hu & Hl & _).
  destruct (forEachStep_records (pendingOf st) (announceStart (pendingOf st) (enterRun st)))
    as [Hrec Hlast].
  rewrite Hs. unfold thrownVersions, returnedVersions in *. cbn [flat_map app].
  rewrite !flat_map_app, Hcr, Hct, !app_nil_r.
  rewrite Hfr, Hf, Hu, Hrec, Hlast. repeat split. exact Hl.
Qed.

(** X8.  Best effort.  With continuation enabled and actions that never
    reject with [null] / [undefined], a call that is not rejected invokes
    every pending step, in order, and resolves with [success] true. *)
Theorem runUpgrades_best_effort_reaches_all st :
  isUpgrading st = false ->
  opt_continueOnError (options st) = true ->
  neverNullish (pendingOf st) ->
  upgradeCalls (since st (snd (runUpgrades st))) = pendingOf st
  /\ success (fst (runUpgrades st)) = true.
Proof.
  intros Hidle Hon Hnn.
  destruct (pendingOf st) as [| step rest] eqn:Hpending.
  - unfold runUpgrades. rewrite Hidle, Hpending. cbn.
    rewrite (since_app st st []); [auto | now rewrite app_nil_r].
  - destruct (runUpgrades_started st step rest Hidle Hpending)
      as (closing & Hs & Hc & _ & _ & _ & _ & _ & _ & Hsucc).
    rewrite Hpending in *.
    pose proof (forEachStep_continues (step :: rest)
                  (announceStart (step :: rest) (enterRun st)) Hon Hnn) as Hk.
    destruct (forEachStep_calls (step :: rest) (announceStart (step :: rest) (enterRun st)))
      as [_ Hall].
    rewrite Hs, Hsucc, Hk. split; [| reflexivity].
    unfold upgradeCalls in *. cbn [flat_map app].
    rewrite flat_map_app, Hc, app_nil_r. now apply Hall.
Qed.

(** X9.  Halting.  With continuation disabled, in a call that starts a
    run every step invoked before the last one returned: either all
    invoked steps returned and the engine's failed-step list is empty
    after the call, or all but the last did and the list is empty or holds
    exactly the version of the last step invoked.  So it never holds more
    than one version, and the result carries the same list. *)
Theorem runUpgrades_halting_fails_at_most_once st :
  isUpgrading st = false ->
  opt_continueOnError (options st) = false ->
  pendingOf st <> [] ->
  let t := since st (snd (runUpgrades st)) in
  let failed := failedSteps (snd (runUpgrades st)) in
  ((returnedVersions t = map (@builderVersion W) (upgradeCalls t) /\ failed = [])
   \/ exists done last,
        upgradeCalls t = (done ++ [last])%list
        /\ returnedVersions t = map (@builderVersion W) done
        /\ (failed = [] \/ failed = [builderVersion last]))
  /\ (length failed <= 1)%nat
  /\ failedStepsOf (fst (runUpgrades st)) = Some failed.
Proof.
  intros Hidle Hoff Hne t failed. subst t failed.
  destruct (pendingOf st) as [| step rest] eqn:Hpending; [congruence |].
  destruct (runUpgrades_started st step rest Hidle Hpending)
    as (closing & Hs & Hc & Hcr & Hct & Hf & Hfo & _).
  destruct (forEachStep_records (pendingOf st) (announceStart (pendingOf st) (enterRun st)))
    as [Hrec _].
  pose proof (forEachStep_halting (pendingOf st)
                (announceStart (pendingOf st) (enterRun st)) Hoff) as Hshape.
  cbn zeta in Hshape. rewrite Hpending in *.
  assert (Hfs : failedSteps (snd (runUpgrades st))
                = thrownVersions
                    (since (sys (announceStart (step :: rest) (enterRun st)))
                       (sys (snd (forEachStep (step :: rest)
                                    (announceStart (step :: rest) (enterRun st))))))).
  { rewrite Hf, Hrec. reflexivity. }
  rewrite Hfo, Hs, Hfs. clear Hfs Hf Hrec Hfo Hs.
  unfold upgradeCalls, returnedVersions in *. cbn [flat_map app].
  rewrite !flat_map_app, Hc, Hcr, !app_nil_r.
  split; [exact Hshape |]. split; [| reflexivity].
  destruct Hshape as [[_ ->] | (done & failed & _ & _ & [-> | ->])]; cbn; lia.
Qed.

Lemma last_In {A} (l : list A) d : l <> [] -> In (last l d) l.
Proof.
  induction l as [| x r IH]; [congruence |]. intros _.
  destruct r as [| y r']; [now left |]. right. apply IH. discriminate.
Qed.

Lemma pending_not_after_current (o : Options W) saved current step :
  In step (getPendingUpgrades o saved current) ->
  compareVersions o (builderVersion step) current <= 0.
Proof.
  intros Hin. apply getPendingUpgrades_In in Hin. destruct Hin as [_ Hp].
  unfold isPending in Hp. destruct saved as [[| c r] |].
  - now apply Z.leb_le.
  - apply andb_true_iff in Hp. now apply Z.leb_le.
  - now apply Z.leb_le.
Qed.

Lemma runUpgrades_version_pending st :
  opt_builderVersion (options (snd (runUpgrades st))) = opt_builderVersion (options st)
  \/ exists step,
       In step (pendingOf st)
       /\ In step (upgradeCalls (since st (snd (runUpgrades st))))
       /\ opt_builderVersion (options (snd (runUpgrades st))) = builderVersion step
       /\ compareVersions (options st) (builderVersion step)
            (opt_builderVersion (options st)) <= 0.
Proof.
  destruct (runUpgrades_effects st) as (added & Ht & Hv).
  rewrite (since_app _ _ _ Ht).
  destruct (returnedVersions added) as [| v l] eqn:Er; [left; exact Hv | right].
  assert (Hin : In (opt_builderVersion (options (snd (runUpgrades st))))
                   (map (@builderVersion W) (upgradeCalls added))).
  { apply returnedVersions_calls. rewrite Hv, Er. apply last_In. discriminate. }
  apply in_map_iff in Hin. destruct Hin as (step & Hs & Hcall).
  destruct (upgradeCalls_segment st) as [rest Hr].
  rewrite (since_app _ _ _ Ht) in Hr.
  assert (Hp : In step (pendingOf st)) by (rewrite Hr; apply in_or_app; now left).
  exists step. repeat split; auto.
  now apply (pending_not_after_current _ (getSavedVersion st)).
Qed.

(** X10.  After a call of [runUpgrades] the registry's current version is
    the version of the last invoked step whose action returned, or the
    version the call started from when none returned.  That step is a
    pending step, so the comparator does not place its version after the
    version the call started from: the engine never raises the current
    version, and it lowers it to the last successful step when that step
    is below it. *)
Theorem runUpgrades_never_raises_version st :
  let t := since st (snd (runUpgrades st)) in
  let after := opt_builderVersion (options (snd (runUpgrades st))) in
  after = last (returnedVersions t) (opt_builderVersion (options st))
  /\ ((returnedVersions t = [] /\ after = opt_builderVersion (options st))
      \/ exists earlier step,
           returnedVersions t = (earlier ++ [builderVersion step])%list
           /\ In step (pendingOf st)
           /\ In step (upgradeCalls t)
           /\ after = builderVersion step
           /\ compareVersions (options st) (builderVersion step)
                (opt_builderVersion (options st)) <= 0).
Proof.
  intros t after. subst t after.
  destruct (runUpgrades_effects st) as (added & Ht & Hv).
  rewrite (since_app _ _ _ Ht). split; [exact Hv |].
  destruct (returnedVersions added) as [| v l] eqn:Er; [left; split; [reflexivity | exact Hv] |].
  right.
  destruct (exists_last (l := v :: l) ltac:(discriminate)) as [earlier [final Hsplit]].
  rewrite Hsplit in Hv |- *. rewrite last_last in Hv.
  assert (Hin : In final (map (@builderVersion W) (upgradeCalls added))).
  { apply returnedVersions_calls. rewrite Er, Hsplit. apply in_or_app. right. now left. }
  apply in_map_iff in Hin. destruct Hin as (step & Hs & Hcall).
  destruct (upgradeCalls_segment st) as [rest Hr].
  rewrite (since_app _ _ _ Ht) in Hr.
  assert (Hp : In step (pendingOf st)) by (rewrite Hr; apply in_or_app; now left).
  exists earlier, step. rewrite Hs. repeat split; auto.
  rewrite <- Hs. now apply (pending_not_after_current _ (getSavedVersion st)).
Qed.

(** ** Announcements leave the run state alone *)

Lemma announce_frame step st :
  options (announce step st) = options st
  /\ savedVersion (announce step st) = savedVersion st
  /\ isUpgrading (announce step st) = isUpgrading st
  /\ currentStep (announce step st) = currentStep st
  /\ failedSteps (announce step st) = failedSteps st
  /\ (exists more, allLogs (announce step st) = (allLogs st ++ more)%list)
  /\ exists added, trace (announce step st) = (trace st ++ added)%list
       /\ upgradeCalls added = [] /\ emitted added = [].
Proof.
  unfold announce. destruct (whatsNew step) as [action |]; cbn.
  - unfold await. cbn.
    destruct (outcome (action (world st))) as [value | err]; cbn;
      repeat split; try (eexists; reflexivity);
      eexists; (split; [flatten_trace; reflexivity |]); split; reflexivity.
  - repeat split; exists []; now rewrite app_nil_r.
Qed.

Lemma announce_all_frame steps :
  forall st,
    let st' := fold_left (fun st step => announce step st) steps st in
    options st' = options st
    /\ savedVersion st' = savedVersion st
    /\ isUpgrading st' = isUpgrading st
    /\ currentStep st' = currentStep st
    /\ failedSteps st' = failedSteps st
    /\ (exists more, allLogs st' = (allLogs st ++ more)%list)
    /\ exists added, trace st' = (trace st ++ added)%list
         /\ upgradeCalls added = [] /\ emitted added = [].
Proof.
  induction steps as [| step rest IH]; intros st; cbn [fold_left].
  - cbn zeta. repeat split; exists []; now rewrite app_nil_r.
  - destruct (announce_frame step st)
      as (H1 & H2 & H3 & H4 & H5 & [m1 H6] & (a1 & H7 & H8 & H9)).
    destruct (IH (announce step st))
      as (I1 & I2 & I3 & I4 & I5 & [m2 I6] & (a2 & I7 & I8 & I9)).
    cbn zeta. repeat split; try congruence.
    + exists (m1 ++ m2)%list. now rewrite I6, H6, app_assoc.
    + exists (a1 ++ a2)%list. split; [now rewrite I7, H7, app_assoc |].
      unfold upgradeCalls, emitted in *.
      now rewrite flat_map_app, filter_app, H8, H9, I8, I9.
Qed.

(** X11.  [runWhatsNew] never touches the run: the options (current
    version and catalog included), the saved version, the running flag, the
    current step and the failed-step list are as before, no lifecycle event
    is emitted and no upgrade action is invoked; the log only grows, by
    what the announcements push through the context. *)
Theorem runWhatsNew_leaves_run_state st :
  options (runWhatsNew st) = options st
  /\ savedVersion (runWhatsNew st) = savedVersion st
  /\ isUpgrading (runWhatsNew st) = isUpgrading st
  /\ currentStep (runWhatsNew st) = currentStep st
  /\ failedSteps (runWhatsNew st) = failedSteps st
  /\ (exists more, allLogs (runWhatsNew st) = (allLogs st ++ more)%list)
  /\ upgradeCalls (since st (runWhatsNew st)) = []
  /\ emitted (since st (runWhatsNew st)) = [].
Proof.
  unfold runWhatsNew.
  destruct (announce_all_frame
              (getPendingWhatsNew (options st) (getSavedVersion st)
                 (opt_builderVersion (options st))) st)
    as (H1 & H2 & H3 & H4 & H5 & H6 & (added & H7 & H8 & H9)).
  rewrite (since_app _ _ _ H7). repeat split; assumption.
Qed.

End RunMore.

(** ** Storage hooks and the version tag *)

Lemma getKey_setKey_same key value data :
  getKey key (setKey key value data) = Some value.
Proof.
  induction data as [| [k v] rest IH]; cbn.
  - now rewrite String.eqb_refl.
  - destruct (String.eqb k key) eqn:E; cbn; rewrite E; [reflexivity | exact IH].
Qed.

Lemma getKey_setKey_other key other value data :
  other <> key -> getKey other (setKey key value data) = getKey other data.
Proof.
  intros Hne. induction data as [| [k v] rest IH]; cbn.
  - destruct (String.eqb_spec key other); [congruence | reflexivity].
  - destruct (String.eqb_spec k key) as [-> | Hk]; cbn.
    + destruct (String.eqb_spec key other); [congruence | reflexivity].
    + destruct (String.eqb k other); [reflexivity | exact IH].
Qed.

Section StorageFacts.

Context {W : Type}.
Implicit Types (st : System W) (data : ProjectData).

(** X12.  The store hook writes the current version under [builderVersion]
    and leaves every other key of the outgoing data as it was; the load
    hook reads it back as the saved version whenever it is not empty; and a
    load that carries no version ([null] data, no such key, or an empty
    value) leaves the saved version of the registry untouched rather than
    clearing it. *)
Theorem storage_hooks_round_trip st st' data :
  getKey versionKey (onStorageStartStore st data) = Some (opt_builderVersion (options st))
  /\ (forall key, key <> versionKey ->
      getKey key (onStorageStartStore st data) = getKey key data)
  /\ (opt_builderVersion (options st) <> "" ->
      savedVersion (onStorageLoadData (Some (onStorageStartStore st data)) st')
      = Some (opt_builderVersion (options st)))
  /\ (Js.falsy (getKey versionKey data) = true ->
      onStorageLoadData (Some data) st' = st')
  /\ onStorageLoadData None st' = st'.
Proof.
  unfold onStorageStartStore, onStorageLoadData, onStorageLoad.
  split; [apply getKey_setKey_same |].
  split; [intros key Hne; now apply getKey_setKey_other |].
  split; [| split; [| reflexivity]].
  - intros Hne. rewrite getKey_setKey_same.
    destruct (opt_builderVersion (options st)); [congruence | reflexivity].
  - intros Hf. now rewrite Hf.
Qed.

Lemma runUpgrades_frame st :
  savedVersion (snd (runUpgrades st)) = savedVersion st
  /\ opt_versions (options (snd (runUpgrades st))) = opt_versions (options st)
  /\ opt_compareFn (options (snd (runUpgrades st))) = opt_compareFn (options st)
  /\ opt_continueOnError (options (snd (runUpgrades st)))
     = opt_continueOnError (options st).
Proof.
  unfold runUpgrades. destruct (isUpgrading st); [repeat split |].
  destruct (pendingOf st) as [| step rest]; [repeat split |].
  unfold tryBlock.
  destruct (forEachStep_frame (step :: rest) (announceStart (step :: rest) (enterRun st)))
    as (_ & H2 & H3 & H4 & H5).
  destruct (forEachStep (step :: rest) (announceStart (step :: rest) (enterRun st)))
    as [[| | escaped] fr]; cbn in *; repeat split; assumption.
Qed.

Lemma validated_runUpgrades st : validated st -> validated (snd (runUpgrades st)).
Proof.
  intros (Hv & Hcat & Hs).
  destruct (runUpgrades_frame st) as (Fs & Fv & _ & _).
  unfold validated. rewrite Fs, Fv. repeat split; auto.
  destruct (runUpgrades_version_pending st) as [-> | (step & Hp & _ & -> & _)];
    [exact Hv |].
  apply getPendingUpgrades_In in Hp. destruct Hp as [Hin _].
  rewrite Forall_forall in Hcat. now apply Hcat.
Qed.

Lemma validated_onStorageLoadData (loaded : option ProjectData) st :
  validated st -> validated (onStorageLoadData loaded st).
Proof.
  intros (Hv & Hcat & Hs). unfold onStorageLoadData, onStorageLoad.
  destruct loaded as [d |]; [| repeat split; assumption].
  destruct (getKey versionKey d) as [[| c r] |]; cbn; repeat split; auto.
  discriminate.
Qed.

Lemma validated_plugin opts editor st :
  plugin opts editor = Some st ->
  validated st /\ isUpgrading st = false /\ currentStep st = None
  /\ savedVersion st = None /\ allLogs st = [] /\ failedSteps st = [].
Proof.
  unfold plugin.
  destruct (String.eqb_spec (opt_builderVersion (mergeOptions opts)) "") as [| Hv];
    [discriminate |].
  destruct (existsb _ (opt_versions (mergeOptions opts))) eqn:Hex; [discriminate |].
  intros H. injection H as <-. cbn. repeat split; auto; [| discriminate].
  apply Forall_forall. intros step Hin Hempty.
  assert (existsb (fun version => String.eqb (builderVersion version) "")
            (opt_versions (mergeOptions opts)) = true).
  { apply existsb_exists. exists step. split; [exact Hin |]. now apply String.eqb_eq. }
  congruence.
Qed.

(** X13.  What the factory's validation establishes, the operations keep:
    every system the factory returns is idle, with no saved version, a
    non-empty current version and non-empty catalog versions; and after any
    sequence of loads, upgrade runs and announcement runs the current
    version and the catalog versions are still non-empty and the saved
    version is never the empty string -- so the store hook always writes a
    tag that the load hook will accept. *)
Theorem validation_is_kept :
  (forall opts editor st,
      plugin opts editor = Some st ->
      validated st /\ isUpgrading st = false /\ currentStep st = None
      /\ savedVersion st = None /\ allLogs st = [] /\ failedSteps st = [])
  /\ (forall st, validated st -> validated (snd (runUpgrades st)))
  /\ (forall st, validated st -> validated (runWhatsNew st))
  /\ (forall (loaded : option ProjectData) st,
        validated st -> validated (onStorageLoadData loaded st)).
Proof.
  split; [exact validated_plugin |].
  split; [exact validated_runUpgrades |].
  split; [| exact validated_onStorageLoadData].
  intros st (Hv & Hcat & Hs).
  unfold runWhatsNew.
  destruct (announce_all_frame
              (getPendingWhatsNew (options st) (getSavedVersion st)
                 (opt_builderVersion (options st))) st) as (Ho & Hsv & _).
  cbn zeta in Ho, Hsv. unfold validated. now rewrite Ho, Hsv.
Qed.

Lemma stored_then_loaded st data :
  validated st ->
  opt_compareFn (options st) = None ->
  let st' := onStorageLoadData (Some (onStorageStartStore st data)) st in
  savedVersion st' = Some (opt_builderVersion (options st))
  /\ options st' = options st
  /\ pendingOf st' = []
  /\ needsUpgrade (options st') (savedVersion st') (opt_builderVersion (options st'))
     = false.
Proof.
  intros (Hv & _) Hdef st'.
  assert (Hs : savedVersion st' = Some (opt_builderVersion (options st))
               /\ options st' = options st).
  { unfold st', onStorageLoadData, onStorageStartStore, onStorageLoad.
    rewrite getKey_setKey_same.
    destruct (opt_builderVersion (options st)); [congruence | split; reflexivity]. }
  destruct Hs as [Hs Ho]. split; [exact Hs | split; [exact Ho |]].
  unfold pendingOf, getSavedVersion. rewrite Hs, Ho.
  destruct (opt_builderVersion (options st)) as [| c r] eqn:Ev; [congruence |].
  assert (Hzero : compareVersions (options st) (String c r) (String c r) = 0).
  { rewrite compareVersions_default by exact Hdef.
    unfold defaultCompareVersions. now rewrite String.eqb_refl. }
  split.
  - destruct (getPendingUpgrades (options st) (Some (String c r)) (String c r))
      as [| step rest] eqn:E; [reflexivity | exfalso].
    assert (Hin : In step (getPendingUpgrades (options st) (Some (String c r)) (String c r)))
      by (rewrite E; now left).
    apply (pending_implies_below _ _ _ _ _ Hdef) in Hin. lia.
  - cbn [needsUpgrade]. rewrite Hzero. reflexivity.
Qed.

(** X14.  Under the default comparator, once the host has stored the
    document and loaded it back in the same session, the saved version is
    the registry's current version and nothing is pending: [needsUpgrade]
    is false, the load handler takes no action and an idle engine's
    [runUpgrades] is the immediate no-op -- also right after a run in which
    steps failed, whose failed steps are thus not attempted again. *)
Theorem stored_document_is_current st data :
  validated st ->
  opt_compareFn (options st) = None ->
  isUpgrading st = false ->
  let reload := fun s => onStorageLoadData (Some (onStorageStartStore s data)) s in
  savedVersion (reload st) = Some (opt_builderVersion (options st))
  /\ pendingOf (reload st) = []
  /\ (forall hasOnFirstRun, onStorageEndLoad hasOnFirstRun (reload st) = NoAction)
  /\ runUpgrades (reload st)
     = ({| success := true; logs := [];
           upgradedTo := Some (opt_builderVersion (options st));
           failedStepsOf := None; error := None |}, reload st)
  /\ pendingOf (reload (snd (runUpgrades st))) = [].
Proof.
  intros Hval Hdef Hidle reload.
  destruct (stored_then_loaded st data Hval Hdef) as (Hs & Ho & Hp & Hn).
  fold (reload st) in Hs, Ho, Hp, Hn.
  split; [exact Hs | split; [exact Hp | split; [| split]]].
  - intros b. unfold onStorageEndLoad, getSavedVersion. cbv zeta.
    destruct (savedVersion (reload st)) as [[| c r] |] eqn:E.
    + destruct Hval as (Hv & _). congruence.
    + now rewrite Hn.
    + congruence.
  - unfold runUpgrades.
    assert (Hi : isUpgrading (reload st) = false).
    { unfold reload, onStorageLoadData, onStorageLoad.
      destruct (Js.falsy _); exact Hidle. }
    now rewrite Hi, Hp, Ho.
  - destruct (runUpgrades_frame st) as (_ & _ & Hc & _).
    destruct (stored_then_loaded (snd (runUpgrades st)) data
                (validated_runUpgrades st Hval) ltac:(congruence)) as (_ & _ & H & _).
    exact H.
Qed.

(** X15.  The load handler of the plugin opens the upgrade modal only for
    a document whose saved version is present and compares strictly below
    the current version.  A document without a saved version never opens
    it, whatever is pending: it gets the [onFirstRun] callback, if there is
    one.  And under the default comparator, whenever the handler takes no
    action for a document with a saved version, nothing was pending. *)
Theorem onStorageEndLoad_decides hasOnFirstRun st :
  (Js.falsy (savedVersion st) = true ->
   onStorageEndLoad hasOnFirstRun st
   = if hasOnFirstRun then CallOnFirstRun else NoAction)
  /\ (forall saved current,
        onStorageEndLoad hasOnFirstRun st = ShowUpgradeModal saved current ->
        savedVersion st = Some saved /\ saved <> ""
        /\ current = opt_builderVersion (options st)
        /\ compareVersions (options st) saved current < 0)
  /\ (opt_compareFn (options st) = None ->
      Js.falsy (savedVersion st) = false ->
      onStorageEndLoad hasOnFirstRun st = NoAction ->
      pendingOf st = []).
Proof.
  unfold onStorageEndLoad, pendingOf, getSavedVersion.
  destruct (savedVersion st) as [[| c r] |]; cbn [Js.falsy].
  - split; [reflexivity |]. split; [| discriminate].
    intros saved current H. destruct hasOnFirstRun; discriminate.
  - split; [discriminate |]. cbn [needsUpgrade].
    destruct (Z.ltb_spec (compareVersions (options st) (String c r)
                            (opt_builderVersion (options st))) 0) as [Hlt | Hge].
    + split; [| discriminate]. intros saved current H. injection H as <- <-.
      repeat split; [discriminate | exact Hlt].
    + split; [discriminate |]. intros Hdef _ _.
      destruct (getPendingUpgrades (options st) (Some (String c r))
                  (opt_builderVersion (options st))) as [| step rest] eqn:E;
        [reflexivity | exfalso].
      assert (Hin : In step (getPendingUpgrades (options st) (Some (String c r))
                               (opt_builderVersion (options st))))
        by (rewrite E; now left).
      apply (pending_implies_below _ _ _ _ _ Hdef) in Hin. lia.
  - split; [reflexivity |]. split; [| discriminate].
    intros saved current H. destruct hasOnFirstRun; discriminate.
Qed.

End StorageFacts.

(** ** Event names *)

Lemma prefix_append p s : String.prefix p (p ++ s) = true.
Proof.
  induction p as [| c r IH]; cbn; [now destruct s |].
  destruct (ascii_dec c c); [exact IH | congruence].
Qed.

(** X16.  Every name under which [emit], [on], [off] and [once] reach the
    editor's bus carries the prefix ["version:"]; normalising is
    idempotent; and a name given without the prefix reaches the same bus
    name as the name given with it. *)
Theorem fullEventName_namespaces :
  forall name : string,
    String.prefix eventPrefix (fullEventName name) = true
    /\ fullEventName (fullEventName name) = fullEventName name
    /\ fullEventName (eventPrefix ++ name) = (eventPrefix ++ name)%string
    /\ (String.prefix eventPrefix name = false ->
        fullEventName name = fullEventName (eventPrefix ++ name)).
Proof.
  intros name.
  assert (Hp : String.prefix eventPrefix (fullEventName name) = true).
  { unfold fullEventName. destruct (String.prefix eventPrefix name) eqn:E;
      [exact E | apply prefix_append]. }
  assert (Hfix : forall s, String.prefix eventPrefix s = true -> fullEventName s = s).
  { intros s Hs. unfold fullEventName. now rewrite Hs. }
  split; [exact Hp |]. split; [now apply Hfix |].
  split; [apply Hfix, prefix_append |].
  intros Hno. rewrite (Hfix (eventPrefix ++ name)%string) by apply prefix_append.
  unfold fullEventName. now rewrite Hno.
Qed.

(** ** Style sheets *)

Lemma append_assoc (a b c : string) : ((a ++ b) ++ c = a ++ (b ++ c))%string.
Proof. induction a as [| x r IH]; cbn; [reflexivity | now rewrite IH]. Qed.

Lemma append_nil_r (a : string) : (a ++ "")%string = a.
Proof. induction a as [| x r IH]; cbn; [reflexivity | now rewrite IH]. Qed.

Lemma classChar_notDot c : isClassChar c = true -> notDot c = true.
Proof.
  unfold notDot. destruct (Ascii.eqb_spec c "."%char) as [-> | _];
    [discriminate | reflexivity].
Qed.

Lemma allChars_impl (f g : ascii -> bool) s :
  (forall c, f c = true -> g c = true) -> allChars f s = true -> allChars g s = true.
Proof.
  intros Hfg. induction s as [| c r IH]; [reflexivity |]. cbn.
  intros H. apply andb_true_iff in H. destruct H as [Hc Hr].
  now rewrite (Hfg c Hc), IH.
Qed.

Lemma takeRun_dropRun s : (takeRun s ++ dropRun s)%string = s.
Proof.
  induction s as [| c r IH]; [reflexivity |]. cbn.
  destruct (isClassChar c); cbn; [now rewrite IH | reflexivity].
Qed.

(** Text without a dollar stands for itself in a replacement pattern. *)
Lemma substitute_literal a t matched group1 before after :
  allChars notDollar a = true ->
  substitute (a ++ t) matched group1 before after
  = (a ++ substitute t matched group1 before after)%string.
Proof.
  induction a as [| c r IH]; intros Ha; [reflexivity |].
  cbn [allChars] in Ha. apply andb_true_iff in Ha. destruct Ha as [Hc Hr].
  cbn [String.append substitute]. unfold notDollar in Hc.
  destruct (Ascii.eqb c "$"%char); [discriminate |]. now rewrite IH.
Qed.

(** With a prefix that holds no dollar, the pattern of [scopeCSS] expands to
    the dot, the prefix, a hyphen and the class name matched. *)
Lemma substitute_scope_pattern classPrefix matched group1 before after :
  allChars notDollar classPrefix = true ->
  substitute ("." ++ classPrefix ++ "-$1") matched group1 before after
  = ("." ++ classPrefix ++ "-" ++ group1)%string.
Proof.
  intros Hp. change ("." ++ classPrefix ++ "-$1")%string
    with (String "."%char (classPrefix ++ "-$1")).
  cbn [substitute Ascii.eqb Bool.eqb]. rewrite substitute_literal by exact Hp.
  cbn. now rewrite append_nil_r.
Qed.

Lemma prefixClassSelectors_run classPrefix css :
  prefixClassSelectors classPrefix css
  = (takeRun css ++ prefixClassSelectors classPrefix (dropRun css))%string.
Proof.
  induction css as [| c r IH]; [reflexivity |].
  cbn [takeRun dropRun]. destruct (isClassChar c) eqn:Ec; [| reflexivity].
  cbn [prefixClassSelectors String.append].
  pose proof (classChar_notDot c Ec) as Hd. unfold notDot in Hd.
  destruct (Ascii.eqb c "."%char); [discriminate |]. cbn [andb]. now rewrite <- IH.
Qed.

(** The replacement of [scopeCSS], for a prefix without dollar, whatever
    stands before the position: outside a match it is the insertion of the
    prefix after the dots of class selectors, inside a match the same past
    the rest of the class name. *)
Lemma replaceClassSelectors_literal classPrefix :
  allChars notDollar classPrefix = true ->
  forall css before,
    replaceClassSelectors ("." ++ classPrefix ++ "-$1") before false css
    = prefixClassSelectors classPrefix css
    /\ replaceClassSelectors ("." ++ classPrefix ++ "-$1") before true css
       = prefixClassSelectors classPrefix (dropRun css).
Proof.
  intros Hp. induction css as [| c r IH]; intros before; [split; reflexivity |].
  assert (Hout : replaceClassSelectors ("." ++ classPrefix ++ "-$1") before false
                   (String c r)
                 = prefixClassSelectors classPrefix (String c r)).
  { cbn [replaceClassSelectors prefixClassSelectors andb].
    destruct (Ascii.eqb c "."%char && startsWithClassChar r)%bool.
    - rewrite substitute_scope_pattern by exact Hp.
      rewrite (proj2 (IH _)). rewrite (prefixClassSelectors_run classPrefix r).
      now rewrite !append_assoc.
    - now rewrite (proj1 (IH _)). }
  split; [exact Hout |].
  cbn [dropRun]. destruct (isClassChar c) eqn:Ec.
  - cbn [replaceClassSelectors andb]. rewrite Ec. apply (proj2 (IH _)).
  - rewrite <- Hout. cbn [replaceClassSelectors andb]. now rewrite Ec.
Qed.

Lemma scopeCSS_literal classPrefix css :
  allChars notDollar classPrefix = true ->
  scopeCSS classPrefix css = prefixClassSelectors classPrefix css.
Proof. intros Hp. apply (replaceClassSelectors_literal classPrefix Hp). Qed.

Lemma prefixClassSelectors_dot_free classPrefix a b :
  allChars notDot a = true ->
  prefixClassSelectors classPrefix (a ++ b)
  = (a ++ prefixClassSelectors classPrefix b)%string.
Proof.
  induction a as [| c r IH]; intros Ha; [reflexivity |].
  cbn [allChars] in Ha. apply andb_true_iff in Ha. destruct Ha as [Hc Hr].
  cbn [String.append prefixClassSelectors]. unfold notDot in Hc.
  destruct (Ascii.eqb c "."%char); [discriminate |]. cbn. now rewrite IH.
Qed.

(** X17.  For a class prefix that holds no [$], [scopeCSS] rewrites a class
    selector to the class name that [getClassName] gives the modal's
    elements: wherever [.name] stands after dot-free text, with [name] a
    run of letters, digits, [_] and [-], the result has [.] followed by
    [getClassName classPrefix name], and the text after it is scoped in
    turn.  Text without a dot is unchanged, and a dot that no class
    character follows stays as it is. *)
Theorem scopeCSS_scopes_class_selectors classPrefix :
  allChars notDollar classPrefix = true ->
  (forall before name after,
      allChars notDot before = true ->
      isClassName name = true ->
      scopeCSS classPrefix (before ++ "." ++ name ++ after)
      = (before ++ "." ++ getClassName classPrefix name
         ++ scopeCSS classPrefix after)%string)
  /\ (forall css, allChars notDot css = true -> scopeCSS classPrefix css = css)
  /\ (forall after,
        startsWithClassChar after = false ->
        scopeCSS classPrefix ("." ++ after)
        = ("." ++ scopeCSS classPrefix after)%string).
Proof.
  intros Hp. split; [| split].
  - intros before name after Hb Hn. rewrite !scopeCSS_literal by exact Hp.
    unfold isClassName in Hn. apply andb_true_iff in Hn. destruct Hn as [Hstart Hall].
    rewrite prefixClassSelectors_dot_free by exact Hb. f_equal.
    cbn [String.append prefixClassSelectors].
    assert (Hs : startsWithClassChar (name ++ after) = true)
      by (destruct name; [discriminate | exact Hstart]).
    rewrite Hs. cbn [andb Ascii.eqb Bool.eqb].
    rewrite prefixClassSelectors_dot_free
      by (apply (allChars_impl isClassChar); [apply classChar_notDot | exact Hall]).
    unfold getClassName. cbn [String.append]. f_equal.
    now rewrite !append_assoc.
  - intros css Hc. rewrite scopeCSS_literal by exact Hp.
    induction css as [| c r IH]; [reflexivity |].
    cbn [allChars] in Hc. apply andb_true_iff in Hc. destruct Hc as [Hc Hr].
    cbn [prefixClassSelectors]. unfold notDot in Hc.
    destruct (Ascii.eqb c "."%char); [discriminate |]. cbn. now rewrite IH.
  - intros after Hno. rewrite !scopeCSS_literal by exact Hp.
    cbn [String.append prefixClassSelectors]. now rewrite Hno.
Qed.

Lemma existsb_flow_after (l : list StyleElement) css :
  existsb flowAttribute (l ++ [{| innerHTML := css; flowAttribute := true |}]) = true.
Proof. rewrite existsb_app. cbn. apply orb_true_r. Qed.

(** X18.  Style sheets are injected once.  [StyleManager.init] injects the
    custom CSS at most once however often it is called, and
    [ModalUI.injectDefaultStyles] adds at most one element however often
    the modal is shown; and once the custom CSS has been injected the
    default style sheet of the modal is never added, because both elements
    carry the same marker attribute. *)
Theorem style_sheets_injected_once defaultCSS s :
  initStyles (initStyles s) = initStyles s
  /\ injectDefaultStyles defaultCSS (injectDefaultStyles defaultCSS s)
     = injectDefaultStyles defaultCSS s
  /\ (forall c r,
        injectCSSOption s = Some (String c r) -> injected s = false ->
        head (initStyles s)
        = (head s ++ [{| innerHTML := scopeCSS (classPrefixOf (classPrefixOption s))
                                        (String c r);
                         flowAttribute := true |}])%list
        /\ injectDefaultStyles defaultCSS (initStyles s) = initStyles s)
  /\ (Js.falsy (injectCSSOption s) = true -> initStyles s = s).
Proof.
  split; [| split; [| split]].
  - unfold initStyles. destruct (injectCSSOption s) as [[| c r] |] eqn:E;
      try (rewrite E; reflexivity).
    destruct (injected s) eqn:Ei; cbn; [now rewrite E, Ei | now rewrite E].
  - unfold injectDefaultStyles.
    destruct (existsb flowAttribute (head s)) eqn:E; [now rewrite E |].
    cbn. now rewrite existsb_flow_after.
  - intros c r E Ei. unfold initStyles. rewrite E, Ei. cbn. split; [reflexivity |].
    unfold injectDefaultStyles. cbn. now rewrite existsb_flow_after.
  - intros Hf. unfold initStyles.
    destruct (injectCSSOption s) as [[| c r] |]; [reflexivity | discriminate | reflexivity].
Qed.

(** ** Retrying from the failed step *)

Lemma jsSort_sorted_id {A} (compare : A -> A -> Z) (l : list A) :
  StronglySorted (fun a b => compare a b <= 0) l -> jsSort compare l = l.
Proof.
  induction l as [| x r IH]; intros Hs; [reflexivity |].
  apply StronglySorted_inv in Hs. destruct Hs as [Hr Hx].
  cbn [jsSort]. rewrite (IH Hr).
  destruct r as [| y r']; [reflexivity |]. cbn [insertSorted].
  inversion Hx as [| ? ? Hxy _]; subst.
  now rewrite (proj2 (Z.leb_le _ _) Hxy).
Qed.

Lemma StronglySorted_skipn {A} (R : A -> A -> Prop) n :
  forall l, StronglySorted R l -> StronglySorted R (skipn n l).
Proof.
  induction n as [| n IH]; intros l Hs; [exact Hs |].
  destruct l as [| x r]; [constructor |]. cbn.
  apply IH. now apply StronglySorted_inv in Hs.
Qed.

Lemma filter_all {A} (f : A -> bool) (l : list A) :
  (forall x, In x l -> f x = true) -> filter f l = l.
Proof.
  induction l as [| x r IH]; intros H; [reflexivity |]. cbn.
  rewrite (H x (or_introl eq_refl)). f_equal. apply IH. intros y Hy. apply H. now right.
Qed.

Lemma In_skipn {A} n : forall (l : list A) x, In x (skipn n l) -> In x l.
Proof.
  induction n as [| n IH]; intros l x Hx; [exact Hx |].
  destruct l as [| y r]; [exact Hx |]. right. now apply IH.
Qed.

Lemma findIndex_Some {A} (p : A -> bool) (l : list A) :
  forall i, findIndex p l = Some i ->
  exists x, nth_error l i = Some x /\ p x = true
            /\ forall j y, (j < i)%nat -> nth_error l j = Some y -> p y = false.
Proof.
  induction l as [| x r IH]; intros i H; [discriminate |]. cbn in H.
  destruct (p x) eqn:Ex.
  - injection H as <-. exists x. repeat split; auto. intros j y Hj. lia.
  - destruct (findIndex p r) as [k |] eqn:Ek; [| discriminate].
    injection H as <-. destruct (IH k eq_refl) as (z & Hz & Hpz & Hbefore).
    exists z. repeat split; auto. intros [| j] y Hj Hy.
    + cbn in Hy. congruence.
    + apply (Hbefore j); [lia | exact Hy].
Qed.

Lemma findIndex_None {A} (p : A -> bool) (l : list A) :
  (forall x, In x l -> p x = false) -> findIndex p l = None.
Proof.
  induction l as [| x r IH]; intros H; [reflexivity |]. cbn.
  rewrite (H x (or_introl eq_refl)), IH; [reflexivity |].
  intros y Hy. apply H. now right.
Qed.

Section RetryFacts.

Context {W : Type}.
Implicit Types (st : System W) (step : VersionStep W).

Lemma pendingOf_ascending st :
  opt_compareFn (options st) = None
  \/ consistentOn (compareVersions (options st))
       (map (@builderVersion W) (opt_versions (options st))) = true ->
  ascending (options st) (pendingOf st).
Proof.
  intros Hc. apply compareVersions_consistent in Hc.
  apply consistentOn_iff in Hc. destruct Hc as [Hsgn Htrans].
  unfold ascending, pendingOf. rewrite getPendingUpgrades_unfold.
  apply (jsSort_sorted (byVersion (options st))
           (fun step => In (builderVersion step)
                          (map (@builderVersion W) (opt_versions (options st))))).
  - intros x y Hx Hy. now apply Hsgn.
  - intros x y z Hx Hy Hz. now apply Htrans.
  - apply Forall_forall. intros x Hx. apply filter_In in Hx. now apply in_map.
Qed.

(** Over a catalog narrowed to a tail of the pending list, that tail is
    what is pending. *)
Lemma pendingOf_narrowed st i :
  opt_compareFn (options st) = None
  \/ consistentOn (compareVersions (options st))
       (map (@builderVersion W) (opt_versions (options st))) = true ->
  pendingOf (withVersions (skipn i (pendingOf st)) st) = skipn i (pendingOf st).
Proof.
  intros Hc. pose proof (pendingOf_ascending st Hc) as Hasc.
  unfold pendingOf at 1. cbn [withVersions withOptions options getSavedVersion savedVersion
                               opt_builderVersion opt_versions].
  rewrite getPendingUpgrades_unfold. cbn [opt_versions].
  change (isPending _ (savedVersion st) (opt_builderVersion (options st)))
    with (isPending (options st) (getSavedVersion st) (opt_builderVersion (options st))).
  rewrite filter_all.
  - apply jsSort_sorted_id. now apply StronglySorted_skipn.
  - intros x Hx. apply In_skipn in Hx. apply getPendingUpgrades_In in Hx. tauto.
Qed.

(** X19.  When the last failed version is found in the pending list, under
    the default comparator or a consistent custom one, [retryFromFailedStep]
    is a run over the pending list from that step on: the step found is the
    first pending step with the failed version, the upgrade actions invoked
    are an initial segment of the list from it onward -- no earlier step is
    run again, every later one is in line again whether or not it had
    succeeded -- and the catalog is back in place when the call returns. *)
Theorem retryFromFailedStep_resumes_at_failed_step st i :
  opt_compareFn (options st) = None
  \/ consistentOn (compareVersions (options st))
       (map (@builderVersion W) (opt_versions (options st))) = true ->
  failedSteps st <> [] ->
  findIndex (fun step => String.eqb (builderVersion step) (last (failedSteps st) ""))
            (pendingOf st) = Some i ->
  (exists step, nth_error (pendingOf st) i = Some step
                /\ builderVersion step = last (failedSteps st) "")
  /\ (forall j earlier,
        (j < i)%nat -> nth_error (pendingOf st) j = Some earlier ->
        builderVersion earlier <> last (failedSteps st) "")
  /\ fst (retryFromFailedStep st)
     = fst (runUpgrades (withVersions (skipn i (pendingOf st)) st))
  /\ (exists rest,
        skipn i (pendingOf st)
        = (upgradeCalls (since st (snd (retryFromFailedStep st))) ++ rest)%list)
  /\ opt_versions (options (snd (retryFromFailedStep st))) = opt_versions (options st).
Proof.
  intros Hc Hfailed Hfound.
  destruct (findIndex_Some _ _ _ Hfound) as (x & Hx & Hp & Hbefore).
  split.
  { exists x. split; [exact Hx | now apply String.eqb_eq]. }
  split.
  { intros j earlier Hj Hearlier Heq.
    pose proof (Hbefore j earlier Hj Hearlier) as Hno. cbn beta in Hno.
    apply String.eqb_neq in Hno. contradiction. }
  unfold retryFromFailedStep.
  destruct (failedSteps st) as [| f fs] eqn:Ef; [congruence |].
  fold (pendingOf st). rewrite Hfound.
  destruct (upgradeCalls_segment (withVersions (skipn i (pendingOf st)) st))
    as [rest Hrest].
  rewrite (pendingOf_narrowed st i Hc) in Hrest.
  destruct (runUpgrades (withVersions (skipn i (pendingOf st)) st)) as [result st'].
  cbn [fst snd] in *. split; [reflexivity |]. split; [| reflexivity].
  exists rest. exact Hrest.
Qed.

End RetryFacts.

Section RetryAfterHalt.

Context {W : Type}.
Implicit Types (st : System W) (step : VersionStep W).

(** A call that starts a run invokes the first pending step. *)
Lemma runUpgrades_invokes_first st step rest :
  isUpgrading st = false ->
  pendingOf st = step :: rest ->
  exists more, upgradeCalls (since st (snd (runUpgrades st))) = step :: more.
Proof.
  intros Hidle Hpending.
  destruct (runUpgrades_started st step rest Hidle Hpending)
    as (closing & Hs & Hc & _).
  rewrite Hs, Hpending. unfold upgradeCalls in *. cbn [flat_map app].
  rewrite flat_map_app.
  set (fr0 := announceStart (step :: rest) (enterRun st)).
  cbn [forEachStep].
  destruct (runStep_since step fr0) as (Hg & Hcalls & _).
  pose proof (forEachStep_grows rest (snd (runStep step fr0))) as Hg2.
  unfold upgradeCalls in Hcalls.
  destruct (runStep step fr0) as [[| | escaped] fr1]; cbn [fst snd] in *.
  - destruct (grows_trans _ _ _ Hg Hg2) as [_ ->].
    rewrite flat_map_app, Hcalls. cbn. eexists. reflexivity.
  - rewrite Hcalls. cbn. eexists. reflexivity.
  - rewrite Hcalls. cbn. eexists. reflexivity.
Qed.

(** X20.  After a halted run the retry misses the failed step.  Under the
    default comparator with continuation disabled, let the first pending
    step A return and the second, B, strictly above it, throw.  The run
    halts with B recorded as failed and the current version lowered to A's.
    B is then no longer within the pending range, so [retryFromFailedStep]
    does not find it and is a plain [runUpgrades]: it invokes A again (A is
    pending and something is run), invokes nothing above A's version, and
    never invokes a step of B's version. *)
Theorem retryFromFailedStep_after_halt_misses_failed_step st A B rest v msg :
  isUpgrading st = false ->
  opt_compareFn (options st) = None ->
  opt_continueOnError (options st) = false ->
  pendingOf st = A :: B :: rest ->
  compareVersions (options st) (builderVersion A) (builderVersion B) < 0 ->
  outcome (upgrade A (world st)) = Returned v ->
  outcome (upgrade B (world_after (upgrade A (world st)))) = Threw (ThrownValue msg) ->
  let st1 := snd (runUpgrades st) in
  failedSteps st1 = [builderVersion B]
  /\ opt_builderVersion (options st1) = builderVersion A
  /\ retryFromFailedStep st1 = runUpgrades st1
  /\ In A (pendingOf st1)
  /\ upgradeCalls (since st1 (snd (retryFromFailedStep st1))) <> []
  /\ (forall step,
        In step (upgradeCalls (since st1 (snd (retryFromFailedStep st1)))) ->
        compareVersions (options st) (builderVersion step) (builderVersion A) <= 0
        /\ builderVersion step <> builderVersion B).
Proof.
  intros Hidle Hdef Hoff Hpending Hlt HA HB st1.
  (* the halted run *)
  assert (Hrun : failedSteps st1 = [builderVersion B]
                 /\ opt_builderVersion (options st1) = builderVersion A
                 /\ isUpgrading st1 = false
                 /\ savedVersion st1 = savedVersion st
                 /\ opt_versions (options st1) = opt_versions (options st)
                 /\ opt_compareFn (options st1) = None).
  { unfold st1, runUpgrades. rewrite Hidle, Hpending.
    unfold tryBlock, announceStart. cbn [forEachStep].
    unfold runStep, beforeUpgrade, runSingleUpgrade, await.
    cbn. rewrite HA. cbn. rewrite HB. cbn. rewrite Hoff. cbn.
    repeat split; assumption. }
  destruct Hrun as (Hf & Hv & Hidle1 & Hs1 & Hcat1 & Hdef1).
  (* what is pending afterwards *)
  assert (Hbelow : forall step, In step (pendingOf st1) ->
            compareVersions (options st) (builderVersion step) (builderVersion A) <= 0
            /\ builderVersion step <> builderVersion B).
  { intros step Hin. unfold pendingOf in Hin.
    apply pending_not_after_current in Hin. rewrite Hv in Hin.
    rewrite compareVersions_default in * by assumption.
    split; [exact Hin |]. intros E. rewrite E in Hin.
    rewrite (defaultCompareVersions_antisym (builderVersion B)) in Hin. lia. }
  assert (HinA : In A (pendingOf st1)).
  { assert (HA0 : In A (pendingOf st)) by (rewrite Hpending; now left).
    unfold pendingOf in *. apply getPendingUpgrades_In in HA0.
    apply getPendingUpgrades_In. destruct HA0 as [Hcat Hp].
    rewrite Hcat1. split; [exact Hcat |].
    unfold getSavedVersion in *. rewrite Hs1, Hv.
    assert (Hrefl : (compareVersions (options st1) (builderVersion A) (builderVersion A)
                     <=? 0) = true).
    { apply Z.leb_le. rewrite compareVersions_default by assumption.
      unfold defaultCompareVersions. now rewrite String.eqb_refl. }
    unfold isPending in *. destruct (savedVersion st) as [[| c r] |]; auto.
    apply andb_true_iff in Hp. destruct Hp as [Hp _].
    apply andb_true_iff. split; [| exact Hrefl].
    rewrite compareVersions_default in * by assumption. exact Hp. }
  (* the retry *)
  assert (Hretry : retryFromFailedStep st1 = runUpgrades st1).
  { unfold retryFromFailedStep. rewrite Hf. fold (pendingOf st1).
    rewrite findIndex_None; [reflexivity |].
    intros step Hin. cbn [last]. apply String.eqb_neq.
    now apply (Hbelow step). }
  split; [exact Hf | split; [exact Hv | split; [exact Hretry | split; [exact HinA |]]]].
  rewrite Hretry.
  destruct (pendingOf st1) as [| first more] eqn:Hp1; [destruct HinA |].
  destruct (runUpgrades_invokes_first st1 first more Hidle1 Hp1) as [calls Hcalls].
  split; [rewrite Hcalls; discriminate |].
  intros step Hin. apply Hbelow.
  destruct (upgradeCalls_segment st1) as [rest' Hr]. rewrite Hp1 in Hr.
  rewrite Hr. apply in_or_app. now left.
Qed.

End RetryAfterHalt.

(** ** The lifecycle events of a run *)

Section EventFacts.

Context {W : Type}.
Implicit Types (st : System W) (fr : Frame W) (step : VersionStep W).

Lemma runStep_events step fr :
  emitted (since (sys fr) (sys (snd (runStep step fr))))
  = callEvents (since (sys fr) (sys (snd (runStep step fr)))).
Proof.
  assert (H : exists added,
    trace (sys (snd (runStep step fr))) = (trace (sys fr) ++ added)%list
    /\ emitted added = callEvents added).
  { step_cases step fr; eexists; (split; [flatten_trace; reflexivity |]); reflexivity. }
  destruct H as (added & Ht & He). now rewrite (since_app _ _ _ Ht).
Qed.

Lemma forEachStep_events pendingSteps :
  forall fr,
    emitted (since (sys fr) (sys (snd (forEachStep pendingSteps fr))))
    = callEvents (since (sys fr) (sys (snd (forEachStep pendingSteps fr)))).
Proof.
  induction pendingSteps as [| step rest IH]; intros fr; cbn [forEachStep fst snd].
  - destruct (grows_intro (sys fr) (sys fr) []) as [_ ->]; [now rewrite app_nil_r |].
    reflexivity.
  - pose proof (runStep_events step fr) as He.
    destruct (runStep_since step fr) as (Hg & _).
    pose proof (forEachStep_grows rest (snd (runStep step fr))) as Hg2.
    destruct (runStep step fr) as [[| | escaped] fr1]; cbn [fst snd] in *; auto.
    destruct (grows_trans _ _ _ Hg Hg2) as [_ ->].
    unfold emitted, callEvents in *.
    now rewrite filter_app, flat_map_app, He, IH.
Qed.

(** X21.  The lifecycle events of a run follow one protocol.  A call that
    starts a run emits ['version:upgrade:start'] with all pending versions;
    then, for each step it invokes and in that order, the step's start
    event followed by its end event carrying the step's info entry, or by
    the error event and the end event carrying the error entry; and last
    ['version:upgrade:end'] with the result's [upgradedTo] and whether any
    step is recorded as failed -- unless the call ends in the catastrophic
    handler, which emits no closing event and no end event for the step
    whose rejection with [null] / [undefined] led there. *)
Theorem runUpgrades_event_protocol st :
  isUpgrading st = false ->
  pendingOf st <> [] ->
  emitted (since st (snd (runUpgrades st)))
  = (Emit_upgrade_start (map (@builderVersion W) (pendingOf st))
     :: callEvents (since st (snd (runUpgrades st)))
     ++ (if success (fst (runUpgrades st))
         then [Emit_upgrade_end (upgradedTo (fst (runUpgrades st)))
                 (negb (Nat.eqb (length (failedSteps (snd (runUpgrades st)))) 0))]
         else []))%list.
Proof.
  intros Hidle Hne.
  destruct (pendingOf st) as [| step rest] eqn:Hpending; [congruence |].
  pose proof (forEachStep_grows (step :: rest) (announceStart (step :: rest) (enterRun st)))
    as Hg.
  pose proof (forEachStep_events (step :: rest) (announceStart (step :: rest) (enterRun st)))
    as He.
  unfold grows in Hg. unfold runUpgrades, tryBlock. rewrite Hidle, Hpending.
  remember (since (sys (announceStart (step :: rest) (enterRun st)))
              (sys (snd (forEachStep (step :: rest)
                           (announceStart (step :: rest) (enterRun st)))))) as loop.
  clear Heqloop.
  destruct (forEachStep (step :: rest) (announceStart (step :: rest) (enterRun st)))
    as [[| | escaped] fr]; cbn [fst snd] in *; cbn -[since] in Hg |- *.
  - rewrite (since_app st _ (Emit_upgrade_start (builderVersion step :: map (@builderVersion W) rest)
                             :: loop ++ [Emit_upgrade_end (lastSuccessfulVersion fr)
                                           (0 <? length (failedSteps (sys fr)))%nat]));
      [| cbn -[since]; rewrite Hg; flatten_trace; reflexivity ].
    unfold emitted, callEvents in *. cbn [filter flat_map app].
    rewrite filter_app, flat_map_app, He. cbn. rewrite app_nil_r.
    destruct (failedSteps (sys fr)); reflexivity.
  - rewrite (since_app st _ (Emit_upgrade_start (builderVersion step :: map (@builderVersion W) rest)
                             :: loop ++ [Emit_upgrade_end (lastSuccessfulVersion fr)
                                           (0 <? length (failedSteps (sys fr)))%nat]));
      [| cbn -[since]; rewrite Hg; flatten_trace; reflexivity ].
    unfold emitted, callEvents in *. cbn [filter flat_map app].
    rewrite filter_app, flat_map_app, He. cbn. rewrite app_nil_r.
    destruct (failedSteps (sys fr)); reflexivity.
  - rewrite (since_app st _ (Emit_upgrade_start (builderVersion step :: map (@builderVersion W) rest)
                             :: loop ++ [Console_error
                      "[grapesjs-version-flow] Catastrophic error during upgrade process:"
                      (Some (ThrownValue escaped))]));
      [| cbn -[since]; rewrite Hg; flatten_trace; reflexivity ].
    unfold emitted, callEvents in *. cbn [filter flat_map app].
    rewrite filter_app, flat_map_app, He. cbn. now rewrite !app_nil_r.
Qed.

End EventFacts.

(** ** The further properties on concrete runs *)

(** The run over [Further.mixed]: 1.2.0 is the one failed step, the run
    reaches 2.0.0. *)
Lemma runUpgrades_result_accounts_witness :
  let st := Further.mixed in
  failedStepsOf (fst (runUpgrades st)) = Some ["1.2.0"]
  /\ failedSteps (snd (runUpgrades st)) = ["1.2.0"]
  /\ upgradedTo (fst (runUpgrades st)) = Some "2.0.0"
  /\ logs (fst (runUpgrades st)) = allLogs (snd (runUpgrades st)).
Proof.
  intros st.
  assert (Hne : pendingOf st <> []) by discriminate.
  exact (runUpgrades_result_accounts st eq_refl Hne).
Defined.

Lemma runUpgrades_best_effort_reaches_all_witness :
  let st := Further.mixed in
  upgradeCalls (since st (snd (runUpgrades st)))
  = [Further.stepA; Further.stepB; Further.stepC]
  /\ success (fst (runUpgrades st)) = true.
Proof.
  intros st.
  assert (Hnn : neverNullish (pendingOf st)).
  { intros step w [<- | [<- | [<- | []]]]; discriminate. }
  exact (runUpgrades_best_effort_reaches_all st eq_refl eq_refl Hnn).
Defined.

(** The run over [Further.mixedHalting]: 1.1.0 returned, 1.2.0 is the last
    step invoked and the one recorded. *)
Lemma runUpgrades_halting_fails_at_most_once_witness :
  let st := Further.mixedHalting in
  let t := since st (snd (runUpgrades st)) in
  let failed := failedSteps (snd (runUpgrades st)) in
  failed = ["1.2.0"]
  /\ ((returnedVersions t = map (@builderVersion _) (upgradeCalls t) /\ failed = [])
      \/ exists done last,
           upgradeCalls t = (done ++ [last])%list
           /\ returnedVersions t = map (@builderVersion _) done
           /\ (failed = [] \/ failed = [builderVersion last]))
  /\ (length failed <= 1)%nat
  /\ failedStepsOf (fst (runUpgrades st)) = Some failed.
Proof.
  intros st.
  assert (Hne : pendingOf st <> []) by discriminate.
  exact (conj eq_refl (runUpgrades_halting_fails_at_most_once st eq_refl eq_refl Hne)).
Defined.

Lemma runUpgrades_event_protocol_witness :
  let st := Further.mixedHalting in
  emitted (since st (snd (runUpgrades st)))
  = [Emit_upgrade_start ["1.1.0"; "1.2.0"; "2.0.0"];
     Emit_versionUpgrade_start "1.1.0";
     Emit_versionUpgrade_end "1.1.0" [{| level := "info"; message := "ok" |}];
     Emit_versionUpgrade_start "1.2.0";
     Emit_upgrade_error "1.2.0" "boom" "1.2.0";
     Emit_versionUpgrade_end "1.2.0"
       [{| level := "error"; message := "Failed to upgrade to 1.2.0: boom" |}];
     Emit_upgrade_end (Some "1.1.0") true].
Proof.
  intros st.
  assert (Hne : pendingOf st <> []) by discriminate.
  exact (runUpgrades_event_protocol st eq_refl Hne).
Defined.

(** Storing and reloading [Scenario.twoSteps] after its run. *)
Lemma stored_document_is_current_witness :
  let st := snd (runUpgrades Scenario.twoSteps) in
  let reload := fun s =>
    onStorageLoadData (Some (onStorageStartStore s Further.pageData)) s in
  savedVersion (reload st) = Some "2.0.0"
  /\ pendingOf (reload st) = []
  /\ (forall hasOnFirstRun, onStorageEndLoad hasOnFirstRun (reload st) = NoAction)
  /\ runUpgrades (reload st)
     = ({| success := true; logs := []; upgradedTo := Some "2.0.0";
           failedStepsOf := None; error := None |}, reload st)
  /\ pendingOf (reload (snd (runUpgrades st))) = [].
Proof.
  intros st reload.
  assert (Hval : validated st).
  { repeat split; try discriminate. repeat constructor; discriminate. }
  exact (stored_document_is_current st Further.pageData Hval eq_refl eq_refl).
Defined.

(** Retrying after the run over [Further.mixed]: 1.2.0 is found at index
    1, and the retry is over 1.2.0 and 2.0.0. *)
Lemma retryFromFailedStep_resumes_at_failed_step_witness :
  let st := snd (runUpgrades Further.mixed) in
  (exists step, nth_error (pendingOf st) 1 = Some step
                /\ builderVersion step = last (failedSteps st) "")
  /\ (forall j earlier,
        (j < 1)%nat -> nth_error (pendingOf st) j = Some earlier ->
        builderVersion earlier <> last (failedSteps st) "")
  /\ fst (retryFromFailedStep st)
     = fst (runUpgrades (withVersions (skipn 1 (pendingOf st)) st))
  /\ (exists rest,
        skipn 1 (pendingOf st)
        = (upgradeCalls (since st (snd (retryFromFailedStep st))) ++ rest)%list)
  /\ opt_versions (options (snd (retryFromFailedStep st))) = opt_versions (options st).
Proof.
  intros st.
  assert (Hf : failedSteps st <> []) by discriminate.
  exact (retryFromFailedStep_resumes_at_failed_step st 1 (or_introl eq_refl) Hf eq_refl).
Defined.

(** Retrying after the halted run over [Further.mixedHalting]. *)
Lemma retryFromFailedStep_after_halt_witness :
  let st := Further.mixedHalting in
  let st1 := snd (runUpgrades st) in
  failedSteps st1 = ["1.2.0"]
  /\ opt_builderVersion (options st1) = "1.1.0"
  /\ retryFromFailedStep st1 = runUpgrades st1
  /\ In Further.stepA (pendingOf st1)
  /\ upgradeCalls (since st1 (snd (retryFromFailedStep st1))) <> []
  /\ (forall step,
        In step (upgradeCalls (since st1 (snd (retryFromFailedStep st1)))) ->
        compareVersions (options st) (builderVersion step) "1.1.0" <= 0
        /\ builderVersion step <> "1.2.0").
Proof.
  intros st.
  exact (retryFromFailedStep_after_halt_misses_failed_step st
           Further.stepA Further.stepB [Further.stepC] (Some "ok") (Some "boom")
           eq_refl eq_refl eq_refl eq_refl eq_refl eq_refl eq_refl).
Defined.

(** The default prefix over a selector of the modal's style sheet. *)
Lemma scopeCSS_scopes_class_selectors_witness :
  allChars notDollar "gjs-version-flow" = true
  /\ scopeCSS "gjs-version-flow" "a.btn-prim:hover .x"
     = ("a.gjs-version-flow-btn-prim" ++ scopeCSS "gjs-version-flow" ":hover .x")%string.
Proof.
  split; [reflexivity |].
  exact (proj1 (scopeCSS_scopes_class_selectors "gjs-version-flow" eq_refl)
           "a" "btn-prim" ":hover .x" eq_refl eq_refl).
Defined.

(** What the retry after the halted run does: 1.1.0 once more, and only
    that. *)
Example retry_after_halt_runs_first_step_again :
  let st1 := snd (runUpgrades Further.mixedHalting) in
  map (@builderVersion _) (upgradeCalls (since st1 (snd (retryFromFailedStep st1))))
  = ["1.1.0"]
  /\ world (snd (retryFromFailedStep st1))
     = ["upgrade 1.1.0"; "upgrade 1.2.0"; "upgrade 1.1.0"]
  /\ failedSteps (snd (retryFromFailedStep st1)) = [].
Proof. repeat split. Qed.

Example scopeCSS_samples :
  scopeCSS "gjs-version-flow" ".modal { color: red; } a.btn-prim:hover {}"
  = ".gjs-version-flow-modal { color: red; } a.gjs-version-flow-btn-prim:hover {}"
  /\ scopeCSS "p" "opacity: 0.5; width: 1. 5em" = "opacity: 0.p-5; width: 1. 5em"
  /\ scopeCSS "a$&" ".btn x" = ".a.btn-btn x"
  /\ getClassName "a$&" "btn" = "a$&-btn"
  /\ fullEventName "upgrade:start" = "version:upgrade:start"
  /\ fullEventName "version:upgrade:start" = "version:upgrade:start".
Proof. repeat split. Qed.
